(** * Flax NNX: the optimizer and the lifted [jit] / [shard_map]

    A shallow embedding of [flax/nnx/training/optimizer.py] and of
    [flax/nnx/transforms/compilation.py].

    Python objects that have an identity (Variables, graph nodes) live in a
    store, a finite map from references to their contents; a function that
    reads or writes them takes the store and returns the new one.  A call
    that can raise returns a [result].  Pytrees are finitely branching trees
    with keyed children. *)

From stdpp Require Import base option list strings gmap fin_maps sets.
From Stdlib Require Import ZArith Lia.

Local Open Scope Z_scope.
Local Open Scope string_scope.

(** ** Python results *)

Inductive exn : Type :=
| ValueError (msg : string)
| TypeError (msg : string)
| NotImplementedError
| OtherError (msg : string).

Inductive result (A : Type) : Type :=
| Ret (a : A)
| Raise (e : exn).

Arguments Ret {A} a.
Arguments Raise {A} e.

(** What [repr] / [str] print for a value: Python's formatting is not part of
    the two files, so it is an interface. *)
Class Repr (A : Type) := repr : A → string.

(** [contains s sub]: [sub] occurs in [s]. *)
Definition contains (s sub : string) : Prop :=
  ∃ pre post, s = pre +:+ sub +:+ post.

(** ** Pytrees *)

(** A pytree: a leaf, or a container of some [kind] (tuple, dict, a named
    tuple of the gradient transformation, [State]) with its children
    under their keys, in order. *)
#[local] Unset Elimination Schemes.
Inductive pytree (A : Type) : Type :=
| PLeaf (a : A)
| PNode (kind : string) (children : list (string * pytree A)).
#[local] Set Elimination Schemes.

Arguments PLeaf {A} a.
Arguments PNode {A} kind children.

(** [jax.tree.map f tree] for a pure [f]. *)
Fixpoint tree_map {A B : Type} (f : A → B) (t : pytree A) : pytree B :=
  match t with
  | PLeaf a => PLeaf (f a)
  | PNode k cs => PNode k (map (λ c, (c.1, tree_map f c.2)) cs)
  end.

(** The tree's structure ([jax.tree.structure]): the tree with its leaves
    forgotten. *)
Definition tree_shape {A : Type} (t : pytree A) : pytree unit :=
  tree_map (λ _, tt) t.

(** [jax.tree.leaves]: the leaves from left to right. *)
Fixpoint tree_leaves {A : Type} (t : pytree A) : list A :=
  match t with
  | PLeaf a => [a]
  | PNode _ cs => flat_map (λ c, tree_leaves c.2) cs
  end.

(** The subtree under a path of keys (the first child with the key, as a
    dict lookup or an attribute access finds it). *)
Fixpoint assoc {B : Type} (k : string) (cs : list (string * B)) : option B :=
  match cs with
  | [] => None
  | (k', b) :: cs => if decide (k = k') then Some b else assoc k cs
  end.

Fixpoint tree_at {A : Type} (t : pytree A) (p : list string) : option (pytree A) :=
  match p with
  | [] => Some t
  | k :: p =>
      match t with
      | PLeaf _ => None
      | PNode _ cs =>
          match assoc k cs with
          | Some c => tree_at c p
          | None => None
          end
      end
  end.

(** ** StateSharding ([compilation.py], lines 44-91) *)

(** A path is the tuple of keys from the root. *)
Definition PathParts : Type := list string.

(** Modelled from the spec: [filterlib.to_predicate], not in the two
    files; a filter is "a predicate (by path and/or type)" over the
    Variables of a tree, and filters are an interface. *)
Class FilterLib (Filter Var : Type) :=
  to_predicate : Filter → PathParts → Var → bool.

Section StateSharding.
Context {Filter Var Sharding : Type}.

Record StateSharding : Type := {
  _filters : list Filter;
  _shardings : list Sharding;
}.

(** [__init__] on an iterable of [(filter, sharding)] pairs (a mapping
    gives the pairs of its [items()]). *)
Definition StateSharding_init (iterable : list (Filter * Sharding)) : StateSharding :=
  {| _filters := map fst iterable; _shardings := map snd iterable |}.

Definition filters (self : StateSharding) : list Filter := _filters self.
Definition shardings (self : StateSharding) : list Sharding := _shardings self.

Context `{!FilterLib Filter Var} `{!Repr PathParts} `{!Repr Var}.

(** The [for] loop of [map_prefix] over the zipped pairs, and the [raise]
    after it. *)
Fixpoint map_prefix_loop (pairs : list (Filter * Sharding))
    (path : PathParts) (variable : Var) : result Sharding :=
  match pairs with
  | [] =>
      Raise (ValueError ("No axis found for path=" +:+ repr path
                           +:+ ", variable=" +:+ repr variable))
  | (filter, sharding) :: pairs =>
      let predicate := to_predicate filter in
      if predicate path variable then Ret sharding
      else map_prefix_loop pairs path variable
  end.

Definition map_prefix (self : StateSharding) (path : PathParts) (variable : Var)
    : result Sharding :=
  map_prefix_loop (zip (filters self) (shardings self)) path variable.
End StateSharding.

Arguments StateSharding : clear implicits.

(** ** Arrays, Variables and the store *)

(** An array is abstracted to one integer: [jax] is an interface, and the
    only arithmetic the two files do themselves is [step + 1] on a
    [uint32]; [optax.apply_updates] adds. *)
Definition array : Type := Z.

(** [x + y] on [uint32]: JAX's unsigned addition wraps around. *)
Definition uint32_add (x y : Z) : Z := (x + y) mod 2 ^ 32.

(** The identity of a Python object. *)
Abbreviation ref := nat.

(** The classes of [optimizer.py], lines 32-47, and the others. *)
Inductive VarType : Type :=
| Param
| OptState
| OptArray
| OptVariable
| OtherVariable (name : string).

#[global] Instance VarType_eq_dec : EqDecision VarType.
Proof. solve_decision. Defined.

(** Modelled from the spec: the contents of a [Variable] object of
    [variablelib], "a named mutable container for one value plus metadata":
    its class, the value it holds, its metadata. *)
Record VariableState : Type := mkVariable {
  var_type : VarType;
  raw_value : array;
  _var_metadata : gmap string string;
}.

(** The store of the Variables. *)
Abbreviation store := (gmap ref VariableState).

(** A leaf of a Python tree: a bare array, or (a reference to) a Variable. *)
Inductive obj : Type :=
| OArr (a : array)
| OVar (r : ref).

(** What a pure function is handed for such a leaf: the array, or the
    Variable's contents. *)
Inductive vleaf : Type :=
| VArr (a : array)
| VVar (v : VariableState).

(** Modelled from the spec: the constructor of a Variable class makes a
    new object, with an identity of its own. *)
Definition Variable_new (v : VariableState) (σ : store) : ref * store :=
  let r := fresh (dom σ) in (r, <[r := v]> σ).

(** Modelled from the spec: [x[...]], the value the Variable holds. *)
Definition Variable_getitem (r : ref) (σ : store) : option array :=
  raw_value <$> σ !! r.

(** Modelled from the spec: [x.get_metadata()], the "key-value
    attributes such as sharding hints" of the Variable. *)
Definition get_metadata (r : ref) (σ : store) : option (gmap string string) :=
  _var_metadata <$> σ !! r.

Definition set_raw_value (v : VariableState) (a : array) : VariableState :=
  {| var_type := var_type v; raw_value := a; _var_metadata := _var_metadata v |}.

(** Modelled from the spec: [x[...] = a], a "direct Variable-value
    assignment": the same object holds a new value. *)
Definition Variable_setitem (r : ref) (a : array) (σ : store) : option store :=
  v ← σ !! r; Some (<[r := set_raw_value v a]> σ).

(** Tuples of trees, as Python builds them. *)
Definition tuple2 {A : Type} (a b : pytree A) : pytree A :=
  PNode "tuple" [("0", a); ("1", b)].

(** ** Traversals with effects *)

(** The children of a node, left to right, threading the state. *)
Definition childrenM {A B S : Type} (rec : pytree A → S → option (pytree B * S))
    : list (string * pytree A) → S → option (list (string * pytree B) * S) :=
  fix go cs s :=
    match cs with
    | [] => Some ([], s)
    | (key, c) :: cs =>
        '(c', s1) ← rec c s;
        '(cs', s2) ← go cs s1;
        Some ((key, c') :: cs', s2)
    end.

(** [jax.tree.map f tree] for an [f] that reads and allocates. *)
Fixpoint tree_mapM {A B S : Type} (f : A → S → option (B * S))
    (t : pytree A) (s : S) : option (pytree B * S) :=
  match t with
  | PLeaf a => '(b, s') ← f a s; Some (PLeaf b, s')
  | PNode k cs => '(cs', s') ← childrenM (tree_mapM f) cs s; Some (PNode k cs', s')
  end.

(** [f] over a list of leaves, left to right: what [jax.tree.map] does
    between flattening the tree and building the result. *)
Fixpoint leaves_mapM {A B S : Type} (f : A → S → option (B * S))
    (l : list A) (s : S) : option (list B * S) :=
  match l with
  | [] => Some ([], s)
  | a :: l =>
      '(b, s1) ← f a s;
      '(bs, s2) ← leaves_mapM f l s1;
      Some (b :: bs, s2)
  end.

(** The children of two nodes in step: same number, same keys. *)
Definition children2M {A B C S : Type}
    (rec : pytree A → pytree B → S → option (pytree C * S))
    : list (string * pytree A) → list (string * pytree B) → S
      → option (list (string * pytree C) * S) :=
  fix go cs ds s :=
    match cs, ds with
    | [], [] => Some ([], s)
    | (key, c) :: cs, (key2, d) :: ds =>
        if decide (key = key2) then
          '(c', s1) ← rec c d s;
          '(cs', s2) ← go cs ds s1;
          Some ((key, c') :: cs', s2)
        else None
    | _, _ => None
    end.

(** [jax.tree.map f tree rest]: the first tree gives the structure, the
    second is flattened up to it, and [f] gets a leaf of the first with the
    subtree of the second at the same place.  A second tree of another
    structure raises (here: [None]). *)
Fixpoint tree_map2M {A B C S : Type} (f : A → pytree B → S → option (C * S))
    (t1 : pytree A) (t2 : pytree B) (s : S) : option (pytree C * S) :=
  match t1 with
  | PLeaf a => '(c, s') ← f a t2 s; Some (PLeaf c, s')
  | PNode k cs =>
      match t2 with
      | PLeaf _ => None
      | PNode k2 ds =>
          if decide (k = k2) then
            '(cs', s') ← children2M (tree_map2M f) cs ds s; Some (PNode k cs', s')
          else None
      end
  end.

(** ** The gradient transformation ([optax], an interface) *)

Module optax.
(** [init(params) -> state] and
    [update(grads, state, params, **extra) -> (updates, new_state)], pure
    functions of the trees they are handed; [update] may raise. *)
Record GradientTransformation : Type := {
  init : pytree vleaf → pytree vleaf;
  update : pytree array → pytree array → pytree array
           → list (string * pytree vleaf)
           → option (pytree array * pytree array);
}.

(** [apply_updates(params, updates)]: [p + u] leaf by leaf. *)
Definition apply_updates (params updates : pytree array) : option (pytree array) :=
  fst <$> tree_map2M
    (λ p u (_ : unit), match u with PLeaf u => Some (p + u, tt) | PNode _ _ => None end)
    params updates tt.
End optax.

(** [tree_mapO f tree]: [jax.tree.map] for an [f] that only reads and may
    raise. *)
Fixpoint tree_mapO {A B : Type} (f : A → option B) (t : pytree A) : option (pytree B) :=
  match t with
  | PLeaf a => PLeaf <$> f a
  | PNode k cs => PNode k <$> mapM (λ c, pair c.1 <$> tree_mapO f c.2) cs
  end.

(** Two trees of one structure whose leaves are related, place by place. *)
#[local] Unset Elimination Schemes.
Inductive tree_rel {A B : Type} (R : A → B → Prop) : pytree A → pytree B → Prop :=
| tree_rel_leaf a b : R a b → tree_rel R (PLeaf a) (PLeaf b)
| tree_rel_node k cs ds :
    Forall2 (λ c d, c.1 = d.1 ∧ tree_rel R c.2 d.2) cs ds →
    tree_rel R (PNode k cs) (PNode k ds).
#[local] Set Elimination Schemes.

(** Every key of a node occurs once, as in a Python dict or object. *)
Definition all_children {A : Type} (P : pytree A → Prop)
    : list (string * pytree A) → Prop :=
  fix go cs := match cs with [] => True | c :: cs => P c.2 ∧ go cs end.

Fixpoint wf_keys {A : Type} (t : pytree A) : Prop :=
  match t with
  | PLeaf _ => True
  | PNode _ cs => NoDup (map fst cs) ∧ all_children wf_keys cs
  end.

(** Every Variable of the tree is an object of the store. *)
Definition closed (σ : store) (t : pytree ref) : Prop :=
  ∀ r, r ∈ tree_leaves t → r ∈ dom σ.

(** ** The graph-node helpers of [nnx] used by the optimizer *)

Module nnx.
Section Filters.
Context {Filter : Type} `{!FilterLib Filter VariableState}.

Definition selected (flt : Filter) (σ : store) (path : PathParts) (r : ref) : bool :=
  match σ !! r with
  | Some v => to_predicate flt path v
  | None => false
  end.

(** The children a filter keeps, each under its key. *)
Definition filter_children (rec : PathParts → pytree ref → option (pytree ref))
    (path : PathParts) : list (string * pytree ref) → list (string * pytree ref) :=
  fix go cs :=
    match cs with
    | [] => []
    | (key, c) :: cs =>
        match rec (path ++ [key])%list c with
        | Some c' => (key, c') :: go cs
        | None => go cs
        end
    end.

Fixpoint state_filter (flt : Filter) (σ : store) (path : PathParts)
    (node : pytree ref) : option (pytree ref) :=
  match node with
  | PLeaf r => if selected flt σ path r then Some (PLeaf r) else None
  | PNode _ cs => Some (PNode "State" (filter_children (state_filter flt σ) path cs))
  end.

(** Modelled from the spec: [state(node, filter) -> state_tree] of the
    graph-node collaborator, which is not in the two files.  The state
    tree holds, under their paths, the Variables of the node that the
    filter selects by path and Variable; every container of the node
    is a [State] with the same keys. *)
Definition state (node : pytree ref) (flt : Filter) (σ : store) : pytree ref :=
  default (PNode "State" []) (state_filter flt σ [] node).
End Filters.

Definition pure_leaf (σ : store) (x : obj) : option array :=
  match x with
  | OArr a => Some a
  | OVar r => Variable_getitem r σ
  end.

(** Modelled from the spec: [pure], which with [freeze] "produce[s] an
    immutable plain-value view of a tree": every Variable is replaced by
    the value it holds. *)
Definition pure (t : pytree obj) (σ : store) : option (pytree array) :=
  tree_mapO (pure_leaf σ) t.

(** Modelled from the spec: [freeze]; the arrays of this model are
    immutable values, so the frozen view of a tree is the tree. *)
Definition freeze {T : Type} (tree : T) : T := tree.

(** Modelled from the spec: [nnx.data] marks an attribute as data of the
    object; the value is the same. *)
Definition data {A : Type} (t : pytree A) : pytree A := t.

(** Modelled from the spec: the in-place [update(node, new_state_tree)]:
    the state tree is followed key by key into the node, and each of its
    leaves is written into the Variable found there.  It raises when the
    node has no such key, or no Variable there. *)
Definition update_children (rec : pytree ref → pytree array → store → option store)
    (cs : list (string * pytree ref))
    : list (string * pytree array) → store → option store :=
  fix go ss σ :=
    match ss with
    | [] => Some σ
    | (key, s) :: ss => c ← assoc key cs; σ' ← rec c s σ; go ss σ'
    end.

Fixpoint update (node : pytree ref) (st : pytree array) (σ : store)
    {struct st} : option store :=
  match st, node with
  | PLeaf a, PLeaf r => Variable_setitem r a σ
  | PNode _ ss, PNode _ cs => update_children update cs ss σ
  | _, _ => None
  end.
End nnx.

(** What a pure function sees of a leaf, and of a tree. *)
Definition view_leaf (σ : store) (x : obj) : option vleaf :=
  match x with
  | OArr a => Some (VArr a)
  | OVar r => VVar <$> σ !! r
  end.

Definition view (t : pytree obj) (σ : store) : option (pytree vleaf) :=
  tree_mapO (view_leaf σ) t.

(** The objects a pure function returns are new ones. *)
Definition new_leaf (x : vleaf) (σ : store) : option (obj * store) :=
  match x with
  | VArr a => Some (OArr a, σ)
  | VVar v => let '(r, σ') := Variable_new v σ in Some (OVar r, σ')
  end.

Definition new_tree (t : pytree vleaf) (σ : store) : option (pytree obj * store) :=
  tree_mapM new_leaf t σ.

(** ** [optimizer.py] *)

(** [isinstance(x, Variable)] *)
Definition is_Variable (x : obj) : bool :=
  match x with OVar _ => true | OArr _ => false end.

(** [_to_opt_state], lines 51-56. *)
Definition _to_opt_state (x : obj) (σ : store) : option (ref * store) :=
  if is_Variable x then
    match x with
    | OVar r =>
        value ← Variable_getitem r σ;
        metadata ← get_metadata r σ;
        Some (Variable_new (mkVariable OptVariable value metadata) σ)
    | OArr _ => None
    end
  else
    match x with
    | OArr a => Some (Variable_new (mkVariable OptArray a ∅) σ)
    | OVar _ => None
    end.

(** [to_opt_state], lines 50-63: a Variable is a leaf of the tree
    ([is_leaf]), so the leaves of a [pytree obj] are the places where [f] is
    called. *)
Definition to_opt_state (tree : pytree obj) (σ : store) : option (pytree ref * store) :=
  tree_mapM _to_opt_state tree σ.

(** The arguments of one call of [tx.update]. *)
Record tx_call : Type := {
  call_grads : pytree array;
  call_opt_state : pytree array;
  call_params : pytree array;
  call_kwargs : list (string * pytree vleaf);
}.

Definition tx_update (tx : optax.GradientTransformation) (c : tx_call)
    : option (pytree array * pytree array) :=
  optax.update tx (call_grads c) (call_opt_state c) (call_params c) (call_kwargs c).

(** [self.step[...] += 1] on the [uint32] counter. *)
Definition step_incr (step : ref) (σ : store) : option store :=
  n ← Variable_getitem step σ; Variable_setitem step (uint32_add n 1) σ.

Module Optimizer.
Section Optimizer.
Context {Filter : Type} `{!FilterLib Filter VariableState}.

Record t : Type := {
  step : ref;
  model : pytree ref;
  tx : optax.GradientTransformation;
  opt_state : pytree ref;
  wrt : Filter;
}.

(** [__init__], lines 131-158. *)
Definition __init__ (model : pytree ref) (tx : optax.GradientTransformation)
    (wrt : Filter) (σ : store) : option (t * store) :=
  let '(step, σ) := Variable_new (mkVariable OptState 0 ∅) σ in
  params ← view (tree_map OVar (nnx.state model wrt σ)) σ;
  '(state0, σ) ← new_tree (optax.init tx params) σ;
  '(opt_state, σ) ← to_opt_state state0 σ;
  Some ({| step := step; model := model; tx := tx;
           opt_state := nnx.data opt_state; wrt := wrt |}, σ).

(** [update], lines 216-220: the arguments for [tx.update]. *)
Definition update_call (self : t) (grads : pytree obj)
    (kwargs : list (string * pytree obj)) (σ : store) : option tx_call :=
  let params := nnx.state (model self) (wrt self) σ in
  param_arrays ← nnx.freeze <$> nnx.pure (tree_map OVar params) σ;
  grad_arrays ← nnx.freeze <$> nnx.pure grads σ;
  opt_state_arrays ← nnx.freeze <$> nnx.pure (tree_map OVar (opt_state self)) σ;
  kwargs_arrays ← nnx.freeze <$> mapM (λ kw, pair kw.1 <$> nnx.pure kw.2 σ) kwargs;
  Some {| call_grads := grad_arrays; call_opt_state := opt_state_arrays;
          call_params := param_arrays;
          call_kwargs := map (λ kw, (kw.1, tree_map VArr kw.2)) kwargs_arrays |}.

(** [update], lines 160-229.  It returns nothing: [tt] is Python's
    [None]. *)
Definition update (self : t) (grads : pytree obj)
    (kwargs : list (string * pytree obj)) (σ : store) : option (unit * store) :=
  c ← update_call self grads kwargs σ;
  '(updates, new_opt_state) ← tx_update (tx self) c;
  new_params ← optax.apply_updates (call_params c) updates;
  σ ← nnx.update (model self) new_params σ;
  σ ← nnx.update (opt_state self) new_opt_state σ;
  σ ← step_incr (step self) σ;
  Some (tt, σ).
End Optimizer.
Arguments t : clear implicits.
End Optimizer.

Module PytreeOptimizer.
Record t : Type := {
  tx : optax.GradientTransformation;
  step : ref;
  opt_state : pytree ref;
}.

(** [__init__], lines 298-301. *)
Definition __init__ (params : pytree ref) (tx : optax.GradientTransformation)
    (σ : store) : option (t * store) :=
  let '(step, σ) := Variable_new (mkVariable OptArray 0 ∅) σ in
  params ← view (nnx.freeze (tree_map OVar params)) σ;
  '(state0, σ) ← new_tree (optax.init tx params) σ;
  '(opt_state, σ) ← to_opt_state state0 σ;
  Some ({| tx := tx; step := step; opt_state := nnx.data opt_state |}, σ).

(** [update], lines 304-310: the arguments for [tx.update]; the keyword
    arguments go as they are. *)
Definition update_call (self : t) (params : pytree ref) (grads : pytree obj)
    (kwargs : list (string * pytree obj)) (σ : store) : option tx_call :=
  param_arrays ← nnx.freeze <$> nnx.pure (tree_map OVar params) σ;
  grad_arrays ← nnx.freeze <$> nnx.pure grads σ;
  opt_state_arrays ← nnx.freeze <$> nnx.pure (tree_map OVar (opt_state self)) σ;
  kwargs ← mapM (λ kw, pair kw.1 <$> view kw.2 σ) kwargs;
  Some {| call_grads := grad_arrays; call_opt_state := opt_state_arrays;
          call_params := param_arrays; call_kwargs := kwargs |}.

(** [_update_variable], lines 313-314. *)
Definition _update_variable (param : ref) (value : pytree array) (σ : store)
    : option (unit * store) :=
  match value with
  | PLeaf a => σ' ← Variable_setitem param a σ; Some (tt, σ')
  | PNode _ _ => None
  end.

(** [update], lines 303-322. *)
Definition update (self : t) (params : pytree ref) (grads : pytree obj)
    (kwargs : list (string * pytree obj)) (σ : store) : option (unit * store) :=
  c ← update_call self params grads kwargs σ;
  '(updates, new_opt_state) ← tx_update (tx self) c;
  new_params ← optax.apply_updates (call_params c) updates;
  '(_, σ) ← tree_map2M _update_variable
              (tuple2 params (opt_state self))
              (tuple2 new_params new_opt_state) σ;
  σ ← step_incr (step self) σ;
  Some (tt, σ).
End PytreeOptimizer.

(** ** Graph nodes and the boundary-crossing protocol *)

(** The state of a graph node, extracted: the contents of its Variables
    under their paths. *)
Abbreviation State := (gmap PathParts VariableState).

(** Modelled from the spec: a graph node (a model), "a stateful, mutable
    ... object" with an identity. *)
Record GraphNode : Type := {
  node_type : string;
  node_state : State;
}.

Abbreviation heap := (gmap ref GraphNode).

(** A leaf of a tree of arguments or results: an array or a graph node. *)
Inductive jleaf : Type :=
| JArr (a : array)
| JNode (r : ref).

(** A tree in which every key has its path from the root
    ([jax.tree_util.tree_flatten_with_path]). *)
Fixpoint with_paths_from {A : Type} (path : PathParts) (t : pytree A)
    : pytree (PathParts * A) :=
  match t with
  | PLeaf a => PLeaf (path, a)
  | PNode k cs =>
      PNode k (map (λ c, (c.1, with_paths_from (path ++ [c.1])%list c.2)) cs)
  end.

Definition with_paths {A : Type} (t : pytree A) : pytree (PathParts * A) :=
  with_paths_from [] t.

(** A prefix tree handed down to the leaves of a tree: a leaf of the prefix
    stands for the whole subtree at its place. *)
Definition broadcast_children {P A : Type}
    (rec : pytree P → pytree A → option (pytree (P * A)))
    : list (string * pytree P) → list (string * pytree A)
      → option (list (string * pytree (P * A))) :=
  fix go ps cs :=
    match ps, cs with
    | [], [] => Some []
    | (_, p) :: ps, (key, c) :: cs =>
        c' ← rec p c; cs' ← go ps cs; Some ((key, c') :: cs')
    | _, _ => None
    end.

Fixpoint broadcast_prefix {P A : Type} (prefix : pytree P) (t : pytree A)
    : option (pytree (P * A)) :=
  match prefix with
  | PLeaf p => Some (tree_map (pair p) t)
  | PNode _ ps =>
      match t with
      | PLeaf _ => None
      | PNode k cs => PNode k <$> broadcast_children broadcast_prefix ps cs
      end
  end.

Definition tuple3 {A : Type} (a b c : pytree A) : pytree A :=
  PNode "tuple" [("0", a); ("1", b); ("2", c)].

Module graph.
(** Modelled from the spec: the structural descriptor of one graph
    node: its type, the stable identity the extraction gave it, and, when
    the node is the view of an object of the calling scope, that object's
    identity. *)
Record GraphDef : Type := {
  gd_type : string;
  gd_index : nat;
  gd_outer_index : option nat;
}.

(** Modelled from the spec: "an explicit identity map keyed by
    descriptor-assigned stable IDs, populated on extraction and consulted
    on reconstruction", both ways. *)
Record RefMap : Type := {
  ref_index : gmap ref nat;
  index_ref : gmap nat ref;
}.

Definition RefMap_empty : RefMap := {| ref_index := ∅; index_ref := ∅ |}.

Definition RefMap_add (r : ref) (i : nat) (m : RefMap) : RefMap :=
  {| ref_index := <[r := i]> (ref_index m); index_ref := <[i := r]> (index_ref m) |}.

(** Modelled from the spec: the context of one call (of one [ctxtag]):
    the identity map of the extraction in the calling scope, and the one
    of the reconstruction inside the pure function. *)
Record UpdateContext : Type := {
  outer : option RefMap;
  inner : option RefMap;
}.

(** Modelled from the spec: [with graph.update_context(tag)], a new
    context for the call. *)
Definition update_context : UpdateContext := {| outer := None; inner := None |}.

(** Modelled from the spec: the context of an extraction, which knows
    the objects that the reconstruction inside the pure function made for
    objects of the calling scope. *)
Record SplitContext : Type := {
  inner_ref_outer_index : gmap ref nat;
}.

(** Modelled from the spec: the context of a reconstruction, inside the
    pure function or in the calling scope, which knows the objects of the
    calling scope by the identities their extraction gave them. *)
Record MergeContext : Type := {
  is_inner : bool;
  outer_index_outer_ref : gmap nat ref;
}.

(** Modelled from the spec: [with graph.split_context(ctxtag)]. *)
Definition split_context (ctx : UpdateContext) : SplitContext :=
  {| inner_ref_outer_index := default ∅ (ref_index <$> inner ctx) |}.

(** Modelled from the spec: [with graph.merge_context(ctxtag, is_inner)]. *)
Definition merge_context (ctx : UpdateContext) (is_inner : bool) : MergeContext :=
  {| is_inner := is_inner;
     outer_index_outer_ref := default ∅ (index_ref <$> outer ctx) |}.

Section Filters.
Context {Filter : Type} `{!FilterLib Filter VariableState}.

(** The first filter, by position, that accepts the Variable. *)
Fixpoint first_match (fs : list Filter) (path : PathParts) (v : VariableState)
    : option nat :=
  match fs with
  | [] => None
  | f :: fs =>
      if to_predicate f path v then Some 0%nat
      else S <$> first_match fs path v
  end.

(** Modelled from the spec: the state of a node in as many parts as
    there are filters, each Variable in the part of the first filter
    that accepts it; a Variable that no filter accepts raises. *)
Definition split_state (fs : list Filter) (st : State) : option (list State) :=
  if decide (map_Forall (λ p v, is_Some (first_match fs p v)) st) then
    Some (map (λ i, filter (λ pv, first_match fs pv.1 pv.2 = Some i) st)
              (seq 0 (length fs)))
  else None.

(** Modelled from the spec: [ctx.flatten(node, *filters) ->
    (descriptor, *partitioned_state_trees)] in a split context, which is
    not in the two files.  A node seen before in this extraction keeps
    its identity; a new one gets the next.  The descriptor says which
    object of the calling scope the node is a view of, if any. *)
Definition flatten (ctx : SplitContext) (h : heap) (x : ref)
    (fs : option (list Filter)) (m : RefMap)
    : option (GraphDef * list State * RefMap) :=
  node ← h !! x;
  states ← match fs with
           | Some fs => split_state fs (node_state node)
           | None => Some [node_state node]
           end;
  let '(i, m') :=
    match ref_index m !! x with
    | Some i => (i, m)
    | None => let i := fresh (dom (index_ref m)) in (i, RefMap_add x i m)
    end in
  Some ({| gd_type := node_type node; gd_index := i;
           gd_outer_index := inner_ref_outer_index ctx !! x |}, states, m').
End Filters.

(** Modelled from the spec: the parts of a state, put together. *)
Definition merge_states (states : list State) : State := ⋃ states.

(** Modelled from the spec: [ctx.unflatten(descriptor, *state_trees) ->
    node] in a merge context.  Inside the pure function it makes a new
    object for every identity it has not seen.  On the way out a
    descriptor that names an object of the calling scope is reconciled
    with that object: the object takes the state, and is the result. *)
Definition unflatten (ctx : MergeContext) (gd : GraphDef) (states : list State)
    (s : heap * RefMap) : option (ref * (heap * RefMap)) :=
  let '(h, m) := s in
  let st := merge_states states in
  match (if is_inner ctx then None else gd_outer_index gd) with
  | Some oi =>
      r ← outer_index_outer_ref ctx !! oi;
      node ← h !! r;
      Some (r, (<[r := {| node_type := node_type node; node_state := st |}]> h,
                RefMap_add r (gd_index gd) m))
  | None =>
      match index_ref m !! gd_index gd with
      | Some r => Some (r, (h, m))
      | None =>
          let r := fresh (dom h) in
          Some (r, (<[r := {| node_type := gd_type gd; node_state := st |}]> h,
                    RefMap_add r (gd_index gd) m))
      end
  end.
End graph.

Module extract.
Section Extract.
Context {Meta : Type}.

(** Modelled from the spec: [extract.NodeStates], what stands for a
    graph node in a pure tree. *)
Record NodeStates : Type := {
  _graphdef : graph.GraphDef;
  states : list State;
  metadata : Meta;
}.

(** Modelled from the spec: [extract.NodeStates.from_split(graphdef,
    *states, metadata=...)]. *)
Definition from_split (graphdef : graph.GraphDef) (states : list State)
    (metadata : Meta) : NodeStates :=
  {| _graphdef := graphdef; states := states; metadata := metadata |}.

Definition graphdef (self : NodeStates) : graph.GraphDef := _graphdef self.

(** A leaf of a pure tree. *)
Inductive pleaf : Type :=
| PArr (a : array)
| PStates (ns : NodeStates).

(** Modelled from the spec: [to_tree(tree, prefix, ctxtag, split_fn)]:
    every graph node of the tree is replaced by what [split_fn] extracts
    under the prefix at its place; other leaves pass through.  The
    extraction of the calling scope leaves its identity map in the
    context. *)
Definition to_tree_leaf
    (split_fn : graph.SplitContext → heap → PathParts → Meta → ref → graph.RefMap
                → option (NodeStates * graph.RefMap))
    (sctx : graph.SplitContext) (h : heap)
    (x : Meta * (PathParts * jleaf)) (m : graph.RefMap)
    : option (pleaf * graph.RefMap) :=
  match x.2.2 with
  | JArr a => Some (PArr a, m)
  | JNode r => '(ns, m') ← split_fn sctx h x.2.1 x.1 r m; Some (PStates ns, m')
  end.

Definition to_tree (tree : pytree jleaf) (prefix : pytree Meta)
    (split_fn : graph.SplitContext → heap → PathParts → Meta → ref → graph.RefMap
                → option (NodeStates * graph.RefMap))
    (h : heap) (ctx : graph.UpdateContext)
    : option (pytree pleaf * graph.UpdateContext) :=
  let sctx := graph.split_context ctx in
  leaves ← broadcast_prefix prefix (with_paths tree);
  '(pure_tree, m) ← tree_mapM (to_tree_leaf split_fn sctx h) leaves graph.RefMap_empty;
  Some (pure_tree,
        match graph.inner ctx with
        | None => {| graph.outer := Some m; graph.inner := None |}
        | Some _ => ctx
        end).

Definition result_option {A : Type} (x : result A) : option A :=
  match x with Ret a => Some a | Raise _ => None end.

(** Modelled from the spec: [from_tree(extracted, ctxtag, merge_fn,
    is_inner)], the inverse: every extracted representation is handed to
    [merge_fn]; other leaves pass through.  The reconstruction inside
    the pure function leaves its identity map in the context. *)
Definition from_tree_leaf
    (merge_fn : graph.MergeContext → PathParts → Meta → pleaf → heap * graph.RefMap
                → result (ref * (heap * graph.RefMap)))
    (mctx : graph.MergeContext)
    (x : PathParts * pleaf) (s : heap * graph.RefMap)
    : option (jleaf * (heap * graph.RefMap)) :=
  match x.2 with
  | PArr a => Some (JArr a, s)
  | PStates ns =>
      '(r, s') ← result_option (merge_fn mctx x.1 (metadata ns) x.2 s);
      Some (JNode r, s')
  end.

Definition from_tree (tree : pytree pleaf)
    (merge_fn : graph.MergeContext → PathParts → Meta → pleaf → heap * graph.RefMap
                → result (ref * (heap * graph.RefMap)))
    (is_inner : bool) (h : heap) (ctx : graph.UpdateContext)
    : option (pytree jleaf * heap * graph.UpdateContext) :=
  let mctx := graph.merge_context ctx is_inner in
  '(out, (h', m)) ← tree_mapM (from_tree_leaf merge_fn mctx) (with_paths tree)
                      (h, graph.RefMap_empty);
  Some (out, h',
        if is_inner then {| graph.outer := graph.outer ctx; graph.inner := Some m |}
        else ctx).
End Extract.
Arguments NodeStates : clear implicits.
Arguments pleaf : clear implicits.

(** Modelled from the spec: [clear_non_graph_nodes], which "strip[s]
    non-stateful leaves before re-extraction on the output leg": a leaf
    that is no graph node becomes [None], an empty subtree. *)
Fixpoint clear_non_graph_nodes (tree : pytree jleaf) : pytree jleaf :=
  match tree with
  | PLeaf (JArr _) => PNode "None" []
  | PLeaf (JNode r) => PLeaf (JNode r)
  | PNode k cs => PNode k (map (λ c, (c.1, clear_non_graph_nodes c.2)) cs)
  end.
End extract.

(** ** [compilation.py]: the lifted [jit] *)

Definition untuple2 {A : Type} (t : pytree A) : option (pytree A * pytree A) :=
  match t with
  | PNode _ [(_, a); (_, b)] => Some (a, b)
  | _ => None
  end.

Definition untuple3 {A : Type} (t : pytree A)
    : option (pytree A * pytree A * pytree A) :=
  match t with
  | PNode _ [(_, a); (_, b); (_, c)] => Some (a, b, c)
  | _ => None
  end.

(** The class of a leaf, for [type(leaf)] in a message. *)
Inductive pytype : Type :=
| TyArray
| TyNodeStates.

Section Jit.
Context {Filter Sharding : Type} `{!FilterLib Filter VariableState}.
Context `{!Repr PathParts} `{!Repr pytype}.

(** What a leaf of [in_shardings] / [out_shardings] can be: a
    [StateSharding], or something of JAX's ([None] included). *)
Inductive prefix_leaf : Type :=
| PStateSharding (s : StateSharding Filter Sharding)
| POther (s : option Sharding).

Definition is_None (t : pytree prefix_leaf) : bool :=
  match t with PLeaf (POther None) => true | _ => false end.

Definition py_None : pytree prefix_leaf := PLeaf (POther None).

Definition type_of (leaf : extract.pleaf prefix_leaf) : pytype :=
  match leaf with
  | extract.PArr _ => TyArray
  | extract.PStates _ => TyNodeStates
  end.

(** [_jit_split_fn], lines 94-98. *)
Definition _jit_split_fn (ctx : graph.SplitContext) (h : heap) (path : PathParts)
    (prefix : prefix_leaf) (x : ref) (m : graph.RefMap)
    : option (extract.NodeStates prefix_leaf * graph.RefMap) :=
  match prefix with
  | PStateSharding s =>
      '(graphdef, states, m') ← graph.flatten ctx h x (Some (filters s)) m;
      Some (extract.from_split graphdef states prefix, m')
  | POther _ =>
      '(graphdef, states, m') ← graph.flatten (Filter := Filter) ctx h x None m;
      Some (extract.from_split graphdef states (POther None), m')
  end.

(** [_jit_merge_fn], lines 101-104. *)
Definition _jit_merge_fn (ctx : graph.MergeContext) (path : PathParts)
    (prefix : prefix_leaf) (leaf : extract.pleaf prefix_leaf)
    (s : heap * graph.RefMap) : result (ref * (heap * graph.RefMap)) :=
  match leaf with
  | extract.PStates leaf =>
      match graph.unflatten ctx (extract.graphdef leaf) (extract.states leaf) s with
      | Some out => Ret out
      | None => Raise (OtherError "unflatten")
      end
  | _ =>
      Raise (ValueError ("Expected TreeNode, got " +:+ repr (type_of leaf)
                           +:+ " at path " +:+ repr path))
  end.

(** The function under [jit]: from the arguments and the keyword
    arguments it computes its result, and may mutate the graph nodes. *)
Definition pyfun : Type :=
  pytree jleaf → pytree jleaf → heap → option (pytree jleaf * heap).

(** [JitFn], lines 107-136. *)
Record JitFn : Type := {
  f : pyfun;
  jf_in_shardings : pytree prefix_leaf;
  jf_out_shardings : pytree prefix_leaf;
  jf_kwarg_shardings : pytree prefix_leaf;
}.

Definition JitFn__call__ (self : JitFn) (pure_args pure_kwargs : pytree (extract.pleaf prefix_leaf))
    (h : heap) (ctxtag : graph.UpdateContext)
    : option (pytree (extract.pleaf prefix_leaf) * pytree (extract.pleaf prefix_leaf)
              * pytree (extract.pleaf prefix_leaf) * heap * graph.UpdateContext) :=
  '(args_kwargs, h, ctxtag) ←
    extract.from_tree (tuple2 pure_args pure_kwargs) _jit_merge_fn true h ctxtag;
  '(args, kwargs) ← untuple2 args_kwargs;
  '(out, h) ← f self args kwargs h;
  '(args_out, kwargs_out) ← untuple2 (extract.clear_non_graph_nodes (tuple2 args kwargs));
  '(pure, ctxtag) ←
    extract.to_tree (tuple3 args_out kwargs_out out)
      (tuple3 (jf_in_shardings self) (jf_kwarg_shardings self) (jf_out_shardings self))
      _jit_split_fn h ctxtag;
  '(pure_args_out, pure_kwargs_out, pure_out) ← untuple3 pure;
  Some (pure_args_out, pure_kwargs_out, pure_out, h, ctxtag).

(** [JitWrapped], lines 337-435.  [jax.jit] runs the function it is
    given on the pure trees; its other options do not change the result. *)
Record JitWrapped : Type := {
  jitted_fn : JitFn;
  in_shardings : pytree prefix_leaf;
  out_shardings : pytree prefix_leaf;
  kwarg_shardings : pytree prefix_leaf;
}.

Definition JitWrapped__init__ (fun_ : pyfun) (in_shardings out_shardings : pytree prefix_leaf)
    : JitWrapped :=
  let kwarg_shardings := py_None in
  {| jitted_fn := {| f := fun_; jf_in_shardings := in_shardings;
                     jf_out_shardings := out_shardings;
                     jf_kwarg_shardings := kwarg_shardings |};
     in_shardings := in_shardings;
     out_shardings := out_shardings;
     kwarg_shardings := kwarg_shardings |}.

(** [jit(fun, in_shardings=..., out_shardings=...)], line 321. *)
Definition jit (fun_ : pyfun) (in_shardings out_shardings : pytree prefix_leaf)
    : JitWrapped :=
  JitWrapped__init__ fun_ in_shardings out_shardings.

(** [_get_pure_args_kwargs], lines 405-416. *)
Definition _get_pure_args_kwargs (self : JitWrapped) (args kwargs : pytree jleaf)
    (h : heap) (ctxtag : graph.UpdateContext)
    : option (pytree (extract.pleaf prefix_leaf) * pytree (extract.pleaf prefix_leaf)
              * graph.UpdateContext) :=
  '(pure, ctxtag) ←
    extract.to_tree (tuple2 args kwargs)
      (if negb (is_None (in_shardings self)) || negb (is_None (kwarg_shardings self))
       then tuple2 (in_shardings self) (kwarg_shardings self)
       else py_None)
      _jit_split_fn h ctxtag;
  '(pure_args, pure_kwargs) ← untuple2 pure;
  Some (pure_args, pure_kwargs, ctxtag).

(** [_get_non_pure_out], lines 418-425. *)
Definition _get_non_pure_out (self : JitWrapped)
    (pure_args_out pure_kwargs_out pure_out : pytree (extract.pleaf prefix_leaf))
    (h : heap) (ctxtag : graph.UpdateContext) : option (pytree jleaf * heap) :=
  '(outs, h, _) ←
    extract.from_tree (tuple3 pure_args_out pure_kwargs_out pure_out)
      _jit_merge_fn false h ctxtag;
  '(_args_out, _kwargs_out, out) ← untuple3 outs;
  Some (out, h).

(** [__call__], lines 427-435. *)
Definition JitWrapped__call__ (self : JitWrapped) (args kwargs : pytree jleaf)
    (h : heap) : option (pytree jleaf * heap) :=
  let ctxtag := graph.update_context in
  '(pure_args, pure_kwargs, ctxtag) ← _get_pure_args_kwargs self args kwargs h ctxtag;
  '(pure_args_out, pure_kwargs_out, pure_out, h, ctxtag) ←
    JitFn__call__ (jitted_fn self) pure_args pure_kwargs h ctxtag;
  '(out, h) ← _get_non_pure_out self pure_args_out pure_kwargs_out pure_out h ctxtag;
  Some (out, h).
End Jit.

Arguments prefix_leaf : clear implicits.
Arguments JitFn : clear implicits.
Arguments JitWrapped : clear implicits.

(** ** [compilation.py]: the staged objects, lines 480-723 *)

(** A Python value an accessor can answer with. *)
Inductive pyval : Type :=
| PyNone
| PyStr (s : string)
| PyObj (name : string)
| PyExc (e : exn).

(** [raise v]: an exception is raised; anything else is a [TypeError]. *)
Definition py_raise {A : Type} (v : pyval) : result A :=
  match v with
  | PyExc e => Raise e
  | _ => Raise (TypeError "exceptions must derive from BaseException")
  end.

Definition result_bind {A B : Type} (x : result A) (k : A → result B) : result B :=
  match x with
  | Ret a => k a
  | Raise e => Raise e
  end.

(** The artifacts of [jax.stages], an interface: what each accessor of the
    artifact answers (a value, [None], or an exception). *)
Module jax_stages.
Record Compiled : Type := {
  c_args_info : result pyval;
  c_as_text : result pyval;
  c_cost_analysis : result pyval;
  c_memory_analysis : result pyval;
  c_runtime_executable : result pyval;
}.

Record Lowered : Type := {
  l_args_info : result pyval;
  l_as_text : option string → bool → result pyval;
  l_compiler_ir : option string → result pyval;
  l_cost_analysis : result pyval;
}.
End jax_stages.

Module Compiled.
Record t : Type := { compiled : jax_stages.Compiled }.

(** lines 516-518: [raise self.compiled.args_info] *)
Definition args_info (self : t) : result pyval :=
  result_bind (jax_stages.c_args_info (compiled self)) py_raise.

Definition as_text (self : t) : result pyval :=
  jax_stages.c_as_text (compiled self).

Definition cost_analysis (self : t) : result pyval :=
  jax_stages.c_cost_analysis (compiled self).

Definition memory_analysis (self : t) : result pyval :=
  jax_stages.c_memory_analysis (compiled self).

Definition runtime_executable (self : t) : result pyval :=
  jax_stages.c_runtime_executable (compiled self).
End Compiled.

Module Lowered.
Record t : Type := { lowered : jax_stages.Lowered }.

(** lines 623-625: [return self.lowered.args_info] *)
Definition args_info (self : t) : result pyval :=
  jax_stages.l_args_info (lowered self).

Definition as_text (self : t) (dialect : option string) (debug_info : bool)
    : result pyval :=
  jax_stages.l_as_text (lowered self) dialect debug_info.

Definition compiler_ir (self : t) (dialect : option string) : result pyval :=
  jax_stages.l_compiler_ir (lowered self) dialect.

Definition cost_analysis (self : t) : result pyval :=
  jax_stages.l_cost_analysis (lowered self).
End Lowered.

(** ** Instances of the interfaces, for the examples *)

(** A Variable class used as a filter ([nnx.Param]) selects the Variables of
    that class. *)
Definition type_filter : FilterLib VarType VariableState :=
  λ ty _ v, bool_decide (var_type v = ty).

Definition path_repr : Repr PathParts :=
  λ p, "(" +:+ String.concat ", " p +:+ ")".

Definition variable_repr : Repr VariableState :=
  λ v, match var_type v with
       | Param => "Param(...)"
       | OptState => "OptState(...)"
       | OptArray => "OptArray(...)"
       | OptVariable => "OptVariable(...)"
       | OtherVariable name => name +:+ "(...)"
       end.

Definition pytype_repr : Repr pytype :=
  λ t, match t with
       | TyArray => "<class 'jax.Array'>"
       | TyNodeStates => "<class 'flax.nnx.extract.NodeStates'>"
       end.

Definition compiled0 : Compiled.t :=
  {| Compiled.compiled :=
       {| jax_stages.c_args_info := Ret (PyObj "ArgInfo");
          jax_stages.c_as_text := Ret (PyStr "HloModule jit_f");
          jax_stages.c_cost_analysis := Ret PyNone;
          jax_stages.c_memory_analysis := Ret PyNone;
          jax_stages.c_runtime_executable := Ret PyNone |} |}.

Definition lowered0 : Lowered.t :=
  {| Lowered.lowered :=
       {| jax_stages.l_args_info := Ret (PyObj "ArgInfo");
          jax_stages.l_as_text := λ _ _, Ret (PyStr "module @jit_f");
          jax_stages.l_compiler_ir := λ _, Ret PyNone;
          jax_stages.l_cost_analysis := Ret PyNone |} |}.

(** Gradient transformations: plain descent ([optax.sgd(1.0)]), descent
    with decayed weights ([optax.chain(optax.add_decayed_weights(1.0),
    optax.scale(-1.0))]), and descent with a trace of the gradients
    ([optax.chain(optax.trace(1.0), optax.scale(-1.0))]). *)
Definition neg_tree (t : pytree array) : pytree array := tree_map Z.opp t.

Definition zeros_like (x : vleaf) : vleaf :=
  match x with
  | VArr _ => VArr 0
  | VVar v => VVar (set_raw_value v 0)
  end.

Definition sgd : optax.GradientTransformation :=
  {| optax.init := λ _, PNode "EmptyState" [];
     optax.update := λ g s _ _, Some (neg_tree g, s) |}.

Definition decay : optax.GradientTransformation :=
  {| optax.init := λ _, PNode "EmptyState" [];
     optax.update := λ g s p _,
       t ← optax.apply_updates g p; Some (neg_tree t, s) |}.

Definition trace : optax.GradientTransformation :=
  {| optax.init := λ p, PNode "TraceState" [("trace", tree_map zeros_like p)];
     optax.update := λ g s _ _,
       match s with
       | PNode k [(key, tr)] =>
           t ← optax.apply_updates tr g; Some (neg_tree t, PNode k [(key, t)])
       | _ => None
       end |}.

(** A model with one trainable Variable and one that is not. *)
Definition σS : store :=
  <[0%nat := mkVariable Param 5 {["sharding" := "x"]}]>
    (<[1%nat := mkVariable (OtherVariable "BatchStat") 9 ∅]> ∅).

Definition modelS : pytree ref :=
  PNode "Model" [("w", PLeaf 0%nat); ("stat", PLeaf 1%nat)].

Definition gradsS : pytree obj := PNode "State" [("w", PLeaf (OArr 1))].

Definition zero_gradsS : pytree obj := PNode "State" [("w", PLeaf (OArr 0))].

(** The optimizer of [modelS] with plain descent, as [Optimizer.__init__]
    builds it in the store [σS]. *)
Definition optS : Optimizer.t VarType :=
  {| Optimizer.step := 2%nat; Optimizer.model := modelS; Optimizer.tx := sgd;
     Optimizer.opt_state := PNode "EmptyState" []; Optimizer.wrt := Param |}.

Definition σS1 : store := <[2%nat := mkVariable OptState 0 ∅]> σS.

(** The stores that optimizer runs in: the three Variables, of their
    classes, with any values. *)
Definition storeS (σ : store) : Prop :=
  ∃ a0 a1 n,
    σ !! 0%nat = Some (mkVariable Param a0 {["sharding" := "x"]})
    ∧ σ !! 1%nat = Some (mkVariable (OtherVariable "BatchStat") a1 ∅)
    ∧ σ !! 2%nat = Some (mkVariable OptState n ∅).

(** Two updates of [optS] with the gradient 1, and where they end. *)
Definition callsS : list (pytree obj * list (string * pytree obj)) :=
  [(gradsS, []); (gradsS, [])].

Definition σS3 : store :=
  <[0%nat := mkVariable Param 3 {["sharding" := "x"]}]>
    (<[2%nat := mkVariable OptState 2 ∅]> σS).

(** One update of [optS] with the gradient 0. *)
Definition σSz : store := <[2%nat := mkVariable OptState 1 ∅]> σS.

(** The optimizer of [modelS] with decayed weights, and where one update
    with the gradient 0 ends. *)
Definition optD : Optimizer.t VarType :=
  {| Optimizer.step := 2%nat; Optimizer.model := modelS; Optimizer.tx := decay;
     Optimizer.opt_state := PNode "EmptyState" []; Optimizer.wrt := Param |}.

Definition σD2 : store :=
  <[0%nat := mkVariable Param 0 {["sharding" := "x"]}]>
    (<[2%nat := mkVariable OptState 1 ∅]> σS).

(** The optimizer of [modelS] with a trace, as [Optimizer.__init__] builds
    it, and where one update with the gradient 1 ends. *)
Definition optT : Optimizer.t VarType :=
  {| Optimizer.step := 2%nat; Optimizer.model := modelS; Optimizer.tx := trace;
     Optimizer.opt_state :=
       PNode "TraceState" [("trace", PNode "State" [("w", PLeaf 4%nat)])];
     Optimizer.wrt := Param |}.

Definition σT1 : store :=
  <[4%nat := mkVariable OptVariable 0 {["sharding" := "x"]}]>
    (<[3%nat := mkVariable Param 0 {["sharding" := "x"]}]>
       (<[2%nat := mkVariable OptState 0 ∅]> σS)).

Definition σT2 : store :=
  <[0%nat := mkVariable Param 4 {["sharding" := "x"]}]>
    (<[4%nat := mkVariable OptVariable 1 {["sharding" := "x"]}]>
       (<[2%nat := mkVariable OptState 1 ∅]> σT1)).

(** The same with a [PytreeOptimizer] on the state of the model. *)
Definition poptT : PytreeOptimizer.t :=
  {| PytreeOptimizer.tx := trace; PytreeOptimizer.step := 2%nat;
     PytreeOptimizer.opt_state :=
       PNode "TraceState" [("trace", PNode "State" [("w", PLeaf 4%nat)])] |}.

Definition paramsS : pytree ref := PNode "State" [("w", PLeaf 0%nat)].

Definition σP1 : store :=
  <[4%nat := mkVariable OptVariable 0 {["sharding" := "x"]}]>
    (<[3%nat := mkVariable Param 0 {["sharding" := "x"]}]>
       (<[2%nat := mkVariable OptArray 0 ∅]> σS)).

Definition σP2 : store :=
  <[0%nat := mkVariable Param 4 {["sharding" := "x"]}]>
    (<[4%nat := mkVariable OptVariable 1 {["sharding" := "x"]}]>
       (<[2%nat := mkVariable OptArray 1 ∅]> σP1)).

(** A state of a gradient transformation over the model's Variable. *)
Definition stateS : pytree obj :=
  PNode "ScaleByAdamState"
    [("count", PLeaf (OArr 0)); ("mu", PNode "State" [("w", PLeaf (OVar 0%nat))])].

(** Keyword arguments with a Variable in them. *)
Definition kwargsS : list (string * pytree obj) := [("value", PLeaf (OVar 1%nat))].

(** A call through [jit]: a layer passed twice, which the function
    increments in place and returns, with a layer made inside. *)
Definition heapJ : heap :=
  {[ 10%nat := {| node_type := "Linear";
                  node_state := {[ ["kernel"] := mkVariable Param 5 ∅;
                                   ["count"] := mkVariable (OtherVariable "Count") 0 ∅ ]} |} ]}.

Definition bump (n : GraphNode) : GraphNode :=
  {| node_type := node_type n;
     node_state := (λ v, set_raw_value v (raw_value v + 1)) <$> node_state n |}.

Definition bodyJ : pyfun := λ args kwargs h,
  match args with
  | PNode _ ((_, PLeaf (JNode r)) :: _) =>
      n ← h !! r;
      let h1 := <[r := bump n]> h in
      let r2 := fresh (dom h1) in
      let h2 := <[r2 := {| node_type := "New"; node_state := ∅ |}]> h1 in
      Some (PNode "tuple" [("0", PLeaf (JNode r)); ("1", PLeaf (JNode r2));
                           ("2", PLeaf (JNode r2)); ("3", PLeaf (JArr 42))], h2)
  | _ => None
  end.

Definition argsJ : pytree jleaf :=
  PNode "tuple" [("0", PLeaf (JNode 10%nat)); ("1", PLeaf (JNode 10%nat));
                 ("2", PLeaf (JArr 3))].

Definition kwargsJ : pytree jleaf := PNode "dict" [].

Definition shardingJ : StateSharding VarType string :=
  StateSharding_init [(Param, "x"); (OtherVariable "Count", "y")].

Definition jitJ : JitWrapped VarType string :=
  jit bodyJ
    (PNode "tuple" [("0", PLeaf (PStateSharding shardingJ));
                    ("1", PLeaf (PStateSharding shardingJ));
                    ("2", PLeaf (POther None))])
    py_None.

(** What the caller has after the call: the layer it passed, and a copy of
    the layer made inside; the objects [11] and [12] were the ones of the
    function. *)
Definition outJ : pytree jleaf :=
  PNode "tuple" [("0", PLeaf (JNode 10%nat)); ("1", PLeaf (JNode 13%nat));
                 ("2", PLeaf (JNode 13%nat)); ("3", PLeaf (JArr 42))].

Definition layerJ' : GraphNode :=
  {| node_type := "Linear";
     node_state := {[ ["kernel"] := mkVariable Param 6 ∅;
                      ["count"] := mkVariable (OtherVariable "Count") 1 ∅ ]} |}.

Definition heapJ' : heap :=
  {[ 10%nat := layerJ'; 11%nat := layerJ';
     12%nat := {| node_type := "New"; node_state := ∅ |};
     13%nat := {| node_type := "New"; node_state := ∅ |} ]}.

(** A function on arrays, for [jit]: the sum of its two arguments. *)
Definition addJ : pyfun := λ args kwargs h,
  match args with
  | PNode _ [(_, PLeaf (JArr a)); (_, PLeaf (JArr b))] => Some (PLeaf (JArr (a + b)), h)
  | _ => None
  end.

Definition args_addJ : pytree jleaf :=
  PNode "tuple" [("0", PLeaf (JArr 2)); ("1", PLeaf (JArr 3))].

(** The same call, in a heap with one more object. *)
Definition bystanderJ : GraphNode :=
  {| node_type := "Embed";
     node_state := {[ ["embedding"] := mkVariable Param 7 ∅ ]} |}.

Definition heapK : heap := <[7%nat := bystanderJ]> heapJ.

Definition heapK' : heap := <[7%nat := bystanderJ]> heapJ'.

(** ** Vocabulary of the statements *)

(** A leaf whose Variable, if it is one, is an object of the store. *)
Definition obj_closed (σ : store) (x : obj) : Prop :=
  match x with OVar r => r ∈ dom σ | OArr _ => True end.

(** What [_to_opt_state] makes of one leaf: a new Variable [r'], an
    [OptVariable] with the value and the metadata of the Variable, or an
    [OptArray] around the array. *)
Definition opt_leaf (σ σ' : store) (x : obj) (r' : ref) : Prop :=
  (r' ∉ dom σ) ∧
  match x with
  | OVar r =>
      ∃ v, σ !! r = Some v
           ∧ σ' !! r' = Some (mkVariable OptVariable (raw_value v) (_var_metadata v))
  | OArr a => σ' !! r' = Some (mkVariable OptArray a ∅)
  end.

(** [σ'] is [σ] after some Variables among [X] were assigned to: the same
    objects, of the same classes and metadata; outside [X] nothing
    changed. *)
Definition writes (X : gset ref) (σ σ' : store) : Prop :=
  ∀ r,
    match σ !! r with
    | Some v => ∃ a, σ' !! r = Some (set_raw_value v a) ∧ (r ∉ X → a = raw_value v)
    | None => σ' !! r = None
    end.

(** The Variables of a tree. *)
Definition refs (t : pytree ref) : gset ref := list_to_set (tree_leaves t).

(** [write_tree t st]: the values of [st] assigned to the Variables of [t],
    place by place ([jax.tree.map] of [_update_variable]). *)
Definition write_tree (t : pytree ref) (st : pytree array) (σ : store) : option store :=
  snd <$> tree_map2M PytreeOptimizer._update_variable t st σ.

(** [sub_tree s t]: [s] is [t] with some children left out, whatever the
    kinds of the containers. *)
Inductive sub_children (R : pytree ref → pytree ref → Prop)
    : list (string * pytree ref) → list (string * pytree ref) → Prop :=
| sub_nil : sub_children R [] []
| sub_skip c ss cs : sub_children R ss cs → sub_children R ss (c :: cs)
| sub_keep key s c ss cs :
    R s c → sub_children R ss cs → sub_children R ((key, s) :: ss) ((key, c) :: cs).

#[local] Unset Elimination Schemes.
Inductive sub_tree : pytree ref → pytree ref → Prop :=
| sub_leaf r : sub_tree (PLeaf r) (PLeaf r)
| sub_node k k' ss cs :
    sub_children sub_tree ss cs → sub_tree (PNode k ss) (PNode k' cs).
#[local] Set Elimination Schemes.

(** The value a Variable holds. *)
Definition holds (σ : store) (r : ref) (a : array) : Prop :=
  Variable_getitem r σ = Some a.

(** Calls of [update] one after the other. *)
Fixpoint Optimizer_updates {Filter : Type} `{!FilterLib Filter VariableState}
    (self : Optimizer.t Filter)
    (calls : list (pytree obj * list (string * pytree obj))) (σ : store) : option store :=
  match calls with
  | [] => Some σ
  | (grads, kwargs) :: calls =>
      '(_, σ') ← Optimizer.update self grads kwargs σ;
      Optimizer_updates self calls σ'
  end.

Fixpoint PytreeOptimizer_updates (self : PytreeOptimizer.t)
    (calls : list (pytree ref * pytree obj * list (string * pytree obj)))
    (σ : store) : option store :=
  match calls with
  | [] => Some σ
  | (params, grads, kwargs) :: calls =>
      '(_, σ') ← PytreeOptimizer.update self params grads kwargs σ;
      PytreeOptimizer_updates self calls σ'
  end.

(** A leaf of a tree of gradients that is zero. *)
Definition zero_leaf (σ : store) (x : obj) : Prop := nnx.pure_leaf σ x = Some 0.

(** [tx] answers gradients that are all zero with updates that are all
    zero. *)
Definition zero_preserving (tx : optax.GradientTransformation) : Prop :=
  ∀ c updates new_opt_state,
    tx_update tx c = Some (updates, new_opt_state) →
    Forall (λ g, g = 0) (tree_leaves (call_grads c)) →
    Forall (λ u, u = 0) (tree_leaves updates).

(** Two stores that are the same but for the class and the metadata of one
    Variable [s]. *)
Definition sim (s : ref) (σ σ' : store) : Prop :=
  ∀ r, if decide (r = s) then raw_value <$> σ !! r = raw_value <$> σ' !! r
       else σ !! r = σ' !! r.

(** ** The boundary-crossing protocol *)

(** An identity map is the same map in its two directions. *)
Definition RefMap_wf (m : graph.RefMap) : Prop :=
  ∀ r i, graph.ref_index m !! r = Some i ↔ graph.index_ref m !! i = Some r.

Definition RefMap_incl (m m' : graph.RefMap) : Prop :=
  graph.ref_index m ⊆ graph.ref_index m' ∧ graph.index_ref m ⊆ graph.index_ref m'.

(** What an extraction over the heap [h] made of a leaf: an array passes
    through; a graph node is its type, its state, the identity [m] gave
    it and the object of the calling scope it is a view of. *)
Definition extracted {Meta : Type} (h : heap) (outer_index : gmap ref nat)
    (m : graph.RefMap) (a : jleaf) (b : extract.pleaf Meta) : Prop :=
  match a with
  | JArr x => b = extract.PArr x
  | JNode r =>
      ∃ ns node, b = extract.PStates ns ∧ h !! r = Some node
        ∧ graph.gd_type (extract.graphdef ns) = node_type node
        ∧ graph.merge_states (extract.states ns) = node_state node
        ∧ graph.ref_index m !! r = Some (graph.gd_index (extract.graphdef ns))
        ∧ graph.gd_outer_index (extract.graphdef ns) = outer_index !! r
  end.

(** One step of an extraction, on its identity map. *)
Definition split_step (m m' : graph.RefMap) : Prop :=
  RefMap_wf m → RefMap_wf m' ∧ RefMap_incl m m'.

(** The reconstruction inside the pure function, over the heap [h] of the
    caller: every object it made is new, and is what [G] says of its
    identity. *)
Definition inner_inv (h : heap) (G : nat → GraphNode → Prop)
    (s : heap * graph.RefMap) : Prop :=
  RefMap_wf s.2 ∧ h ⊆ s.1
  ∧ ∀ i x, graph.index_ref s.2 !! i = Some x →
      (x ∉ dom h) ∧ ∃ node, s.1 !! x = Some node ∧ G i node.

Definition inner_step (h : heap) (G : nat → GraphNode → Prop)
    (s s' : heap * graph.RefMap) : Prop :=
  inner_inv h G s → inner_inv h G s' ∧ RefMap_incl s.2 s'.2.

(** The node that an extracted representation describes. *)
Definition described {Meta : Type} (ns : extract.NodeStates Meta) : GraphNode :=
  {| node_type := graph.gd_type (extract.graphdef ns);
     node_state := graph.merge_states (extract.states ns) |}.

(** The reconstruction in the calling scope: an object is as it was, or
    is new, or has taken a state that [T] allows it. *)
Definition outer_step (T : ref → State → Prop) (s s' : heap * graph.RefMap) : Prop :=
  ∀ r, s'.1 !! r = s.1 !! r ∨ s.1 !! r = None
       ∨ ∃ node, s'.1 !! r = Some node ∧ T r (node_state node).

(** The object inside the pure function that stands for the object [r] of
    the caller, by the two identity maps of the call. *)
Definition inner_ref (mo mi : graph.RefMap) (r : ref) : ref :=
  default r (i ← graph.ref_index mo !! r; graph.index_ref mi !! i).

(** An argument and what the function under [jit] gets for it. *)
Definition inner_leaf (ι : ref → ref) (a b : jleaf) : Prop :=
  match a with
  | JArr x => b = JArr x
  | JNode r => b = JNode (ι r)
  end.

(** An extracted representation whose node is what [G] says of its
    identity. *)
Definition describes {Meta : Type} (G : nat → GraphNode → Prop)
    (b : extract.pleaf Meta) : Prop :=
  match b with
  | extract.PStates ns => G (graph.gd_index (extract.graphdef ns)) (described ns)
  | extract.PArr _ => True
  end.

(** What the reconstruction inside the pure function made of a leaf. *)
Definition rebuilt {Meta : Type} (index_ref : gmap nat ref)
    (a : extract.pleaf Meta) (b : jleaf) : Prop :=
  match a with
  | extract.PArr x => b = JArr x
  | extract.PStates ns =>
      ∃ x, b = JNode x ∧ index_ref !! graph.gd_index (extract.graphdef ns) = Some x
  end.

(** An extracted representation that names an object of the calling scope
    carries a state that [T] allows this object. *)
Definition allowed {Meta : Type} (T : ref → State → Prop) (index_ref : gmap nat ref)
    (b : extract.pleaf Meta) : Prop :=
  match b with
  | extract.PStates ns =>
      ∀ oi r, graph.gd_outer_index (extract.graphdef ns) = Some oi →
        index_ref !! oi = Some r → T r (graph.merge_states (extract.states ns))
  | extract.PArr _ => True
  end.

(** What the reconstruction in the calling scope made of a leaf that names
    an object of this scope: this object, with a state that [T] allows. *)
Definition reconciled {Meta : Type} (T : ref → State → Prop) (index_ref : gmap nat ref)
    (h' : heap) (a : extract.pleaf Meta) (b : jleaf) : Prop :=
  match a with
  | extract.PArr x => b = JArr x
  | extract.PStates ns =>
      ∀ oi, graph.gd_outer_index (extract.graphdef ns) = Some oi →
        ∃ r node, index_ref !! oi = Some r ∧ b = JNode r
          ∧ h' !! r = Some node ∧ T r (node_state node)
  end.

(** ** Traversals *)

(** The call of [f] on one leaf of a traversal, somewhere between the
    states [s0] and [s']; [step] orders the states. *)
Definition leaf_run {A B S : Type} (f : A → S → option (B * S)) (step : S → S → Prop)
    (s0 s' : S) (a : A) (b : B) : Prop :=
  ∃ s1 s2, step s0 s1 ∧ f a s1 = Some (b, s2) ∧ step s2 s'.

(** * More of the two files *)

(** ** [StateSharding]: [__repr__], [__eq__], [__hash__] (lines 80-91) *)

Section StateSharding_dunder.
Context {Filter Sharding : Type}.
Context `{!EqDecision Filter} `{!EqDecision Sharding}.

(** [d[k] = v] on a Python dict, which keeps the order of insertion: a key
    that is there keeps its place and takes the new value. *)
Fixpoint dict_set (k : Filter) (v : Sharding) (d : list (Filter * Sharding))
    : list (Filter * Sharding) :=
  match d with
  | [] => [(k, v)]
  | (k', v') :: d =>
      if decide (k = k') then (k', v) :: d else (k', v') :: dict_set k v d
  end.

(** [dict(items)] *)
Definition dict (items : list (Filter * Sharding)) : list (Filter * Sharding) :=
  foldl (λ d kv, dict_set kv.1 kv.2 d) [] items.

(** [__repr__], lines 80-81; how a dict prints is an interface. *)
Definition StateSharding__repr__ `{!Repr (list (Filter * Sharding))}
    (self : StateSharding Filter Sharding) : string :=
  "StateSharding(" +:+ repr (dict (zip (filters self) (shardings self))) +:+ ")".

(** What the other operand of [==] can be. *)
Inductive eq_operand (Other : Type) : Type :=
| IsStateSharding (other : StateSharding Filter Sharding)
| NotStateSharding (other : Other).

(** [__eq__], lines 83-88; [==] on the two tuples is the equality of
    their elements, in order. *)
Definition StateSharding__eq__ {Other : Type} (self : StateSharding Filter Sharding)
    (other : eq_operand Other) : bool :=
  match other with
  | IsStateSharding _ other =>
      bool_decide (filters self = filters other)
      && bool_decide (shardings self = shardings other)
  | NotStateSharding _ _ => false
  end.

(** [__hash__], lines 90-91, over Python's [hash] of a pair of tuples. *)
Definition StateSharding__hash__ (hash : list Filter * list Sharding → Z)
    (self : StateSharding Filter Sharding) : Z :=
  hash (filters self, shardings self).
End StateSharding_dunder.

Arguments IsStateSharding {Filter Sharding Other} other.
Arguments NotStateSharding {Filter Sharding Other} other.

(** ** Vocabulary of the statements about the optimizers *)

(** What stands in [opt_state] for a leaf of what [tx.init] returned: an
    [OptVariable] with the value and the metadata of a Variable, an
    [OptArray] around an array. *)
Definition init_leaf (σ : store) (x : vleaf) (r : ref) : Prop :=
  match x with
  | VArr a => σ !! r = Some (mkVariable OptArray a ∅)
  | VVar v => σ !! r = Some (mkVariable OptVariable (raw_value v) (_var_metadata v))
  end.

(** What [to_opt_state], applied twice, leaves for a leaf of the tree it
    was first given: an [OptVariable] with the value of the leaf, and its
    metadata if it was a Variable. *)
Definition opt_leaf_twice (σ σ' : store) (x : obj) (r : ref) : Prop :=
  match x with
  | OArr a => σ' !! r = Some (mkVariable OptVariable a ∅)
  | OVar r0 =>
      ∃ v, σ !! r0 = Some v
           ∧ σ' !! r = Some (mkVariable OptVariable (raw_value v) (_var_metadata v))
  end.

(** ** Vocabulary of the statements about [jit] *)

(** A tree of arguments or results without graph nodes. *)
Definition no_nodes (t : pytree jleaf) : Prop :=
  ∀ r, JNode r ∉ tree_leaves t.

(** What stands for an array in a pure tree. *)
Definition pure_leaf_of {Meta : Type} (x : jleaf) : extract.pleaf Meta :=
  match x with
  | JArr a => extract.PArr a
  | JNode _ => extract.PArr 0
  end.

(** A function that changes no graph node but those among its arguments
    and keyword arguments (it may make new ones). *)
Definition only_touches_arguments (fn : pyfun) : Prop :=
  ∀ args kwargs (h : heap) out h',
    fn args kwargs h = Some (out, h') →
    ∀ r, r ∈ dom h → JNode r ∉ tree_leaves (tuple2 args kwargs) → h' !! r = h !! r.

(** One step of an extraction: the nodes that got an identity are nodes
    among [X]. *)
Definition split_dom_step (X : ref → Prop) (m m' : graph.RefMap) : Prop :=
  ∀ r, is_Some (graph.ref_index m' !! r) → is_Some (graph.ref_index m !! r) ∨ X r.

(** [i] is the identity that the extraction inside the function gave to
    [x], a node that stands for no object of the calling scope. *)
Definition new_index (mi md : graph.RefMap) (i : nat) (x : ref) : Prop :=
  graph.ref_index md !! x = Some i ∧ graph.ref_index mi !! x = None.

(** The reconstruction in the calling scope, over the heap [ho] that the
    function left: the objects it has made for such nodes are new, one for
    each node, and hold what the node holds. *)
Definition outer_new_inv (mi md : graph.RefMap) (ho : heap)
    (s : heap * graph.RefMap) : Prop :=
  dom ho ⊆ dom s.1
  ∧ (∀ i r, graph.index_ref s.2 !! i = Some r → r ∈ dom s.1)
  ∧ (∀ i x r, new_index mi md i x → graph.index_ref s.2 !! i = Some r →
       (r ∉ dom ho) ∧ s.1 !! r = ho !! x)
  ∧ (∀ i x i' x' r, new_index mi md i x → new_index mi md i' x' →
       graph.index_ref s.2 !! i = Some r → graph.index_ref s.2 !! i' = Some r → i = i').

Definition outer_new_step (mi md : graph.RefMap) (ho : heap)
    (s s' : heap * graph.RefMap) : Prop :=
  outer_new_inv mi md ho s →
  outer_new_inv mi md ho s'
  ∧ ∀ i x r, new_index mi md i x → graph.index_ref s.2 !! i = Some r →
      graph.index_ref s'.2 !! i = Some r.

(** An extracted representation made of the node [x] of the heap [ho]. *)
Definition extracted_from {Meta : Type} (mi md : graph.RefMap) (ho : heap)
    (b : extract.pleaf Meta) : Prop :=
  match b with
  | extract.PArr _ => True
  | extract.PStates ns =>
      ∃ x, ho !! x = Some (described ns)
        ∧ graph.ref_index md !! x = Some (graph.gd_index (extract.graphdef ns))
        ∧ graph.gd_outer_index (extract.graphdef ns) = graph.ref_index mi !! x
  end.

(** What the reconstruction in the calling scope made of a leaf that names
    no object of this scope. *)
Definition rebuilt_new {Meta : Type} (index_ref : gmap nat ref)
    (a : extract.pleaf Meta) (b : jleaf) : Prop :=
  match a with
  | extract.PArr x => b = JArr x
  | extract.PStates ns =>
      graph.gd_outer_index (extract.graphdef ns) = None →
      ∃ r, b = JNode r ∧ index_ref !! graph.gd_index (extract.graphdef ns) = Some r
  end.

(** The object of the calling scope made for the node [x] that the
    function returned, by the identity maps. *)
Definition outer_ref (md m : graph.RefMap) (x : ref) : ref :=
  default x (i ← graph.ref_index md !! x; graph.index_ref m !! i).

(** * Properties *)

(** ** Trees *)

Section pytree_ind.
Context {A : Type} (P : pytree A → Prop).
Hypothesis Hleaf : ∀ a, P (PLeaf a).
Hypothesis Hnode : ∀ k cs, Forall (λ c, P c.2) cs → P (PNode k cs).

Fixpoint pytree_induction (t : pytree A) : P t :=
  match t with
  | PLeaf a => Hleaf a
  | PNode k cs =>
      Hnode k cs
        ((fix go cs : Forall (λ c, P c.2) cs :=
            match cs with
            | [] => Forall_nil_2 _
            | c :: cs => Forall_cons_2 _ _ _ (pytree_induction c.2) (go cs)
            end) cs)
  end.
End pytree_ind.

Lemma all_children_Forall {A : Type} (P : pytree A → Prop) cs :
  all_children P cs ↔ Forall (λ c, P c.2) cs.
Proof.
  induction cs as [|c cs IH]; simpl.
  - split; [constructor | done].
  - rewrite Forall_cons, IH. done.
Qed.

Lemma assoc_map {B C : Type} (g : B → C) k (cs : list (string * B)) :
  assoc k (map (λ c, (c.1, g c.2)) cs) = g <$> assoc k cs.
Proof.
  induction cs as [|[k' b] cs IH]; simpl; [done|].
  destruct (decide (k = k')); done.
Qed.

Lemma assoc_Forall2 {B C : Type} (R : B → C → Prop) k cs ds b :
  Forall2 (λ c d, c.1 = d.1 ∧ R c.2 d.2) cs ds →
  assoc k cs = Some b →
  ∃ d, assoc k ds = Some d ∧ R b d.
Proof.
  induction 1 as [|[k1 c] [k2 d] cs ds [Hk HR] _ IH]; simpl in *; [done|].
  subst k2. destruct (decide (k = k1)); [|done].
  intros [= <-]. eauto.
Qed.

Lemma assoc_elem_of {B : Type} k (cs : list (string * B)) b :
  NoDup (map fst cs) → (k, b) ∈ cs → assoc k cs = Some b.
Proof.
  induction cs as [|[k' b'] cs IH]; simpl; intros Hnd Hin.
  - by apply elem_of_nil in Hin.
  - apply NoDup_cons in Hnd as [Hk Hnd].
    apply elem_of_cons in Hin as [[= <- <-]|Hin].
    + by rewrite decide_True.
    + rewrite decide_False; [by apply IH|].
      intros <-. apply Hk. apply list_elem_of_fmap. by exists (k, b).
Qed.

Lemma tree_rel_impl {A B : Type} (R R' : A → B → Prop) t t' :
  (∀ a b, R a b → R' a b) → tree_rel R t t' → tree_rel R' t t'.
Proof.
  intros HR. revert t'. induction t as [a|k cs IH] using pytree_induction; intros t' H; inversion H; subst.
  - constructor. by apply HR.
  - constructor. revert IH. clear H.
    match goal with H : Forall2 _ cs ds |- _ => induction H as [|c d cs ds [Hk Hr] _ IHl] end.
    + constructor.
    + intros [Hc Hcs]%Forall_cons. constructor; [split; [done|by apply Hc] | by apply IHl].
Qed.

Lemma tree_rel_leaves {A B : Type} (R : A → B → Prop) t t' :
  tree_rel R t t' → Forall2 R (tree_leaves t) (tree_leaves t').
Proof.
  revert t'. induction t as [a|k cs IH] using pytree_induction; intros t' H; inversion H; subst; simpl.
  - by repeat constructor.
  - revert IH. clear H.
    match goal with H : Forall2 _ cs ds |- _ => induction H as [|c d cs ds [Hk Hr] _ IHl] end.
    + constructor.
    + intros [Hc Hcs]%Forall_cons. simpl. apply Forall2_app; [by apply Hc | by apply IHl].
Qed.

Lemma tree_rel_shape {A B : Type} (R : A → B → Prop) t t' :
  tree_rel R t t' → tree_shape t = tree_shape t'.
Proof.
  unfold tree_shape.
  revert t'. induction t as [a|k cs IH] using pytree_induction; intros t' H; inversion H; subst; simpl.
  - done.
  - f_equal. revert IH. clear H.
    match goal with H : Forall2 _ cs ds |- _ => induction H as [|c d cs ds [Hk Hr] _ IHl] end.
    + done.
    + intros [Hc Hcs]%Forall_cons. simpl. rewrite Hk. f_equal; [f_equal; by apply Hc | by apply IHl].
Qed.

Lemma tree_rel_at {A B : Type} (R : A → B → Prop) t t' p s :
  tree_rel R t t' → tree_at t p = Some s →
  ∃ s', tree_at t' p = Some s' ∧ tree_rel R s s'.
Proof.
  revert t t'. induction p as [|k p IH]; intros t t' H; simpl.
  - intros [= <-]. eauto.
  - inversion H as [|k0 cs ds Hcs]; subst; [done|].
    destruct (assoc k cs) as [c|] eqn:Hc; [|done].
    intros Hat.
    destruct (assoc_Forall2 (tree_rel R) k cs ds c Hcs Hc) as (d & -> & Hd).
    by eapply IH.
Qed.

Lemma tree_rel_at_leaf {A B : Type} (R : A → B → Prop) t t' p a :
  tree_rel R t t' → tree_at t p = Some (PLeaf a) →
  ∃ b, tree_at t' p = Some (PLeaf b) ∧ R a b.
Proof.
  intros H Hat. destruct (tree_rel_at R t t' p _ H Hat) as (s' & Hs' & Hr).
  inversion Hr; subst. eauto.
Qed.

Lemma tree_mapO_rel {A B : Type} (f : A → option B) t t' :
  tree_mapO f t = Some t' → tree_rel (λ a b, f a = Some b) t t'.
Proof.
  revert t'. induction t as [a|k cs IH] using pytree_induction; intros t'; simpl.
  - destruct (f a) eqn:Hf; [|done]. intros [= <-]. by constructor.
  - destruct (mapM _ cs) as [ds|] eqn:Hm; [|done]. intros [= <-].
    constructor. apply mapM_Some in Hm.
    induction Hm as [|c d cs ds Hcd _ IHl]; [constructor|].
    apply Forall_cons in IH as [Hc Hcs].
    destruct (tree_mapO f c.2) eqn:Hc2; [|done]. injection Hcd as <-.
    constructor; [split; [done|by apply Hc] | by apply IHl].
Qed.

Lemma tree_mapO_is_Some {A B : Type} (f : A → option B) t :
  Forall (λ a, is_Some (f a)) (tree_leaves t) → is_Some (tree_mapO f t).
Proof.
  induction t as [a|k cs IH] using pytree_induction; simpl.
  - intros [[b ->] _]%Forall_cons. by eexists.
  - intros Hl.
    assert (is_Some (mapM (λ c, pair c.1 <$> tree_mapO f c.2) cs)) as [ds ->]; [|by eexists].
    induction cs as [|c cs IHl]; [by eexists|].
    simpl in Hl. apply Forall_app in Hl as [Hl1 Hl2].
    apply Forall_cons in IH as [Hc Hcs].
    destruct (Hc Hl1) as [c' Hc']. destruct (IHl Hcs Hl2) as [ds Hds].
    simpl. rewrite Hc'. simpl. rewrite Hds. by eexists.
Qed.

Lemma tree_leaves_map {A B : Type} (g : A → B) t :
  tree_leaves (tree_map g t) = map g (tree_leaves t).
Proof.
  induction t as [a|k cs IH] using pytree_induction; simpl; [done|].
  induction cs as [|c cs IHl]; simpl; [done|].
  apply Forall_cons in IH as [Hc Hcs].
  rewrite map_app, Hc, IHl; done.
Qed.

Lemma tree_rel_map_l {A B : Type} (g : A → B) t :
  tree_rel (λ a b, b = g a) t (tree_map g t).
Proof.
  induction t as [a|k cs IH] using pytree_induction; simpl; constructor; [done|].
  induction cs as [|c cs IHl]; simpl; [constructor|].
  apply Forall_cons in IH as [Hc Hcs]. constructor; [done | by apply IHl].
Qed.

(** ** Traversals *)

Section tree_mapM_spec.
Context {A B S : Type} (f : A → S → option (B * S)).
Context (Q : A → Prop) (step : S → S → Prop) `{!PreOrder step}.
Hypothesis f_step : ∀ a s b s', Q a → f a s = Some (b, s') → step s s'.

Lemma leaf_run_mono s0 s1 s2 s3 a b :
  step s0 s1 → step s2 s3 → leaf_run f step s1 s2 a b → leaf_run f step s0 s3 a b.
Proof.
  intros H01 H23 (u & v & Hu & Hf & Hv).
  exists u, v. split; [by etrans|]. split; [done|by etrans].
Qed.

Lemma tree_mapM_spec t s t' s' :
  Forall Q (tree_leaves t) →
  tree_mapM f t s = Some (t', s') →
  step s s' ∧ tree_rel (leaf_run f step s s') t t'.
Proof.
  revert s t' s'. induction t as [a|k cs IH] using pytree_induction; intros s t' s' HQ; simpl.
  - destruct (f a s) as [[b s1]|] eqn:Hf; [|done]. intros [= <- <-].
    apply Forall_cons in HQ as [HQ _].
    split; [by eapply f_step|]. constructor. by exists s, s1.
  - destruct (childrenM _ cs s) as [[ds s1]|] eqn:Hc; [|done]. intros [= <- <-].
    cut (step s s1 ∧ Forall2 (λ c d, c.1 = d.1 ∧ tree_rel (leaf_run f step s s1) c.2 d.2) cs ds).
    { intros [? ?]. split; [done|by constructor]. }
    simpl in HQ. clear k. revert s ds s1 Hc HQ.
    induction cs as [|[key c] cs IHl]; intros s ds s1; simpl.
    + intros [= <- <-] _. split; [done|constructor].
    + apply Forall_cons in IH as [Hc Hcs]. simpl in Hc.
      destruct (tree_mapM f c s) as [[c' u]|] eqn:Hcu; [|done]. simpl.
      destruct (childrenM _ cs u) as [[cs' v]|] eqn:Hcs'; [|done]. simpl.
      intros [= <- <-] [HQ1 HQ2]%Forall_app.
      destruct (Hc _ _ _ HQ1 Hcu) as [Hsu Hrel].
      destruct (IHl Hcs _ _ _ Hcs' HQ2) as [Huv Hrels].
      split; [by etrans|]. constructor.
      * split; [done|]. simpl. eapply tree_rel_impl; [|done].
        intros a b. by apply leaf_run_mono.
      * eapply Forall2_impl; [done|]. intros x y [? ?]. split; [done|].
        eapply tree_rel_impl; [|done]. intros a b. by apply leaf_run_mono.
Qed.

Context (Pre : A → S → Prop).
Hypothesis Pre_step : ∀ a s s', Pre a s → step s s' → Pre a s'.
Hypothesis Pre_Q : ∀ a s, Pre a s → Q a.
Hypothesis f_total : ∀ a s, Pre a s → is_Some (f a s).

Lemma tree_mapM_total t s :
  Forall (λ a, Pre a s) (tree_leaves t) → is_Some (tree_mapM f t s).
Proof.
  revert s. induction t as [a|k cs IH] using pytree_induction; intros s; simpl.
  - intros [Ha _]%Forall_cons. destruct (f_total a s Ha) as [[b s'] ->]. by eexists.
  - intros Hl.
    assert (is_Some (childrenM (tree_mapM f) cs s)) as [[ds s1] ->]; [|by eexists].
    revert s Hl. induction cs as [|[key c] cs IHl]; intros s Hl; simpl; [by eexists|].
    apply Forall_cons in IH as [Hc Hcs]. simpl in *.
    apply Forall_app in Hl as [Hl1 Hl2].
    destruct (Hc s Hl1) as [[c' u] Hcu]. rewrite Hcu. simpl.
    assert (step s u) as Hsu.
    { eapply tree_mapM_spec; [|done]. eapply Forall_impl; [done|]. simpl. eauto. }
    destruct (IHl Hcs u) as [[cs' v] ->]; [|by eexists].
    eapply Forall_impl; [done|]. simpl. eauto.
Qed.
End tree_mapM_spec.

Lemma leaves_mapM_app {A B S : Type} (f : A → S → option (B * S)) l1 l2 s :
  leaves_mapM f (l1 ++ l2)%list s
  = '(b1, s1) ← leaves_mapM f l1 s; '(b2, s2) ← leaves_mapM f l2 s1;
    Some ((b1 ++ b2)%list, s2).
Proof.
  revert s. induction l1 as [|a l1 IH]; intros s; simpl.
  - destruct (leaves_mapM f l2 s) as [[b2 s2]|]; done.
  - destruct (f a s) as [[b u]|]; [|done]. simpl. rewrite IH.
    destruct (leaves_mapM f l1 u) as [[b1 s1]|]; [|done]. simpl.
    destruct (leaves_mapM f l2 s1) as [[b2 s2]|]; done.
Qed.

(** A traversal of a tree is the traversal of its leaves. *)
Lemma tree_mapM_leaves {A B S : Type} (f : A → S → option (B * S)) t s t' s' :
  tree_mapM f t s = Some (t', s') →
  leaves_mapM f (tree_leaves t) s = Some (tree_leaves t', s').
Proof.
  revert s t' s'. induction t as [a|k cs IH] using pytree_induction; intros s t' s'; simpl.
  - destruct (f a s) as [[b s1]|]; [|done]. by intros [= <- <-].
  - destruct (childrenM _ cs s) as [[ds s1]|] eqn:Hc; [|done]. intros [= <- <-]. simpl.
    clear k. revert s ds s1 Hc.
    induction cs as [|[key c] cs IHl]; intros s ds s1; simpl.
    + by intros [= <- <-].
    + apply Forall_cons in IH as [Hc Hcs]. simpl in Hc.
      destruct (tree_mapM f c s) as [[c' u]|] eqn:Hcu; [|done]. simpl.
      destruct (childrenM _ cs u) as [[cs' v]|] eqn:Hcs'; [|done]. simpl.
      intros [= <- <-]. simpl. rewrite leaves_mapM_app.
      rewrite (Hc _ _ _ Hcu). simpl. by rewrite (IHl Hcs _ _ _ Hcs').
Qed.

Lemma tree_mapM_shape {A B S : Type} (f : A → S → option (B * S)) t s t' s' :
  tree_mapM f t s = Some (t', s') → tree_shape t' = tree_shape t.
Proof.
  intros H.
  assert (PreOrder (λ _ _ : S, True)) as Hpre by (split; done).
  eapply (tree_mapM_spec f (λ _, True) (λ _ _, True)) in H as [_ Hr].
  - symmetry. by eapply tree_rel_shape.
  - done.
  - by apply Forall_forall.
Qed.

Lemma tree_rel_impl_strong {A B : Type} (R R' : A → B → Prop) t t' :
  (∀ a b, a ∈ tree_leaves t → R a b → R' a b) → tree_rel R t t' → tree_rel R' t t'.
Proof.
  revert t'. induction t as [a|k cs IH] using pytree_induction;
    intros t' HR H; inversion H as [|k0 cs0 ds Hcs]; subst.
  - constructor. apply HR; [by left|done].
  - constructor. clear H. simpl in HR.
    induction Hcs as [|c d cs ds [Hk Hr] _ IHl]; [constructor|].
    apply Forall_cons in IH as [Hc Hcs']. constructor.
    + split; [done|]. apply Hc; [|done].
      intros a b Ha. apply HR. simpl. apply elem_of_app. by left.
    + apply IHl; [done|]. intros a b Ha. apply HR. simpl. apply elem_of_app. by right.
Qed.

Lemma tree_rel_map_inv {A A' B : Type} (g : A → A') (R : A' → B → Prop) t t' :
  tree_rel R (tree_map g t) t' ↔ tree_rel (λ a b, R (g a) b) t t'.
Proof.
  revert t'. induction t as [a|k cs IH] using pytree_induction; intros t'; simpl.
  - split; intros H; inversion H; subst; by constructor.
  - split; intros H; inversion H as [|k0 cs0 ds Hcs]; subst; constructor; clear H.
    + revert ds Hcs. induction cs as [|c cs IHl]; intros ds Hcs; simpl in *.
      * inversion Hcs. constructor.
      * inversion Hcs as [|x d xs ds' [Hk Hr] Hrest]; subst.
        apply Forall_cons in IH as [Hc Hcs']. constructor.
        -- split; [done|]. by apply Hc.
        -- by apply IHl.
    + induction Hcs as [|c d cs ds [Hk Hr] _ IHl]; simpl; [constructor|].
      apply Forall_cons in IH as [Hc Hcs']. constructor.
      * split; [done|]. simpl. by apply Hc.
      * by apply IHl.
Qed.

Lemma tree_rel_compose {A B C : Type} (R : A → B → Prop) (R' : B → C → Prop) t1 t2 t3 :
  tree_rel R t1 t2 → tree_rel R' t2 t3 →
  tree_rel (λ a c, ∃ b, R a b ∧ R' b c) t1 t3.
Proof.
  revert t2 t3. induction t1 as [a|k cs IH] using pytree_induction;
    intros t2 t3 H12 H23; inversion H12 as [|k0 cs0 ds Hcs]; subst;
    inversion H23 as [|k1 ds0 es Hds]; subst.
  - constructor. eauto.
  - constructor. clear H12 H23. revert es Hds.
    induction Hcs as [|c d cs ds [Hk Hr] _ IHl]; intros es Hds.
    + inversion Hds. constructor.
    + inversion Hds as [|x e xs es' [Hk' Hr'] Hrest]; subst.
      apply Forall_cons in IH as [Hc Hcs']. constructor.
      * split; [congruence|]. by eapply Hc.
      * by apply IHl.
Qed.

Lemma tree_rel_flip {A B : Type} (R : A → B → Prop) t t' :
  tree_rel R t t' → tree_rel (λ b a, R a b) t' t.
Proof.
  revert t'. induction t as [a|k cs IH] using pytree_induction;
    intros t' H; inversion H as [|k0 cs0 ds Hcs]; subst; constructor; [done|].
  clear H. induction Hcs as [|c d cs ds [Hk Hr] _ IHl]; [constructor|].
  apply Forall_cons in IH as [Hc Hcs']. constructor; [|by apply IHl].
  split; [done|]. by apply Hc.
Qed.

Lemma tree_rel_eq {A : Type} (t t' : pytree A) : tree_rel eq t t' → t = t'.
Proof.
  revert t'. induction t as [a|k cs IH] using pytree_induction;
    intros t' H; inversion H as [|k0 cs0 ds Hcs]; subst; [done|].
  f_equal. clear H. induction Hcs as [|[k1 c] [k2 d] cs ds [Hk Hr] _ IHl]; [done|].
  apply Forall_cons in IH as [Hc Hcs']. simpl in *. subst k2.
  rewrite (Hc d Hr), (IHl Hcs'). done.
Qed.

Lemma tree_mapO_of_rel {A B : Type} (f : A → option B) t t' :
  tree_rel (λ a b, f a = Some b) t t' → tree_mapO f t = Some t'.
Proof.
  revert t'. induction t as [a|k cs IH] using pytree_induction;
    intros t' H; inversion H as [? ? Hf|k0 cs0 ds Hcs]; subst; simpl.
  - by rewrite Hf.
  - assert (mapM (λ c, pair c.1 <$> tree_mapO f c.2) cs = Some ds) as ->; [|done].
    apply mapM_Some. clear H.
    induction Hcs as [|[k1 c] [k2 d] cs ds [Hk Hr] _ IHl]; [constructor|].
    apply Forall_cons in IH as [Hc Hcs']. simpl in *. subst k2.
    constructor; [|by apply IHl]. simpl. by rewrite (Hc d Hr).
Qed.

Lemma tree_rel_wf_keys {A B : Type} (R : A → B → Prop) t t' :
  tree_rel R t t' → wf_keys t → wf_keys t'.
Proof.
  revert t'. induction t as [a|k cs IH] using pytree_induction;
    intros t' H; inversion H as [|k0 cs0 ds Hcs]; subst; [done|].
  simpl. intros [Hnd Hall]. apply all_children_Forall in Hall.
  split.
  - assert (map fst ds = map fst cs) as ->; [|done].
    clear -Hcs. induction Hcs as [|c d cs ds [Hk _] _ IHl]; simpl; [done|].
    by rewrite Hk, IHl.
  - apply all_children_Forall. clear H Hnd.
    induction Hcs as [|c d cs ds [Hk Hr] _ IHl]; [constructor|].
    apply Forall_cons in IH as [Hc Hcs']. apply Forall_cons in Hall as [Hw Hws].
    constructor; [by eapply Hc|by apply IHl].
Qed.

(** The result of a traversal of two trees has the structure of the first. *)
Lemma tree_map2M_shape {A B C S : Type} (f : A → pytree B → S → option (C * S))
    t1 t2 s out s' :
  tree_map2M f t1 t2 s = Some (out, s') → tree_rel (λ _ _, True) t1 out.
Proof.
  revert t2 s out s'. induction t1 as [a|k cs IH] using pytree_induction;
    intros t2 s out s'; simpl.
  - destruct (f a t2 s) as [[c s1]|]; simpl; [|done]. intros [= <- <-]. by constructor.
  - destruct t2 as [|k2 ds]; [done|].
    destruct (decide (k = k2)) as [<-|]; [|done].
    destruct (children2M _ cs ds s) as [[cs' s1]|] eqn:Hc; simpl; [|done].
    intros [= <- <-]. constructor. clear k. revert ds s cs' s1 Hc.
    induction cs as [|[key c] cs IHl]; intros ds s cs' s1; destruct ds as [|[key2 d] ds];
      simpl; try done.
    { intros [= <- <-]. constructor. }
    apply Forall_cons in IH as [Hc Hcs]. simpl in Hc.
    destruct (decide (key = key2)) as [<-|]; [|done].
    destruct (tree_map2M f c d s) as [[c' u]|] eqn:Hcu; simpl; [|done].
    destruct (children2M _ cs ds u) as [[cs2 v]|] eqn:Hcs2; simpl; [|done].
    intros [= <- <-]. constructor.
    + split; [done|]. simpl. by eapply Hc.
    + by eapply IHl.
Qed.

(** Two runs of a traversal from related states: when [f] keeps the
    relation and answers the same on the leaves, so does the traversal. *)
Section simulation.
Context {A B S : Type} (f : A → S → option (B * S)).
Context (Q : A → Prop) (R : S → S → Prop).
Hypothesis f_sim : ∀ a s1 s1' b s2,
  Q a → R s1 s1' → f a s1 = Some (b, s2) →
  ∃ s2', f a s1' = Some (b, s2') ∧ R s2 s2'.

Lemma tree_mapM_sim t s1 s1' t' s2 :
  Forall Q (tree_leaves t) → R s1 s1' →
  tree_mapM f t s1 = Some (t', s2) →
  ∃ s2', tree_mapM f t s1' = Some (t', s2') ∧ R s2 s2'.
Proof.
  revert s1 s1' t' s2. induction t as [a|k cs IH] using pytree_induction;
    intros s1 s1' t' s2 HQ HR; simpl.
  - destruct (f a s1) as [[b u]|] eqn:Hf; simpl; [|done]. intros [= <- <-].
    apply Forall_cons in HQ as [HQ _].
    destruct (f_sim _ _ _ _ _ HQ HR Hf) as (u' & -> & HR'). simpl. eauto.
  - destruct (childrenM _ cs s1) as [[ds u]|] eqn:Hc; simpl; [|done]. intros [= <- <-].
    cut (∃ u', childrenM (tree_mapM f) cs s1' = Some (ds, u') ∧ R u u').
    { intros (u' & -> & ?). simpl. eauto. }
    simpl in HQ. clear k. revert s1 s1' ds u Hc HQ HR.
    induction cs as [|[key c] cs IHl]; intros s1 s1' ds u; simpl.
    + intros [= <- <-] _ HR. eauto.
    + apply Forall_cons in IH as [Hc Hcs]. simpl in Hc.
      destruct (tree_mapM f c s1) as [[c' v]|] eqn:Hcv; simpl; [|done].
      destruct (childrenM _ cs v) as [[cs' w]|] eqn:Hcs'; simpl; [|done].
      intros [= <- <-] [HQ1 HQ2]%Forall_app HR.
      destruct (Hc _ _ _ _ HQ1 HR Hcv) as (v' & -> & HRv). simpl.
      destruct (IHl Hcs _ _ _ _ Hcs' HQ2 HRv) as (w' & -> & HRw). simpl. eauto.
Qed.
End simulation.

Section simulation2.
Context {A B C S : Type} (f : A → pytree B → S → option (C * S)).
Context (Q : A → Prop) (R : S → S → Prop).
Hypothesis f_sim : ∀ a b s1 s1' c s2,
  Q a → R s1 s1' → f a b s1 = Some (c, s2) →
  ∃ s2', f a b s1' = Some (c, s2') ∧ R s2 s2'.

Lemma tree_map2M_sim t1 t2 s1 s1' out s2 :
  Forall Q (tree_leaves t1) → R s1 s1' →
  tree_map2M f t1 t2 s1 = Some (out, s2) →
  ∃ s2', tree_map2M f t1 t2 s1' = Some (out, s2') ∧ R s2 s2'.
Proof.
  revert t2 s1 s1' out s2. induction t1 as [a|k cs IH] using pytree_induction;
    intros t2 s1 s1' out s2 HQ HR; simpl.
  - destruct (f a t2 s1) as [[c u]|] eqn:Hf; simpl; [|done]. intros [= <- <-].
    apply Forall_cons in HQ as [HQ _].
    destruct (f_sim _ _ _ _ _ _ HQ HR Hf) as (u' & -> & HR'). simpl. eauto.
  - destruct t2 as [|k2 ds]; [done|].
    destruct (decide (k = k2)) as [<-|]; [|done].
    destruct (children2M _ cs ds s1) as [[es u]|] eqn:Hc; simpl; [|done].
    intros [= <- <-].
    cut (∃ u', children2M (tree_map2M f) cs ds s1' = Some (es, u') ∧ R u u').
    { intros (u' & -> & ?). simpl. eauto. }
    simpl in HQ. clear k. revert ds s1 s1' es u Hc HQ HR.
    induction cs as [|[key c] cs IHl]; intros ds s1 s1' es u;
      destruct ds as [|[key2 d] ds]; simpl; try done.
    { intros [= <- <-] _ HR. eauto. }
    apply Forall_cons in IH as [Hc Hcs]. simpl in Hc.
    destruct (decide (key = key2)) as [<-|]; [|done].
    destruct (tree_map2M f c d s1) as [[c' v]|] eqn:Hcv; simpl; [|done].
    destruct (children2M _ cs ds v) as [[cs' w]|] eqn:Hcs'; simpl; [|done].
    intros [= <- <-] [HQ1 HQ2]%Forall_app HR.
    destruct (Hc _ _ _ _ _ HQ1 HR Hcv) as (v' & -> & HRv). simpl.
    destruct (IHl Hcs _ _ _ _ _ Hcs' HQ2 HRv) as (w' & -> & HRw). simpl. eauto.
Qed.
End simulation2.

(** ** [StateSharding.map_prefix] *)

Section map_prefix.
Context {Filter Var Sharding : Type}.
Context `{!FilterLib Filter Var} `{!Repr PathParts} `{!Repr Var}.

Lemma zip_fst_snd (pairs : list (Filter * Sharding)) :
  zip (map fst pairs) (map snd pairs) = pairs.
Proof. induction pairs as [|[a b] pairs IH]; simpl; [done|by rewrite IH]. Qed.

Lemma map_prefix_init (pairs : list (Filter * Sharding)) path (variable : Var) :
  map_prefix (StateSharding_init pairs) path variable
  = map_prefix_loop pairs path variable.
Proof. unfold map_prefix, filters, shardings. simpl. by rewrite zip_fst_snd. Qed.

Lemma map_prefix_loop_first (pairs : list (Filter * Sharding)) path (variable : Var) i flt sh :
  pairs !! i = Some (flt, sh) →
  to_predicate flt path variable = true →
  (∀ j fj sj, (j < i)%nat → pairs !! j = Some (fj, sj) →
     to_predicate fj path variable = false) →
  map_prefix_loop pairs path variable = Ret sh.
Proof.
  revert i. induction pairs as [|[f0 s0] pairs IH]; intros i Hi Hp Hbefore; [done|].
  destruct i as [|i]; simpl in *.
  - injection Hi as -> ->. by rewrite Hp.
  - rewrite (Hbefore 0%nat f0 s0); [|lia|done].
    apply (IH i); [done..|].
    intros j fj sj Hj Hl. apply (Hbefore (S j) fj sj); [lia|done].
Qed.

Lemma map_prefix_loop_none (pairs : list (Filter * Sharding)) path (variable : Var) :
  (∀ flt sh, (flt, sh) ∈ pairs → to_predicate flt path variable = false) →
  map_prefix_loop pairs path variable
  = Raise (ValueError ("No axis found for path=" +:+ repr path
                         +:+ ", variable=" +:+ repr variable)).
Proof.
  induction pairs as [|[f0 s0] pairs IH]; intros Hno; simpl; [done|].
  rewrite (Hno f0 s0); [|by left].
  apply IH. intros flt sh Hin. apply (Hno flt sh). by right.
Qed.
End map_prefix.

Lemma contains_mid (a b c : string) : contains (a +:+ b +:+ c) b.
Proof. by exists a, c. Qed.

Lemma append_assoc (a b c : string) : (a +:+ b) +:+ c = a +:+ (b +:+ c).
Proof.
  induction a as [|x a IH]; [reflexivity|].
  change (String x ((a +:+ b) +:+ c) = String x (a +:+ (b +:+ c))). by rewrite IH.
Qed.

Lemma append_nil_r (a : string) : a +:+ "" = a.
Proof.
  induction a as [|x a IH]; [reflexivity|].
  change (String x (a +:+ "") = String x a). by rewrite IH.
Qed.

Lemma contains_refl (a : string) : contains a a.
Proof. exists "", "". change (a = a +:+ ""). by rewrite append_nil_r. Qed.

Lemma contains_app_r (a s sub : string) : contains s sub → contains (a +:+ s) sub.
Proof.
  intros (pre & post & ->). exists (a +:+ pre), post. by rewrite append_assoc.
Qed.

(** C3: [map_prefix] of a [StateSharding] built from a sequence of
    (filter, sharding) pairs returns the sharding of the first pair, in the
    order of construction, whose filter accepts the path and the variable;
    when no filter accepts them it raises a [ValueError] whose message
    names the path and the variable. *)
Theorem map_prefix_first_match {Filter Var Sharding : Type}
    `{!FilterLib Filter Var} `{!Repr PathParts} `{!Repr Var}
    (pairs : list (Filter * Sharding)) (path : PathParts) (variable : Var) :
  (∀ i flt sh,
     pairs !! i = Some (flt, sh) →
     to_predicate flt path variable = true →
     (∀ j fj sj, (j < i)%nat → pairs !! j = Some (fj, sj) →
        to_predicate fj path variable = false) →
     map_prefix (StateSharding_init pairs) path variable = Ret sh)
  ∧ ((∀ flt sh, (flt, sh) ∈ pairs → to_predicate flt path variable = false) →
     ∃ msg,
       map_prefix (StateSharding_init pairs) path variable = Raise (ValueError msg)
       ∧ contains msg (repr path) ∧ contains msg (repr variable)).
Proof.
  split.
  - intros i flt sh Hi Hp Hbefore. rewrite map_prefix_init.
    by eapply map_prefix_loop_first.
  - intros Hno. eexists. split.
    + rewrite map_prefix_init. by apply map_prefix_loop_none.
    + split.
      * apply contains_mid.
      * do 3 apply contains_app_r. apply contains_refl.
Qed.

Lemma map_prefix_first_match_witness :
  map_prefix (FilterLib0 := type_filter) (Repr0 := path_repr) (Repr1 := variable_repr)
    (StateSharding_init [(OptState, "a"); (Param, "b"); (Param, "c")])
    ["linear"; "kernel"] (mkVariable Param 1 ∅) = Ret "b"
  ∧ ∃ msg,
      map_prefix (FilterLib0 := type_filter) (Repr0 := path_repr) (Repr1 := variable_repr)
        (StateSharding_init [(OptState, "a"); (OptArray, "b")])
        ["linear"; "kernel"] (mkVariable Param 1 ∅) = Raise (ValueError msg)
      ∧ contains msg (repr (Repr := path_repr) ["linear"; "kernel"])
      ∧ contains msg (repr (Repr := variable_repr) (mkVariable Param 1 ∅)).
Proof.
  split.
  - apply (proj1 (map_prefix_first_match (FilterLib0 := type_filter)
                    (Repr0 := path_repr) (Repr1 := variable_repr)
                    [(OptState, "a"); (Param, "b"); (Param, "c")]
                    ["linear"; "kernel"] (mkVariable Param 1 ∅)) 1%nat Param "b").
    + reflexivity.
    + reflexivity.
    + intros j fj sj Hj Hl. destruct j as [|j]; [|lia].
      injection Hl as <- <-. reflexivity.
  - apply (proj2 (map_prefix_first_match (FilterLib0 := type_filter)
                    (Repr0 := path_repr) (Repr1 := variable_repr)
                    [(OptState, "a"); (OptArray, "b")]
                    ["linear"; "kernel"] (mkVariable Param 1 ∅))).
    intros flt sh Hin.
    apply elem_of_cons in Hin as [[= -> ->]|Hin]; [reflexivity|].
    apply elem_of_cons in Hin as [[= -> ->]|Hin]; [reflexivity|].
    by apply elem_of_nil in Hin.
Defined.

(** ** [_jit_merge_fn] *)

(** C9: handed a leaf that is no [NodeStates], [_jit_merge_fn] raises at
    once, a [ValueError] whose message has the type of the leaf and the
    path; handed a [NodeStates] it raises nothing itself: its result is that
    of [ctx.unflatten] on the descriptor and the states. *)
Theorem jit_merge_fn_checks_leaf {Filter Sharding : Type}
    `{!Repr PathParts} `{!Repr pytype}
    (ctx : graph.MergeContext) (path : PathParts)
    (prefix : prefix_leaf Filter Sharding)
    (leaf : extract.pleaf (prefix_leaf Filter Sharding))
    (s : heap * graph.RefMap) :
  match leaf with
  | extract.PStates ns =>
      _jit_merge_fn ctx path prefix leaf s
      = match graph.unflatten ctx (extract.graphdef ns) (extract.states ns) s with
        | Some out => Ret out
        | None => Raise (OtherError "unflatten")
        end
  | extract.PArr _ =>
      ∃ msg,
        _jit_merge_fn ctx path prefix leaf s = Raise (ValueError msg)
        ∧ msg = "Expected TreeNode, got " +:+ repr (type_of leaf)
                  +:+ " at path " +:+ repr path
        ∧ contains msg (repr (type_of leaf)) ∧ contains msg (repr path)
  end.
Proof.
  destruct leaf as [a|ns]; simpl; [|done].
  eexists. split; [reflexivity|]. split; [reflexivity|]. split.
  - apply contains_mid.
  - do 3 apply contains_app_r. apply contains_refl.
Qed.

(** ** The staged objects *)

(** The accessors that hand on what the artifact answers, [None]
    included. *)
Lemma Compiled_accessors_pass_through (self : Compiled.t) :
  Compiled.as_text self = jax_stages.c_as_text (Compiled.compiled self)
  ∧ Compiled.cost_analysis self = jax_stages.c_cost_analysis (Compiled.compiled self)
  ∧ Compiled.memory_analysis self = jax_stages.c_memory_analysis (Compiled.compiled self)
  ∧ Compiled.runtime_executable self
    = jax_stages.c_runtime_executable (Compiled.compiled self).
Proof. done. Qed.

(** [Compiled.args_info] never answers. *)
Lemma Compiled_args_info_raises (self : Compiled.t) :
  ∃ e, Compiled.args_info self = Raise e.
Proof.
  unfold Compiled.args_info.
  destruct (jax_stages.c_args_info (Compiled.compiled self)) as [v|e]; simpl.
  - destruct v; by eexists.
  - by eexists.
Qed.

(** C8: on a compiled artifact whose [args_info] is available,
    [Compiled.args_info] raises a [TypeError] where [Lowered.args_info]
    returns the artifact's value. *)
Theorem Compiled_args_info_is_not_pass_through :
  jax_stages.c_args_info (Compiled.compiled compiled0) = Ret (PyObj "ArgInfo")
  ∧ Compiled.args_info compiled0
    = Raise (TypeError "exceptions must derive from BaseException")
  ∧ Lowered.args_info lowered0 = Ret (PyObj "ArgInfo").
Proof. done. Qed.

(** ** The store *)

Lemma Variable_new_fresh v (σ : store) r σ' :
  Variable_new v σ = (r, σ') →
  (r ∉ dom σ) ∧ σ' = <[r := v]> σ ∧ σ ⊆ σ'.
Proof.
  unfold Variable_new. intros [= <- <-].
  pose proof (is_fresh (dom σ)) as Hf.
  split; [done|]. split; [done|].
  apply insert_subseteq. by apply not_elem_of_dom.
Qed.

Lemma subseteq_lookup_dom (σ σ' : store) r :
  σ ⊆ σ' → r ∈ dom σ → σ' !! r = σ !! r.
Proof.
  intros Hsub [v Hv]%elem_of_dom. rewrite Hv.
  by eapply lookup_weaken.
Qed.

(** ** [to_opt_state] *)

Lemma _to_opt_state_spec x (σ : store) r' σ' :
  _to_opt_state x σ = Some (r', σ') →
  (r' ∉ dom σ) ∧ σ ⊆ σ' ∧ dom σ' = {[r']} ∪ dom σ ∧ opt_leaf σ σ' x r'.
Proof.
  unfold _to_opt_state, opt_leaf, Variable_getitem, get_metadata, Variable_new.
  pose proof (is_fresh (dom σ)) as Hf.
  assert (∀ v, σ ⊆ <[fresh (dom σ) := v]> σ) as Hsub.
  { intros v. apply insert_subseteq. by apply not_elem_of_dom. }
  destruct x as [a|r]; simpl.
  - intros [= <- <-]. repeat split; try done.
    + by rewrite dom_insert_L.
    + by rewrite lookup_insert_eq.
  - destruct (σ !! r) as [v|] eqn:Hv; simpl; [|done].
    intros [= <- <-]. repeat split; try done.
    + by rewrite dom_insert_L.
    + exists v. split; [done|]. by rewrite lookup_insert_eq.
Qed.

Lemma obj_closed_mono (σ σ' : store) x : σ ⊆ σ' → obj_closed σ x → obj_closed σ' x.
Proof. intros Hsub. destruct x as [a|r]; [done|]. simpl. by apply (subseteq_dom σ σ'). Qed.

Lemma opt_leaf_mono (σ0 σ σ' σ1 : store) x r' :
  σ0 ⊆ σ → σ' ⊆ σ1 →
  obj_closed σ0 x →
  opt_leaf σ σ' x r' → opt_leaf σ0 σ1 x r'.
Proof.
  intros H0 H1 Hx [Hf Hc]. split.
  - intros Hin. apply Hf. by eapply (subseteq_dom σ0 σ).
  - destruct x as [a|r].
    + by eapply lookup_weaken.
    + destruct Hc as (v & Hv & Hr'). exists v. split.
      * rewrite <- Hv. symmetry. by apply subseteq_lookup_dom.
      * by eapply lookup_weaken.
Qed.

Lemma Forall2_impl_Forall {A B : Type} (P : A → Prop) (R R' : A → B → Prop) xs ys :
  Forall P xs → Forall2 R xs ys → (∀ x y, P x → R x y → R' x y) → Forall2 R' xs ys.
Proof.
  intros HP HR Himpl. induction HR as [|x y xs ys Hxy _ IH]; [constructor|].
  apply Forall_cons in HP as [Hx Hxs]. constructor; [by apply Himpl|by apply IH].
Qed.

(** The leaves, in order: every new Variable is new, and they are distinct. *)
Lemma to_opt_state_leaves xs (σ : store) rs σ' :
  leaves_mapM _to_opt_state xs σ = Some (rs, σ') →
  Forall (obj_closed σ) xs →
  σ ⊆ σ' ∧ NoDup rs ∧ dom σ' = list_to_set rs ∪ dom σ
  ∧ Forall (λ r', (r' ∉ dom σ)) rs
  ∧ Forall2 (opt_leaf σ σ') xs rs.
Proof.
  revert σ rs σ'. induction xs as [|x xs IH]; intros σ rs σ'; simpl.
  - intros [= <- <-] _. split; [done|]. split; [constructor|].
    split; [set_solver|]. split; constructor.
  - destruct (_to_opt_state x σ) as [[r' σ1]|] eqn:Hx; [|done]. simpl.
    destruct (leaves_mapM _ xs σ1) as [[rs' σ2]|] eqn:Hxs; [|done]. simpl.
    intros [= <- <-] [Hx0 Hxs0]%Forall_cons.
    destruct (_to_opt_state_spec _ _ _ _ Hx) as (Hf & Hsub & Hdom & Hleaf).
    destruct (IH _ _ _ Hxs) as (Hsub' & Hnd & Hdom' & Hfresh & Hrel).
    { eapply Forall_impl; [done|]. intros y. by apply obj_closed_mono. }
    split; [by etrans|]. split; [|split; [|split]].
    + constructor; [|done]. intros Hin.
      rewrite Forall_forall in Hfresh. apply (Hfresh _ Hin). rewrite Hdom. set_solver.
    + rewrite Hdom', Hdom. set_solver.
    + constructor; [done|]. eapply Forall_impl; [done|]. simpl. intros r Hr Hin.
      apply Hr. by eapply (subseteq_dom σ σ1).
    + constructor.
      * by apply (opt_leaf_mono σ σ σ1 σ2).
      * eapply Forall2_impl_Forall; [exact Hxs0|exact Hrel|].
        intros y r Hy Hr. by apply (opt_leaf_mono σ σ1 σ2 σ2).
Qed.

Lemma to_opt_state_total tree (σ : store) :
  Forall (obj_closed σ) (tree_leaves tree) → is_Some (to_opt_state tree σ).
Proof.
  apply tree_mapM_total
    with (Q := λ _, True) (step := (⊆)) (Pre := λ x s, obj_closed s x).
  - apply _.
  - intros a s b s' _ H. by apply _to_opt_state_spec in H as (_ & ? & _).
  - intros a s s' Ha Hs. by eapply obj_closed_mono.
  - done.
  - intros [a|r] s Hx; unfold _to_opt_state, Variable_getitem, get_metadata; simpl.
    + by eexists.
    + apply elem_of_dom in Hx as [v ->]. simpl. by eexists.
Qed.

(** C2: on a tree whose leaves are Variables (of the store) and bare
    arrays, [to_opt_state] returns a tree of the same structure; in place of
    each Variable there is a new [OptVariable] with the Variable's value and
    metadata, in place of each array a new [OptArray] with the array; and
    no object that existed before is changed. *)
Theorem to_opt_state_spec (tree : pytree obj) (σ : store) :
  (∀ r, OVar r ∈ tree_leaves tree → r ∈ dom σ) →
  ∃ tree' σ',
    to_opt_state tree σ = Some (tree', σ')
    ∧ tree_shape tree' = tree_shape tree
    ∧ Forall2 (opt_leaf σ σ') (tree_leaves tree) (tree_leaves tree')
    ∧ NoDup (tree_leaves tree')
    ∧ (∀ r, r ∈ dom σ → σ' !! r = σ !! r).
Proof.
  intros Hclosed.
  assert (Forall (obj_closed σ) (tree_leaves tree)) as Hc.
  { apply Forall_forall. intros [a|r] Hin; [done|]. by apply Hclosed. }
  destruct (to_opt_state_total tree σ Hc) as [[tree' σ'] Hrun].
  exists tree', σ'. split; [done|].
  pose proof (tree_mapM_leaves _ _ _ _ _ Hrun) as Hl.
  apply to_opt_state_leaves in Hl as (Hsub & Hnd & Hdom & Hfresh & Hrel); [|done].
  split; [|split; [done|split; [done|]]].
  - by eapply tree_mapM_shape.
  - intros r. by apply subseteq_lookup_dom.
Qed.

(** ** Assignments to Variables *)

Lemma set_raw_value_id v : set_raw_value v (raw_value v) = v.
Proof. by destruct v. Qed.

Lemma set_raw_value_twice v a b : set_raw_value (set_raw_value v a) b = set_raw_value v b.
Proof. done. Qed.

Lemma writes_refl X (σ : store) : writes X σ σ.
Proof.
  intros r. destruct (σ !! r) as [v|] eqn:Hv; [|done].
  exists (raw_value v). by rewrite set_raw_value_id.
Qed.

Lemma writes_trans X (σ1 σ2 σ3 : store) :
  writes X σ1 σ2 → writes X σ2 σ3 → writes X σ1 σ3.
Proof.
  intros H12 H23 r. specialize (H12 r). specialize (H23 r).
  destruct (σ1 !! r) as [v|].
  - destruct H12 as (a & Ha & Hfa). rewrite Ha in H23.
    destruct H23 as (b & Hb & Hfb). exists b. split; [done|].
    intros Hr. rewrite (Hfb Hr). simpl. by apply Hfa.
  - by rewrite H12 in H23.
Qed.

Lemma writes_preorder X : PreOrder (writes X).
Proof. split; [intros σ; apply writes_refl | intros a b c; apply writes_trans]. Qed.
#[local] Existing Instance writes_preorder.

Lemma writes_mono (X Y : gset ref) (σ σ' : store) :
  X ⊆ Y → writes X σ σ' → writes Y σ σ'.
Proof.
  intros HXY H r. specialize (H r). destruct (σ !! r) as [v|]; [|done].
  destruct H as (a & Ha & Hf). exists a. split; [done|].
  intros Hr. apply Hf. set_solver.
Qed.

Lemma writes_dom X (σ σ' : store) : writes X σ σ' → dom σ' = dom σ.
Proof.
  intros H. apply set_eq. intros r. rewrite !elem_of_dom.
  specialize (H r). destruct (σ !! r) as [v|].
  - destruct H as (a & -> & _). split; by eexists.
  - rewrite H. done.
Qed.

Lemma writes_frame X (σ σ' : store) r :
  writes X σ σ' → r ∉ X → σ' !! r = σ !! r.
Proof.
  intros H Hr. specialize (H r). destruct (σ !! r) as [v|]; [|done].
  destruct H as (a & -> & Hf). rewrite (Hf Hr). by rewrite set_raw_value_id.
Qed.

Lemma writes_lookup X (σ σ' : store) r v :
  writes X σ σ' → σ !! r = Some v →
  ∃ a, σ' !! r = Some (set_raw_value v a).
Proof. intros H Hv. specialize (H r). rewrite Hv in H. destruct H as (a & ? & _). eauto. Qed.

Lemma Variable_setitem_spec r a (σ σ' : store) :
  Variable_setitem r a σ = Some σ' →
  ∃ v, σ !! r = Some v ∧ σ' = <[r := set_raw_value v a]> σ.
Proof.
  unfold Variable_setitem. destruct (σ !! r) as [v|]; simpl; [|done].
  intros [= <-]. eauto.
Qed.

Lemma Variable_setitem_writes r a (σ σ' : store) :
  Variable_setitem r a σ = Some σ' →
  writes {[r]} σ σ' ∧ Variable_getitem r σ' = Some a.
Proof.
  intros (v & Hv & ->)%Variable_setitem_spec. split.
  - intros r'. destruct (decide (r' = r)) as [->|Hne].
    + rewrite Hv, lookup_insert_eq. exists a. split; [done|]. set_solver.
    + rewrite lookup_insert_ne by done. destruct (σ !! r') as [v'|]; [|done].
      exists (raw_value v'). by rewrite set_raw_value_id.
  - unfold Variable_getitem. by rewrite lookup_insert_eq.
Qed.

Lemma step_incr_spec s (σ σ' : store) :
  step_incr s σ = Some σ' →
  ∃ n, Variable_getitem s σ = Some n
       ∧ Variable_getitem s σ' = Some (uint32_add n 1)
       ∧ writes {[s]} σ σ'.
Proof.
  unfold step_incr. destruct (Variable_getitem s σ) as [n|] eqn:Hn; simpl; [|done].
  intros [Hw Hg]%Variable_setitem_writes. eauto.
Qed.

Lemma assoc_Some_elem_of {B : Type} k (cs : list (string * B)) b :
  assoc k cs = Some b → (k, b) ∈ cs.
Proof.
  induction cs as [|[k' b'] cs IH]; simpl; [done|].
  destruct (decide (k = k')) as [->|].
  - intros [= ->]. by left.
  - intros H. right. by apply IH.
Qed.

Lemma tree_leaves_child {A : Type} k (cs : list (string * pytree A)) key c :
  (key, c) ∈ cs → tree_leaves c ⊆ tree_leaves (PNode k cs).
Proof.
  intros Hin x Hx. simpl. apply list_elem_of_In, in_flat_map.
  exists (key, c). split; by apply list_elem_of_In.
Qed.

Lemma refs_child k (cs : list (string * pytree ref)) key c :
  (key, c) ∈ cs → refs c ⊆ refs (PNode k cs).
Proof.
  intros Hin r. unfold refs. rewrite !elem_of_list_to_set.
  by apply tree_leaves_child with key.
Qed.

(** [nnx.update] assigns to Variables of the node, and to nothing else. *)
Lemma nnx_update_writes node st (σ σ' : store) :
  nnx.update node st σ = Some σ' → writes (refs node) σ σ'.
Proof.
  revert node σ σ'. induction st as [a|k ss IH] using pytree_induction;
    intros node σ σ'; destruct node as [r|k' cs]; simpl; try done.
  - intros [Hw _]%Variable_setitem_writes. eapply writes_mono; [|done].
    unfold refs. simpl. set_solver.
  - revert σ. induction ss as [|[key s] ss IHl]; intros σ; simpl.
    + intros [= <-]. apply writes_refl.
    + apply Forall_cons in IH as [Hs Hss]. simpl in Hs.
      destruct (assoc key cs) as [c|] eqn:Hc; simpl; [|done].
      destruct (nnx.update c s σ) as [σ1|] eqn:Hu; simpl; [|done].
      intros Hrest. eapply writes_trans; [|by apply (IHl Hss σ1)].
      eapply writes_mono; [|by apply Hs].
      eapply refs_child. by apply assoc_Some_elem_of.
Qed.

(** So does the [jax.tree.map] of [_update_variable]. *)
Lemma update_variable_writes t1 t2 (σ : store) out σ' :
  tree_map2M PytreeOptimizer._update_variable t1 t2 σ = Some (out, σ') →
  writes (refs t1) σ σ'.
Proof.
  revert t2 σ out σ'. induction t1 as [r|k cs IH] using pytree_induction;
    intros t2 σ out σ'; simpl.
  - destruct t2 as [a|]; simpl; [|done].
    destruct (Variable_setitem r a σ) as [σ1|] eqn:Hs; simpl; [|done].
    intros [= <- <-]. apply Variable_setitem_writes in Hs as [Hw _].
    eapply writes_mono; [|done]. unfold refs. simpl. set_solver.
  - destruct t2 as [|k2 ds]; [done|].
    destruct (decide (k = k2)); [|done].
    destruct (children2M _ cs ds σ) as [[cs' σ1]|] eqn:Hc; simpl; [|done].
    intros [= <- <-].
    cut (writes (list_to_set (flat_map (λ c, tree_leaves c.2) cs)) σ σ1); [done|].
    clear k e. revert ds σ cs' σ1 Hc.
    induction cs as [|[key c] cs IHl]; intros ds σ cs' σ1; destruct ds as [|[key2 d] ds];
      simpl; try done.
    + intros [= <- <-]. apply writes_refl.
    + apply Forall_cons in IH as [Hc Hcs]. simpl in Hc.
      destruct (decide (key = key2)); [|done].
      destruct (tree_map2M _ c d σ) as [[c' u]|] eqn:Hcu; simpl; [|done].
      destruct (children2M _ cs ds u) as [[cs2 v]|] eqn:Hcs2; simpl; [|done].
      intros [= <- <-].
      eapply writes_trans.
      * eapply writes_mono; [|by eapply Hc]. unfold refs. set_solver.
      * eapply writes_mono; [|by eapply IHl]. set_solver.
Qed.

(** ** Writing by key and writing by place *)

Lemma sub_tree_refl t : sub_tree t t.
Proof.
  induction t as [r|k cs IH] using pytree_induction; constructor.
  induction cs as [|[key c] cs IHl]; [constructor|].
  apply Forall_cons in IH as [Hc Hcs]. apply sub_keep; [done|by apply IHl].
Qed.

Lemma sub_children_elem_of R ss cs key s :
  sub_children R ss cs → (key, s) ∈ ss → ∃ c, (key, c) ∈ cs ∧ R s c.
Proof.
  induction 1 as [|c ss cs _ IH|key' s' c ss cs HR _ IH]; intros Hin.
  - by apply elem_of_nil in Hin.
  - destruct (IH Hin) as (c' & ? & ?). exists c'. split; [by right|done].
  - apply elem_of_cons in Hin as [[= -> ->]|Hin].
    + exists c. split; [by left|done].
    + destruct (IH Hin) as (c' & ? & ?). exists c'. split; [by right|done].
Qed.

Lemma sub_tree_leaves s t : sub_tree s t → tree_leaves s `sublist_of` tree_leaves t.
Proof.
  revert s. induction t as [r|k cs IH] using pytree_induction; intros s Hs;
    inversion Hs as [|k1 k2 ss cs' Hsub]; subst; [done|]. simpl. clear Hs.
  induction Hsub as [|c ss cs _ IHs|key s' c ss cs HR _ IHs]; simpl.
  - done.
  - apply Forall_cons in IH as [_ Hcs].
    apply sublist_inserts_l. by apply IHs.
  - apply Forall_cons in IH as [Hc Hcs].
    apply sublist_app; [by apply Hc|by apply IHs].
Qed.

Lemma sub_tree_refs s t : sub_tree s t → refs s ⊆ refs t.
Proof.
  intros H%sub_tree_leaves r. unfold refs. rewrite !elem_of_list_to_set.
  intros Hr. by eapply elem_of_sublist.
Qed.

Lemma sub_tree_NoDup s t : sub_tree s t → NoDup (tree_leaves t) → NoDup (tree_leaves s).
Proof. intros H%sub_tree_leaves Hnd. by eapply sublist_NoDup. Qed.

Section state_filter.
Context {Filter : Type} `{!FilterLib Filter VariableState}.

Lemma state_filter_sub (flt : Filter) (σ : store) path node stt :
  nnx.state_filter flt σ path node = Some stt → sub_tree stt node.
Proof.
  revert path stt. induction node as [r|k cs IH] using pytree_induction;
    intros path stt; simpl.
  - destruct (nnx.selected flt σ path r); [|done]. intros [= <-]. constructor.
  - intros [= <-]. constructor.
    induction cs as [|[key c] cs IHl]; simpl; [constructor|].
    apply Forall_cons in IH as [Hc Hcs]. simpl in Hc.
    destruct (nnx.state_filter flt σ (path ++ [key])%list c) as [c'|] eqn:Hf.
    + apply sub_keep; [by eapply Hc|by apply IHl].
    + apply sub_skip. by apply IHl.
Qed.

Lemma state_sub (flt : Filter) (σ : store) node :
  (∃ k cs, node = PNode k cs) → sub_tree (nnx.state node flt σ) node.
Proof.
  intros (k & cs & ->). unfold nnx.state.
  destruct (nnx.state_filter flt σ [] (PNode k cs)) as [stt|] eqn:Hf; simpl.
  - by eapply state_filter_sub.
  - done.
Qed.

(** The state depends on the store only through the Variables of the node. *)
Lemma state_filter_ext (flt : Filter) (σ σ' : store) path node :
  (∀ r, r ∈ tree_leaves node → σ !! r = σ' !! r) →
  nnx.state_filter flt σ path node = nnx.state_filter flt σ' path node.
Proof.
  revert path. induction node as [r|k cs IH] using pytree_induction;
    intros path Hagree; simpl.
  - unfold nnx.selected. rewrite (Hagree r); [done|]. simpl. by left.
  - do 2 f_equal.
    induction cs as [|[key c] cs IHl]; simpl; [done|].
    apply Forall_cons in IH as [Hc Hcs]. simpl in Hc.
    rewrite Hc.
    2:{ intros r Hr. apply Hagree. simpl. apply elem_of_app. by left. }
    rewrite IHl; [done|done|].
    intros r Hr. apply Hagree. simpl. apply elem_of_app. by right.
Qed.

Lemma state_ext (flt : Filter) (σ σ' : store) node :
  (∀ r, r ∈ tree_leaves node → σ !! r = σ' !! r) →
  nnx.state node flt σ = nnx.state node flt σ'.
Proof. intros H. unfold nnx.state. by rewrite (state_filter_ext flt σ σ'). Qed.
End state_filter.

(** A successful [write_tree]: the two trees have one structure. *)
Lemma write_tree_structure t st (σ σ' : store) :
  write_tree t st σ = Some σ' → tree_rel (λ _ _, True) t st.
Proof.
  unfold write_tree.
  revert st σ σ'. induction t as [r|k cs IH] using pytree_induction;
    intros st σ σ'; simpl.
  - destruct st as [a|]; simpl; [|done]. intros _. by constructor.
  - destruct st as [|k2 ds]; [done|].
    destruct (decide (k = k2)) as [<-|]; [|done].
    destruct (children2M _ cs ds σ) as [[cs' σ1]|] eqn:Hc; simpl; [|done].
    intros _. constructor. clear k. revert ds σ cs' σ1 Hc.
    induction cs as [|[key c] cs IHl]; intros ds σ cs' σ1; destruct ds as [|[key2 d] ds];
      simpl; try done; try (intros _; constructor; fail).
    apply Forall_cons in IH as [Hc Hcs]. simpl in Hc.
    destruct (decide (key = key2)) as [<-|]; [|done].
    destruct (tree_map2M _ c d σ) as [[c' u]|] eqn:Hcu; simpl; [|done].
    destruct (children2M _ cs ds u) as [[cs2 v]|] eqn:Hcs2; simpl; [|done].
    intros _. constructor.
    + split; [done|]. simpl. eapply (Hc d σ u). by rewrite Hcu.
    + by eapply IHl.
Qed.

Lemma write_tree_writes t st (σ σ' : store) :
  write_tree t st σ = Some σ' → writes (refs t) σ σ'.
Proof.
  unfold write_tree.
  destruct (tree_map2M _ t st σ) as [[out σ1]|] eqn:H; simpl; [|done].
  intros [= <-]. by eapply update_variable_writes.
Qed.

Lemma write_tree_node k k2 cs ds (σ : store) :
  write_tree (PNode k cs) (PNode k2 ds) σ
  = if decide (k = k2) then
      snd <$> children2M (tree_map2M PytreeOptimizer._update_variable) cs ds σ
    else None.
Proof.
  unfold write_tree. simpl. destruct (decide (k = k2)); [|done].
  by destruct (children2M _ cs ds σ) as [[? ?]|].
Qed.

Lemma children2M_cons {A B C S : Type} (rec : pytree A → pytree B → S → option (pytree C * S))
    key c cs key2 d ds s :
  snd <$> children2M rec ((key, c) :: cs) ((key2, d) :: ds) s
  = if decide (key = key2) then
      s1 ← snd <$> rec c d s; snd <$> children2M rec cs ds s1
    else None.
Proof.
  simpl. destruct (decide (key = key2)); [|done].
  destruct (rec c d s) as [[c' s1]|]; simpl; [|done].
  by destruct (children2M rec cs ds s1) as [[? ?]|].
Qed.

Lemma update_children_write_tree (full : list (string * pytree ref)) :
  NoDup (map fst full) →
  Forall (λ c, ∀ stt st (σ : store),
            sub_tree stt c.2 → tree_rel (λ _ _, True) stt st →
            nnx.update c.2 st σ = write_tree stt st σ) full →
  ∀ ss cs ds (σ : store),
    sub_children sub_tree ss cs → (∀ x, x ∈ cs → x ∈ full) →
    Forall2 (λ c d, c.1 = d.1 ∧ tree_rel (λ _ _ : _, True) c.2 d.2) ss ds →
    nnx.update_children nnx.update full ds σ
    = snd <$> children2M (tree_map2M PytreeOptimizer._update_variable) ss ds σ.
Proof.
  intros Hnd IH ss cs ds σ Hss. revert ds σ.
  induction Hss as [|c ss cs _ IHs|key s c ss cs HR _ IHs]; intros ds σ Hfull Hds.
  - inversion Hds; subst. done.
  - apply IHs; [|done]. intros x Hx. apply Hfull. by right.
  - inversion Hds as [|x [key2 d] xs ds' [Hk Hr] Hrest]; subst. simpl in Hk. subst key2.
    rewrite children2M_cons, decide_True by done. simpl.
    assert ((key, c) ∈ full) as Hin by (apply Hfull; by left).
    rewrite (assoc_elem_of key full c Hnd Hin). simpl.
    rewrite Forall_forall in IH.
    pose proof (IH _ Hin s d σ HR Hr) as Heq. simpl in Heq. rewrite Heq. clear Heq.
    unfold write_tree.
    destruct (snd <$> tree_map2M PytreeOptimizer._update_variable s d σ) as [σ1|];
      simpl; [|done].
    apply IHs; [|done]. intros x Hx. apply Hfull. by right.
Qed.

(** On a node whose keys are distinct, [nnx.update] with a state tree of
    the structure of a part [stt] of the node writes what [write_tree]
    writes into [stt]. *)
Lemma nnx_update_write_tree node stt st (σ : store) :
  wf_keys node → sub_tree stt node → tree_rel (λ _ _, True) stt st →
  nnx.update node st σ = write_tree stt st σ.
Proof.
  revert stt st σ. induction node as [r|k cs IH] using pytree_induction;
    intros stt st σ Hwf Hsub Hrel.
  - inversion Hsub; subst. inversion Hrel; subst. unfold write_tree. simpl.
    by destruct (Variable_setitem r b σ).
  - inversion Hsub as [|k1 k2 ss cs' Hss]; subst.
    inversion Hrel as [|k3 ss' ds Hds]; subst.
    rewrite write_tree_node, decide_True by done. simpl.
    destruct Hwf as [Hnd Hwfc]. apply all_children_Forall in Hwfc.
    eapply update_children_write_tree; [done| |done|done|done].
    apply Forall_forall. intros c Hc stt st σ' Hs Hr.
    rewrite Forall_forall in IH, Hwfc. by apply IH; [|apply Hwfc|..].
Qed.

(** After a [write_tree] into distinct Variables each of them holds the
    value at its place. *)
Lemma write_tree_holds t st (σ σ' : store) :
  write_tree t st σ = Some σ' → NoDup (tree_leaves t) → tree_rel (holds σ') t st.
Proof.
  revert st σ σ'. induction t as [r|k cs IH] using pytree_induction; intros st σ σ'.
  - unfold write_tree. simpl. destruct st as [a|]; simpl; [|done].
    destruct (Variable_setitem r a σ) as [σ1|] eqn:Hs; simpl; [|done].
    intros [= <-] _. constructor. by apply Variable_setitem_writes in Hs as [_ ?].
  - destruct st as [|k2 ds]; [done|]. rewrite write_tree_node.
    destruct (decide (k = k2)) as [<-|]; [|done].
    simpl. intros Hrun Hnd. constructor. clear k.
    revert ds σ Hrun. induction cs as [|[key c] cs IHl]; intros ds σ;
      destruct ds as [|[key2 d] ds]; try done; try (intros _; constructor; fail).
    rewrite children2M_cons.
    destruct (decide (key = key2)) as [<-|]; [|done].
    apply Forall_cons in IH as [Hc Hcs]. simpl in Hc, Hnd.
    apply NoDup_app in Hnd as (Hnd1 & Hdisj & Hnd2).
    destruct (snd <$> tree_map2M PytreeOptimizer._update_variable c d σ)
      as [u|] eqn:Hcu; simpl; [|done].
    intros Hrest. constructor; [|by eapply IHl].
    split; [done|]. simpl.
    eapply tree_rel_impl_strong; [|by eapply (Hc d σ u)].
    intros r a Hr Hh. unfold holds, Variable_getitem in *.
    assert (write_tree (PNode "" cs) (PNode "" ds) u = Some σ') as Hw.
    { by rewrite write_tree_node, decide_True. }
    apply write_tree_writes in Hw.
    rewrite (writes_frame _ _ _ r Hw); [done|].
    unfold refs. rewrite elem_of_list_to_set. by apply Hdisj.
Qed.

Lemma Variable_setitem_same r a (σ : store) :
  holds σ r a → Variable_setitem r a σ = Some σ.
Proof.
  unfold holds, Variable_getitem, Variable_setitem.
  destruct (σ !! r) as [v|] eqn:Hv; [|done]. intros [= <-].
  cbn -[set_raw_value]. rewrite set_raw_value_id. by rewrite insert_id.
Qed.

(** Writing into each Variable the value it holds changes nothing. *)
Lemma write_tree_same t st (σ : store) :
  tree_rel (holds σ) t st → write_tree t st σ = Some σ.
Proof.
  revert st. induction t as [r|k cs IH] using pytree_induction;
    intros st H; inversion H as [? a Hh|k0 cs0 ds Hcs]; subst.
  - unfold write_tree. simpl. by rewrite (Variable_setitem_same r a σ Hh).
  - rewrite write_tree_node, decide_True by done. clear H.
    induction Hcs as [|[k1 c] [k2 d] cs ds [Hk Hr] _ IHl]; [done|].
    simpl in Hk. subst k2. rewrite children2M_cons, decide_True by done.
    apply Forall_cons in IH as [Hc Hcs']. simpl in *.
    pose proof (Hc d Hr) as Hw. unfold write_tree in Hw. rewrite Hw. simpl.
    by apply IHl.
Qed.

(** ** Reading *)

Lemma nnx_pure_refs t (σ : store) arrs :
  nnx.pure (tree_map OVar t) σ = Some arrs ↔ tree_rel (holds σ) t arrs.
Proof.
  unfold nnx.pure. split.
  - intros H%tree_mapO_rel. by apply tree_rel_map_inv in H.
  - intros H. apply tree_mapO_of_rel. by apply tree_rel_map_inv.
Qed.

Lemma holds_ext (σ σ' : store) r a : σ !! r = σ' !! r → holds σ r a → holds σ' r a.
Proof. unfold holds, Variable_getitem. by intros ->. Qed.

Lemma tree_mapO_ext {A B : Type} (f g : A → option B) t :
  (∀ a, a ∈ tree_leaves t → f a = g a) → tree_mapO f t = tree_mapO g t.
Proof.
  induction t as [a|k cs IH] using pytree_induction; intros Hfg; simpl.
  - rewrite Hfg; [done|by left].
  - f_equal. simpl in Hfg. induction cs as [|c cs IHl]; [done|].
    apply Forall_cons in IH as [Hc Hcs]. simpl.
    rewrite Hc.
    2:{ intros a Ha. apply Hfg. simpl. apply elem_of_app. by left. }
    rewrite IHl; [done|done|]. intros a Ha. apply Hfg. simpl. apply elem_of_app. by right.
Qed.

Lemma nnx_pure_ext t (σ σ' : store) :
  (∀ r, OVar r ∈ tree_leaves t → σ !! r = σ' !! r) →
  nnx.pure t σ = nnx.pure t σ'.
Proof.
  intros H. apply tree_mapO_ext. intros [a|r] Hin; [done|].
  simpl. unfold Variable_getitem. by rewrite (H r Hin).
Qed.

Lemma view_ext t (σ σ' : store) :
  (∀ r, OVar r ∈ tree_leaves t → σ !! r = σ' !! r) →
  view t σ = view t σ'.
Proof.
  intros H. apply tree_mapO_ext. intros [a|r] Hin; [done|].
  simpl. by rewrite (H r Hin).
Qed.

Lemma elem_of_leaves_OVar t r : OVar r ∈ tree_leaves (tree_map OVar t) ↔ r ∈ tree_leaves t.
Proof.
  rewrite tree_leaves_map, list_elem_of_fmap. split.
  - intros (r' & [= ->] & ?). done.
  - intros ?. by exists r.
Qed.

(** ** [optax.apply_updates] *)

Lemma apply_updates_structure p u q :
  optax.apply_updates p u = Some q → tree_rel (λ _ _, True) p q.
Proof.
  unfold optax.apply_updates.
  match goal with |- context [tree_map2M ?f p u tt] =>
    destruct (tree_map2M f p u tt) as [[out s]|] eqn:H end; simpl; [|done].
  intros [= <-]. by eapply tree_map2M_shape.
Qed.

Lemma apply_updates_zero p u q :
  optax.apply_updates p u = Some q →
  Forall (λ x, x = 0) (tree_leaves u) → q = p.
Proof.
  unfold optax.apply_updates.
  match goal with |- context [tree_map2M ?f p u tt] =>
    destruct (tree_map2M f p u tt) as [[out s]|] eqn:H end; simpl; [|done].
  intros [= <-]. revert u out s H.
  induction p as [a|k cs IH] using pytree_induction; intros u out s; simpl.
  - destruct u as [x|]; simpl; [|done]. intros [= <- <-] [-> _]%Forall_cons.
    f_equal. lia.
  - destruct u as [|k2 ds]; [done|].
    destruct (decide (k = k2)) as [<-|]; [|done].
    match goal with |- context [children2M ?f cs ds tt] =>
      destruct (children2M f cs ds tt) as [[cs' s1]|] eqn:Hc end; simpl; [|done].
    intros [= <- <-] Hz. f_equal. clear k. revert ds cs' s1 Hc Hz.
    induction cs as [|[key c] cs IHl]; intros ds cs' s1; destruct ds as [|[key2 d] ds];
      simpl; try done; try (by intros [= <- <-]).
    apply Forall_cons in IH as [Hc Hcs]. simpl in Hc.
    destruct (decide (key = key2)) as [<-|]; [|done].
    match goal with |- context [tree_map2M ?f c d tt] =>
      destruct (tree_map2M f c d tt) as [[c' []]|] eqn:Hcu end; simpl; [|done].
    match goal with |- context [children2M ?f cs ds tt] =>
      destruct (children2M f cs ds tt) as [[cs2 v]|] eqn:Hcs2 end; simpl; [|done].
    intros [= <- <-] [Hz1 Hz2]%Forall_app.
    rewrite (Hc _ _ _ Hcu Hz1). f_equal. by eapply IHl.
Qed.

(** ** The optimizers, step by step *)

Section Optimizer.
Context {Filter : Type} `{!FilterLib Filter VariableState}.
Implicit Types self : Optimizer.t Filter.

Lemma Optimizer_update_call_inv self grads kwargs (σ : store) c :
  Optimizer.update_call self grads kwargs σ = Some c →
  ∃ kwargs_arrays,
    nnx.pure (tree_map OVar (nnx.state (Optimizer.model self) (Optimizer.wrt self) σ)) σ
      = Some (call_params c)
    ∧ nnx.pure grads σ = Some (call_grads c)
    ∧ nnx.pure (tree_map OVar (Optimizer.opt_state self)) σ = Some (call_opt_state c)
    ∧ mapM (λ kw, pair kw.1 <$> nnx.pure kw.2 σ) kwargs = Some kwargs_arrays
    ∧ call_kwargs c = map (λ kw, (kw.1, tree_map VArr kw.2)) kwargs_arrays.
Proof.
  unfold Optimizer.update_call, nnx.freeze. intros H. cbv zeta in H.
  destruct (nnx.pure (tree_map OVar (nnx.state _ _ _)) σ) as [pa|] eqn:E1; simpl in H; [|done].
  destruct (nnx.pure grads σ) as [ga|] eqn:E2; simpl in H; [|done].
  destruct (nnx.pure (tree_map OVar (Optimizer.opt_state self)) σ) as [oa|] eqn:E3; simpl in H; [|done].
  destruct (mapM _ kwargs) as [ka|] eqn:E4; simpl in H; [|done].
  injection H as <-. exists ka. simpl. by repeat split.
Qed.

Lemma Optimizer_update_inv self grads kwargs (σ : store) u σ' :
  Optimizer.update self grads kwargs σ = Some (u, σ') →
  ∃ c updates new_opt_state new_params σ1 σ2,
    Optimizer.update_call self grads kwargs σ = Some c
    ∧ tx_update (Optimizer.tx self) c = Some (updates, new_opt_state)
    ∧ optax.apply_updates (call_params c) updates = Some new_params
    ∧ nnx.update (Optimizer.model self) new_params σ = Some σ1
    ∧ nnx.update (Optimizer.opt_state self) new_opt_state σ1 = Some σ2
    ∧ step_incr (Optimizer.step self) σ2 = Some σ'.
Proof.
  unfold Optimizer.update. intros H.
  destruct (Optimizer.update_call self grads kwargs σ) as [c|] eqn:E1; simpl in H; [|done].
  destruct (tx_update (Optimizer.tx self) c) as [[updates nos]|] eqn:E2; simpl in H; [|done].
  destruct (optax.apply_updates (call_params c) updates) as [np|] eqn:E3; simpl in H; [|done].
  destruct (nnx.update (Optimizer.model self) np σ) as [σ1|] eqn:E4; simpl in H; [|done].
  destruct (nnx.update (Optimizer.opt_state self) nos σ1) as [σ2|] eqn:E5; simpl in H; [|done].
  destruct (step_incr (Optimizer.step self) σ2) as [σ3|] eqn:E6; simpl in H; [|done].
  injection H as <- <-. by exists c, updates, nos, np, σ1, σ2.
Qed.

(** One update: the objects stay, the writes go to Variables of the model
    and of the optimizer state and to the counter, and the counter (when it
    is neither of those) has gone up by one. *)
Lemma Optimizer_update_writes self grads kwargs (σ : store) u σ' :
  Optimizer.update self grads kwargs σ = Some (u, σ') →
  writes (refs (Optimizer.model self) ∪ refs (Optimizer.opt_state self)
            ∪ {[Optimizer.step self]}) σ σ'
  ∧ (Optimizer.step self ∉ refs (Optimizer.model self) ∪ refs (Optimizer.opt_state self) →
     ∃ n, holds σ (Optimizer.step self) n
          ∧ holds σ' (Optimizer.step self) (uint32_add n 1)).
Proof.
  intros (c & updates & nos & np & σ1 & σ2 & _ & _ & _ & H1 & H2 & H3)%Optimizer_update_inv.
  apply nnx_update_writes in H1. apply nnx_update_writes in H2.
  apply step_incr_spec in H3 as (n & Hn & Hn' & H3).
  split.
  - eapply writes_trans; [eapply writes_mono; [|exact H1]; set_solver|].
    eapply writes_trans; [eapply writes_mono; [|exact H2]; set_solver|].
    eapply writes_mono; [|exact H3]. set_solver.
  - intros Hs. exists n. split; [|done].
    unfold holds, Variable_getitem in *.
    rewrite <- (writes_frame _ _ _ (Optimizer.step self) H1) by set_solver.
    rewrite <- (writes_frame _ _ _ (Optimizer.step self) H2) by set_solver.
    done.
Qed.
End Optimizer.

(** ** Construction *)

Lemma new_leaves_spec xs (σ : store) ys σ' :
  leaves_mapM new_leaf xs σ = Some (ys, σ') →
  σ ⊆ σ' ∧ Forall (obj_closed σ') ys.
Proof.
  revert σ ys σ'. induction xs as [|x xs IH]; intros σ ys σ'; simpl.
  - intros [= <- <-]. split; [done|constructor].
  - destruct (new_leaf x σ) as [[y σ1]|] eqn:Hx; simpl; [|done].
    destruct (leaves_mapM new_leaf xs σ1) as [[ys' σ2]|] eqn:Hxs; simpl; [|done].
    intros [= <- <-]. destruct (IH _ _ _ Hxs) as [Hsub Hcl].
    assert (σ ⊆ σ1 ∧ obj_closed σ1 y) as [Hsub1 Hy].
    { destruct x as [a|v]; simpl in Hx.
      - injection Hx as <- <-. done.
      - injection Hx as <- <-. split.
        + apply insert_subseteq, not_elem_of_dom, is_fresh.
        + simpl. rewrite dom_insert_L. set_solver. }
    split; [by etrans|]. constructor; [|done]. by eapply obj_closed_mono.
Qed.

Lemma new_tree_spec t (σ : store) t' σ' :
  new_tree t σ = Some (t', σ') → σ ⊆ σ' ∧ Forall (obj_closed σ') (tree_leaves t').
Proof. intros H%tree_mapM_leaves. by apply new_leaves_spec in H. Qed.

(** The optimizer state built from what [tx.init] returns: new, distinct
    Variables. *)
Lemma init_opt_state_spec t (σa σb σ1 : store) st0 os :
  new_tree t σa = Some (st0, σb) →
  to_opt_state st0 σb = Some (os, σ1) →
  σa ⊆ σ1 ∧ NoDup (tree_leaves os)
  ∧ (∀ r, r ∈ tree_leaves os → (r ∉ dom σa) ∧ r ∈ dom σ1).
Proof.
  intros [Hab Hcl]%new_tree_spec Hto.
  apply tree_mapM_leaves, to_opt_state_leaves in Hto as (Hb1 & Hnd & Hdom & Hfresh & _);
    [|done].
  split; [by etrans|]. split; [done|].
  intros r Hr. split.
  - rewrite Forall_forall in Hfresh. intros Hin. apply (Hfresh r Hr).
    by apply (subseteq_dom σa σb).
  - rewrite Hdom. set_solver.
Qed.

Section Optimizer_init.
Context {Filter : Type} `{!FilterLib Filter VariableState}.

Lemma Optimizer_init_spec model tx (wrt : Filter) (σ0 : store) self σ1 :
  Optimizer.__init__ model tx wrt σ0 = Some (self, σ1) →
  Optimizer.step self = fresh (dom σ0)
  ∧ Optimizer.model self = model ∧ Optimizer.tx self = tx ∧ Optimizer.wrt self = wrt
  ∧ <[fresh (dom σ0) := mkVariable OptState 0 ∅]> σ0 ⊆ σ1
  ∧ NoDup (tree_leaves (Optimizer.opt_state self))
  ∧ (∀ r, r ∈ tree_leaves (Optimizer.opt_state self) →
       (r ∉ dom σ0) ∧ r ≠ fresh (dom σ0) ∧ r ∈ dom σ1).
Proof.
  unfold Optimizer.__init__, Variable_new, nnx.data. intros H. cbv zeta in H.
  destruct (view _ _) as [pv|] eqn:E1; simpl in H; [|done].
  destruct (new_tree _ _) as [[st0 σb]|] eqn:E2; simpl in H; [|done].
  destruct (to_opt_state st0 σb) as [[os σc]|] eqn:E3; simpl in H; [|done].
  injection H as <- <-. simpl.
  destruct (init_opt_state_spec _ _ _ _ _ _ E2 E3) as (Hsub & Hnd & Hfr).
  repeat split; try done.
  - destruct (Hfr r H) as [Hr _]. rewrite dom_insert_L in Hr. set_solver.
  - destruct (Hfr r H) as [Hr _]. rewrite dom_insert_L in Hr. set_solver.
  - by destruct (Hfr r H).
Qed.
End Optimizer_init.

Lemma PytreeOptimizer_init_spec params tx (σ0 : store) self σ1 :
  PytreeOptimizer.__init__ params tx σ0 = Some (self, σ1) →
  PytreeOptimizer.step self = fresh (dom σ0)
  ∧ PytreeOptimizer.tx self = tx
  ∧ <[fresh (dom σ0) := mkVariable OptArray 0 ∅]> σ0 ⊆ σ1
  ∧ NoDup (tree_leaves (PytreeOptimizer.opt_state self))
  ∧ (∀ r, r ∈ tree_leaves (PytreeOptimizer.opt_state self) →
       (r ∉ dom σ0) ∧ r ≠ fresh (dom σ0) ∧ r ∈ dom σ1).
Proof.
  unfold PytreeOptimizer.__init__, Variable_new, nnx.data, nnx.freeze. intros H.
  cbv zeta in H.
  destruct (view _ _) as [pv|] eqn:E1; simpl in H; [|done].
  destruct (new_tree _ _) as [[st0 σb]|] eqn:E2; simpl in H; [|done].
  destruct (to_opt_state st0 σb) as [[os σc]|] eqn:E3; simpl in H; [|done].
  injection H as <- <-. simpl.
  destruct (init_opt_state_spec _ _ _ _ _ _ E2 E3) as (Hsub & Hnd & Hfr).
  repeat split; try done.
  - destruct (Hfr r H) as [Hr _]. rewrite dom_insert_L in Hr. set_solver.
  - destruct (Hfr r H) as [Hr _]. rewrite dom_insert_L in Hr. set_solver.
  - by destruct (Hfr r H).
Qed.

Lemma PytreeOptimizer_update_inv self params grads kwargs (σ : store) u σ' :
  PytreeOptimizer.update self params grads kwargs σ = Some (u, σ') →
  ∃ c updates new_opt_state new_params σ2,
    PytreeOptimizer.update_call self params grads kwargs σ = Some c
    ∧ tx_update (PytreeOptimizer.tx self) c = Some (updates, new_opt_state)
    ∧ optax.apply_updates (call_params c) updates = Some new_params
    ∧ write_tree (tuple2 params (PytreeOptimizer.opt_state self))
        (tuple2 new_params new_opt_state) σ = Some σ2
    ∧ step_incr (PytreeOptimizer.step self) σ2 = Some σ'.
Proof.
  unfold PytreeOptimizer.update, write_tree. intros H.
  destruct (PytreeOptimizer.update_call self params grads kwargs σ) as [c|] eqn:E1;
    cbn [mbind option_bind] in H; [|done].
  destruct (tx_update (PytreeOptimizer.tx self) c) as [[updates nos]|] eqn:E2;
    cbn [mbind option_bind] in H; [|done].
  destruct (optax.apply_updates (call_params c) updates) as [np|] eqn:E3; cbn [mbind option_bind] in H; [|done].
  destruct (tree_map2M _ _ _ σ) as [[out σ2]|] eqn:E4; cbn [mbind option_bind] in H; [|done].
  destruct (step_incr (PytreeOptimizer.step self) σ2) as [σ3|] eqn:E6; cbn [mbind option_bind] in H; [|done].
  injection H as <- <-. exists c, updates, nos, np, σ2. by rewrite E4.
Qed.

Lemma refs_tuple2 a b : refs (tuple2 a b) = refs a ∪ refs b.
Proof. unfold refs. simpl. rewrite app_nil_r, list_to_set_app_L. done. Qed.

Lemma PytreeOptimizer_update_writes self params grads kwargs (σ : store) u σ' :
  PytreeOptimizer.update self params grads kwargs σ = Some (u, σ') →
  writes (refs params ∪ refs (PytreeOptimizer.opt_state self)
            ∪ {[PytreeOptimizer.step self]}) σ σ'
  ∧ (PytreeOptimizer.step self ∉ refs params ∪ refs (PytreeOptimizer.opt_state self) →
     ∃ n, holds σ (PytreeOptimizer.step self) n
          ∧ holds σ' (PytreeOptimizer.step self) (uint32_add n 1)).
Proof.
  intros (c & updates & nos & np & σ2 & _ & _ & _ & H1 & H3)%PytreeOptimizer_update_inv.
  apply write_tree_writes in H1. rewrite refs_tuple2 in H1.
  apply step_incr_spec in H3 as (n & Hn & Hn' & H3).
  split.
  - eapply writes_trans; [eapply writes_mono; [|exact H1]; set_solver|].
    eapply writes_mono; [|exact H3]. set_solver.
  - intros Hs. exists n. split; [|done].
    unfold holds, Variable_getitem in *.
    rewrite <- (writes_frame _ _ _ (PytreeOptimizer.step self) H1) by set_solver.
    done.
Qed.

(** ** Counting the steps *)

Lemma uint32_add_mod k : uint32_add (k mod 2 ^ 32) 1 = (k + 1) mod 2 ^ 32.
Proof. unfold uint32_add. by rewrite Zplus_mod_idemp_l. Qed.

Lemma holds_inj (σ : store) r a b : holds σ r a → holds σ r b → a = b.
Proof. unfold holds. congruence. Qed.

Section counting.
Context {Filter : Type} `{!FilterLib Filter VariableState}.

Lemma Optimizer_updates_step (self : Optimizer.t Filter) calls (σ σN : store) k :
  Optimizer.step self ∉ refs (Optimizer.model self) ∪ refs (Optimizer.opt_state self) →
  holds σ (Optimizer.step self) (k mod 2 ^ 32) →
  Optimizer_updates self calls σ = Some σN →
  holds σN (Optimizer.step self) ((k + Z.of_nat (length calls)) mod 2 ^ 32).
Proof.
  intros Hs. revert σ k. induction calls as [|[grads kwargs] calls IH]; intros σ k Hk; simpl.
  - intros [= <-]. by rewrite Z.add_0_r.
  - destruct (Optimizer.update self grads kwargs σ) as [[u σ1]|] eqn:Hu; simpl; [|done].
    intros Hrest. apply Optimizer_update_writes in Hu as [_ Hstep].
    destruct (Hstep Hs) as (n & Hn & Hn').
    rewrite (holds_inj _ _ _ _ Hn Hk), uint32_add_mod in Hn'.
    replace (k + Z.of_nat (S (length calls)))
      with ((k + 1) + Z.of_nat (length calls)) by lia.
    by eapply IH.
Qed.
End counting.

Lemma PytreeOptimizer_updates_step (self : PytreeOptimizer.t) calls (σ σN : store) k :
  PytreeOptimizer.step self ∉ refs (PytreeOptimizer.opt_state self) →
  Forall (λ call, PytreeOptimizer.step self ∉ refs call.1.1) calls →
  holds σ (PytreeOptimizer.step self) (k mod 2 ^ 32) →
  PytreeOptimizer_updates self calls σ = Some σN →
  holds σN (PytreeOptimizer.step self) ((k + Z.of_nat (length calls)) mod 2 ^ 32).
Proof.
  intros Hs. revert σ k.
  induction calls as [|[[params grads] kwargs] calls IH]; intros σ k Hcalls Hk; simpl.
  - intros [= <-]. by rewrite Z.add_0_r.
  - apply Forall_cons in Hcalls as [Hp Hcalls]. simpl in Hp.
    destruct (PytreeOptimizer.update self params grads kwargs σ) as [[u σ1]|] eqn:Hu;
      simpl; [|done].
    intros Hrest. apply PytreeOptimizer_update_writes in Hu as [_ Hstep].
    destruct Hstep as (n & Hn & Hn'); [set_solver|].
    rewrite (holds_inj _ _ _ _ Hn Hk), uint32_add_mod in Hn'.
    replace (k + Z.of_nat (S (length calls)))
      with ((k + 1) + Z.of_nat (length calls)) by lia.
    by eapply IH.
Qed.

(** ** One update *)

Lemma zero_leaves_pure (σ : store) xs ys :
  Forall2 (λ x a, nnx.pure_leaf σ x = Some a) xs ys →
  Forall (zero_leaf σ) xs → Forall (λ g, g = 0) ys.
Proof.
  induction 1 as [|x a xs ys Hx _ IH]; intros Hz; [constructor|].
  apply Forall_cons in Hz as [Hx0 Hz]. unfold zero_leaf in Hx0.
  constructor; [congruence|by apply IH].
Qed.

Section update.
Context {Filter : Type} `{!FilterLib Filter VariableState}.
Implicit Types self : Optimizer.t Filter.

Lemma state_sub_or (flt : Filter) (σ : store) node :
  sub_tree (nnx.state node flt σ) node
  ∨ (∃ r, node = PLeaf r) ∧ nnx.state node flt σ = PNode "State" [].
Proof.
  unfold nnx.state.
  destruct (nnx.state_filter flt σ [] node) as [stt|] eqn:Hf; simpl.
  - left. by eapply state_filter_sub.
  - right. destruct node as [r|k cs]; [|done]. split; [by exists r|done].
Qed.

(** What [nnx.update] does to the model, given the new parameters have
    the structure of the state they were computed from. *)
Lemma model_update_write_tree model (flt : Filter) (σ0 σ σ' : store) np :
  wf_keys model →
  tree_rel (λ _ _, True) (nnx.state model flt σ0) np →
  nnx.update model np σ = Some σ' →
  write_tree (nnx.state model flt σ0) np σ = Some σ'
  ∧ sub_tree (nnx.state model flt σ0) model.
Proof.
  intros Hwf Hrel Hup.
  destruct (state_sub_or flt σ0 model) as [Hsub|[[r ->] Hst]].
  - split; [|done]. by rewrite <- (nnx_update_write_tree model _ np σ Hwf Hsub Hrel).
  - rewrite Hst in Hrel. inversion Hrel; subst. done.
Qed.

Lemma Optimizer_call_params self grads kwargs (σ : store) c updates new_params :
  Optimizer.update_call self grads kwargs σ = Some c →
  optax.apply_updates (call_params c) updates = Some new_params →
  tree_rel (holds σ) (nnx.state (Optimizer.model self) (Optimizer.wrt self) σ)
    (call_params c)
  ∧ tree_rel (λ _ _, True)
      (nnx.state (Optimizer.model self) (Optimizer.wrt self) σ) new_params.
Proof.
  intros (ka & Hp & _)%Optimizer_update_call_inv Hap.
  apply nnx_pure_refs in Hp. split; [done|].
  apply apply_updates_structure in Hap.
  eapply tree_rel_impl; [|by eapply tree_rel_compose]. done.
Qed.

(** C4: a successful [Optimizer.update] assigns in place.  Every object
    of the store is the same object after the call, of the same class and
    metadata; only Variables of the model, of [opt_state] and the counter
    can hold another value.  The trainable Variables hold the new
    parameters, the Variables of [opt_state] the new optimizer state (when
    the transformation returned a state of that structure), [step] has
    gone up by one, and the call returns nothing. *)
Theorem Optimizer_update_in_place self grads kwargs (σ : store) u σ' :
  wf_keys (Optimizer.model self) →
  wf_keys (Optimizer.opt_state self) →
  NoDup (tree_leaves (Optimizer.model self)
         ++ tree_leaves (Optimizer.opt_state self) ++ [Optimizer.step self]) →
  Optimizer.update self grads kwargs σ = Some (u, σ') →
  u = tt
  ∧ dom σ' = dom σ
  ∧ writes (refs (Optimizer.model self) ∪ refs (Optimizer.opt_state self)
              ∪ {[Optimizer.step self]}) σ σ'
  ∧ ∃ c updates new_opt_state new_params n,
      Optimizer.update_call self grads kwargs σ = Some c
      ∧ tx_update (Optimizer.tx self) c = Some (updates, new_opt_state)
      ∧ optax.apply_updates (call_params c) updates = Some new_params
      ∧ tree_rel (holds σ')
          (nnx.state (Optimizer.model self) (Optimizer.wrt self) σ) new_params
      ∧ (tree_rel (λ _ _, True) (Optimizer.opt_state self) new_opt_state →
         tree_rel (holds σ') (Optimizer.opt_state self) new_opt_state)
      ∧ holds σ (Optimizer.step self) n
      ∧ holds σ' (Optimizer.step self) (uint32_add n 1).
Proof.
  intros Hwfm Hwfo Hnd Hup.
  apply NoDup_app in Hnd as (Hndm & Hdm & Hnd).
  apply NoDup_app in Hnd as (Hndo & Hdo & _).
  assert (Optimizer.step self ∉ refs (Optimizer.model self)
                                 ∪ refs (Optimizer.opt_state self)) as Hstep.
  { unfold refs. rewrite not_elem_of_union, !elem_of_list_to_set. split.
    - intros Hin. apply (Hdm _ Hin). apply elem_of_app. right. by left.
    - intros Hin. apply (Hdo _ Hin). by left. }
  destruct (Optimizer_update_writes _ _ _ _ _ _ Hup) as [Hw Hst].
  destruct (Hst Hstep) as (n & Hn & Hn').
  split; [by destruct u|]. split; [by eapply writes_dom|]. split; [done|].
  apply Optimizer_update_inv in Hup
    as (c & updates & nos & np & σ1 & σ2 & Hc & Htx & Hap & H1 & H2 & H3).
  exists c, updates, nos, np, n. do 3 (split; [done|]).
  destruct (Optimizer_call_params _ _ _ _ _ _ _ Hc Hap) as [_ Hrel].
  destruct (model_update_write_tree _ _ _ _ _ _ Hwfm Hrel H1) as [Hwt Hsub].
  pose proof (nnx_update_writes _ _ _ _ H2) as Hw2.
  apply step_incr_spec in H3 as (_ & _ & _ & Hw3).
  split; [|split; [|done]].
  - apply write_tree_holds in Hwt; [|by eapply sub_tree_NoDup].
    eapply tree_rel_impl_strong; [|exact Hwt].
    intros r a Hr Hh. unfold holds, Variable_getitem in *.
    assert (r ∈ tree_leaves (Optimizer.model self)) as Hrm.
    { eapply elem_of_sublist; [done|]. by apply sub_tree_leaves. }
    rewrite (writes_frame _ _ _ r Hw3), (writes_frame _ _ _ r Hw2); [done|..].
    + unfold refs. rewrite elem_of_list_to_set. intros Hin.
      apply (Hdm _ Hrm). apply elem_of_app. by left.
    + rewrite elem_of_singleton. intros ->. apply (Hdm _ Hrm).
      apply elem_of_app. right. by left.
  - intros Hrelo.
    rewrite (nnx_update_write_tree _ _ _ _ Hwfo (sub_tree_refl _) Hrelo) in H2.
    apply write_tree_holds in H2; [|done].
    eapply tree_rel_impl_strong; [|exact H2].
    intros r a Hr Hh. unfold holds, Variable_getitem in *.
    rewrite (writes_frame _ _ _ r Hw3); [done|].
    rewrite elem_of_singleton. intros ->. apply (Hdo _ Hr). by left.
Qed.

End update.

(** ** The counter wraps *)

#[local] Existing Instance type_filter.

Lemma optS_init : Optimizer.__init__ modelS sgd Param σS = Some (optS, σS1).
Proof. vm_compute. reflexivity. Qed.

Lemma storeS_init : storeS σS1.
Proof. exists 5, 9, 0. by vm_compute. Qed.

Lemma optS_update (σ : store) :
  storeS σ → ∃ σ', Optimizer.update optS gradsS [] σ = Some (tt, σ') ∧ storeS σ'.
Proof.
  intros (a0 & a1 & n & H0 & H1 & H2).
  assert (nnx.selected Param σ ["w"] 0%nat = true) as Hs0.
  { unfold nnx.selected. by rewrite H0. }
  assert (nnx.selected Param σ ["stat"] 1%nat = false) as Hs1.
  { unfold nnx.selected. by rewrite H1. }
  eexists. split.
  - unfold Optimizer.update, Optimizer.update_call, nnx.state, nnx.freeze, nnx.pure.
    cbn -[Variable_getitem Variable_setitem step_incr].
    rewrite Hs0, Hs1. cbn -[Variable_getitem Variable_setitem step_incr].
    unfold Variable_getitem at 1. rewrite H0.
    cbn -[Variable_getitem Variable_setitem step_incr].
    rewrite !decide_True by done.
    cbn -[Variable_getitem Variable_setitem step_incr].
    rewrite !decide_True by done.
    cbn -[Variable_getitem Variable_setitem step_incr].
    unfold Variable_setitem at 1. rewrite H0.
    cbn -[Variable_getitem Variable_setitem step_incr lookup insert].
    unfold step_incr, Variable_getitem, Variable_setitem.
    rewrite !lookup_insert_ne, H2 by done.
    cbn -[lookup insert]. reflexivity.
  - eexists _, a1, _. rewrite lookup_insert_ne, lookup_insert_eq by done.
    split; [reflexivity|]. rewrite !lookup_insert_ne by done. split; [done|].
    by rewrite lookup_insert_eq.
Qed.

Lemma optS_updates (N : nat) (σ : store) :
  storeS σ → ∃ σN, Optimizer_updates optS (replicate N (gradsS, [])) σ = Some σN.
Proof.
  revert σ. induction N as [|N IH]; intros σ Hσ; simpl.
  - by eexists.
  - destruct (optS_update σ Hσ) as (σ' & -> & Hσ'). simpl. by apply IH.
Qed.

Lemma Optimizer_step_counts {Filter : Type} `{!FilterLib Filter VariableState}
    model tx (wrt : Filter) (σ0 σ1 σN : store) self calls :
  closed σ0 model →
  Optimizer.__init__ model tx wrt σ0 = Some (self, σ1) →
  Optimizer_updates self calls σ1 = Some σN →
  holds σ1 (Optimizer.step self) 0
  ∧ holds σN (Optimizer.step self) (Z.of_nat (length calls) mod 2 ^ 32).
Proof.
  intros Hcl Hinit Hups.
  apply Optimizer_init_spec in Hinit as (Hs & Hm & _ & _ & Hsub & _ & Hfr).
  pose proof (is_fresh (dom σ0)) as Hfresh.
  assert (holds σ1 (Optimizer.step self) 0) as Hs1.
  { unfold holds, Variable_getitem. rewrite Hs.
    erewrite (lookup_weaken _ σ1); [|by apply lookup_insert_eq|done]. done. }
  split; [done|].
  apply (Optimizer_updates_step self calls σ1 σN 0); [|done|done].
  unfold refs. rewrite not_elem_of_union, !elem_of_list_to_set, Hs, Hm. split.
  - intros Hin. by apply Hfresh, Hcl.
  - intros Hin. by destruct (Hfr _ Hin) as (_ & ? & _).
Qed.

Lemma PytreeOptimizer_step_counts params tx (σ0 σ1 σN : store) self calls :
  PytreeOptimizer.__init__ params tx σ0 = Some (self, σ1) →
  Forall (λ call, PytreeOptimizer.step self ∉ refs call.1.1) calls →
  PytreeOptimizer_updates self calls σ1 = Some σN →
  holds σ1 (PytreeOptimizer.step self) 0
  ∧ holds σN (PytreeOptimizer.step self) (Z.of_nat (length calls) mod 2 ^ 32).
Proof.
  intros Hinit Hcalls Hups.
  apply PytreeOptimizer_init_spec in Hinit as (Hs & _ & Hsub & _ & Hfr).
  assert (holds σ1 (PytreeOptimizer.step self) 0) as Hs1.
  { unfold holds, Variable_getitem. rewrite Hs.
    erewrite (lookup_weaken _ σ1); [|by apply lookup_insert_eq|done]. done. }
  split; [done|].
  apply (PytreeOptimizer_updates_step self calls σ1 σN 0); [|done|done|done].
  unfold refs. rewrite elem_of_list_to_set, Hs.
  intros Hin. by destruct (Hfr _ Hin) as (_ & ? & _).
Qed.


Lemma closed_modelS : closed σS modelS.
Proof.
  intros r Hr. apply elem_of_dom.
  apply elem_of_cons in Hr as [->|Hr]; [by eexists|].
  apply elem_of_cons in Hr as [->|Hr]; [by eexists|].
  by apply elem_of_nil in Hr.
Qed.



(** ** Zero gradients *)

Lemma neg_tree_zero g :
  Forall (λ x, x = 0) (tree_leaves g) → Forall (λ x, x = 0) (tree_leaves (neg_tree g)).
Proof.
  unfold neg_tree. rewrite tree_leaves_map, Forall_fmap.
  intros H. eapply Forall_impl; [exact H|]. intros x ->. done.
Qed.

Lemma sgd_zero_preserving : zero_preserving sgd.
Proof.
  intros c updates nos. unfold tx_update. simpl. intros [= <- <-]. apply neg_tree_zero.
Qed.

Lemma wf_keys_modelS : wf_keys modelS.
Proof.
  simpl. split; [|done]. apply (bool_decide_unpack _). vm_compute. exact I.
Qed.



(** ** The updates in place and [to_opt_state], on the example model *)

Lemma Optimizer_update_in_place_witness :
  tt = tt
  ∧ dom σT2 = dom σT1
  ∧ writes (refs (Optimizer.model optT) ∪ refs (Optimizer.opt_state optT)
              ∪ {[Optimizer.step optT]}) σT1 σT2
  ∧ ∃ c updates new_opt_state new_params n,
      Optimizer.update_call optT gradsS [] σT1 = Some c
      ∧ tx_update (Optimizer.tx optT) c = Some (updates, new_opt_state)
      ∧ optax.apply_updates (call_params c) updates = Some new_params
      ∧ tree_rel (holds σT2)
          (nnx.state (Optimizer.model optT) (Optimizer.wrt optT) σT1) new_params
      ∧ (tree_rel (λ _ _, True) (Optimizer.opt_state optT) new_opt_state →
         tree_rel (holds σT2) (Optimizer.opt_state optT) new_opt_state)
      ∧ holds σT1 (Optimizer.step optT) n
      ∧ holds σT2 (Optimizer.step optT) (uint32_add n 1).
Proof.
  apply (Optimizer_update_in_place (FilterLib0 := type_filter) optT gradsS [] σT1 tt σT2).
  - exact wf_keys_modelS.
  - simpl. repeat split; apply (bool_decide_unpack _); vm_compute; exact I.
  - apply (bool_decide_unpack _). vm_compute. exact I.
  - vm_compute. reflexivity.
Defined.

Lemma to_opt_state_spec_witness :
  ∃ tree' σ',
    to_opt_state stateS σS = Some (tree', σ')
    ∧ tree_shape tree' = tree_shape stateS
    ∧ Forall2 (opt_leaf σS σ') (tree_leaves stateS) (tree_leaves tree')
    ∧ NoDup (tree_leaves tree')
    ∧ (∀ r, r ∈ dom σS → σ' !! r = σS !! r).
Proof.
  apply (to_opt_state_spec stateS σS).
  intros r Hr. apply elem_of_dom.
  apply elem_of_cons in Hr as [[=]|Hr].
  apply elem_of_cons in Hr as [[= ->]|Hr]; [by eexists|].
  by apply elem_of_nil in Hr.
Defined.

(** ** The keyword arguments *)

#[local] Existing Instance type_filter.

Lemma PytreeOptimizer_update_call_inv self params grads kwargs (σ : store) c :
  PytreeOptimizer.update_call self params grads kwargs σ = Some c →
  nnx.pure (tree_map OVar params) σ = Some (call_params c)
  ∧ nnx.pure grads σ = Some (call_grads c)
  ∧ nnx.pure (tree_map OVar (PytreeOptimizer.opt_state self)) σ = Some (call_opt_state c)
  ∧ mapM (λ kw, pair kw.1 <$> view kw.2 σ) kwargs = Some (call_kwargs c).
Proof.
  unfold PytreeOptimizer.update_call, nnx.freeze. intros H.
  destruct (nnx.pure (tree_map OVar params) σ) as [pa|] eqn:E1; simpl in H; [|done].
  destruct (nnx.pure grads σ) as [ga|] eqn:E2; simpl in H; [|done].
  destruct (nnx.pure (tree_map OVar (PytreeOptimizer.opt_state self)) σ) as [oa|] eqn:E3;
    simpl in H; [|done].
  destruct (mapM _ kwargs) as [ka|] eqn:E4; simpl in H; [|done].
  injection H as <-. simpl. by repeat split.
Qed.

Lemma Forall2_elem_of_l {A B : Type} (R : A → B → Prop) l k x :
  Forall2 R l k → x ∈ l → ∃ y, y ∈ k ∧ R x y.
Proof.
  induction 1 as [|a b l k Hab _ IH]; intros Hin.
  - by apply elem_of_nil in Hin.
  - apply elem_of_cons in Hin as [->|Hin].
    + exists b. split; [by left|done].
    + destruct (IH Hin) as (y & ? & ?). exists y. split; [by right|done].
Qed.



(** ** [Optimizer] and [PytreeOptimizer] side by side *)

Lemma sim_lookup_ne s (σ σ' : store) r : sim s σ σ' → r ≠ s → σ !! r = σ' !! r.
Proof. intros H Hr. specialize (H r). by rewrite decide_False in H. Qed.

Lemma sim_raw s (σ σ' : store) r :
  sim s σ σ' → raw_value <$> σ !! r = raw_value <$> σ' !! r.
Proof.
  intros H. specialize (H r). destruct (decide (r = s)); [done|]. by rewrite H.
Qed.

Lemma sim_dom s (σ σ' : store) : sim s σ σ' → dom σ = dom σ'.
Proof.
  intros H. apply set_eq. intros r. rewrite !elem_of_dom.
  pose proof (sim_raw s σ σ' r H) as Hr.
  destruct (σ !! r), (σ' !! r); simpl in Hr; try done; split; intros [? ?]; done.
Qed.

Lemma sim_insert s (σ σ' : store) r v : sim s σ σ' → sim s (<[r := v]> σ) (<[r := v]> σ').
Proof.
  intros H r'. specialize (H r'). destruct (decide (r' = r)) as [->|Hne].
  - rewrite !lookup_insert_eq. by destruct (decide (r = s)).
  - by rewrite !lookup_insert_ne.
Qed.

Lemma sim_insert_raw s (σ σ' : store) r v v' :
  raw_value v = raw_value v' → (r ≠ s → v = v') →
  sim s σ σ' → sim s (<[r := v]> σ) (<[r := v']> σ').
Proof.
  intros Hraw Hv H r'. specialize (H r'). destruct (decide (r' = r)) as [->|Hne].
  - rewrite !lookup_insert_eq. destruct (decide (r = s)); simpl; [by rewrite Hraw|].
    by rewrite Hv.
  - by rewrite !lookup_insert_ne.
Qed.

Lemma sim_new_leaf s x (σ σ' : store) y σ1 :
  True → sim s σ σ' → new_leaf x σ = Some (y, σ1) →
  ∃ σ1', new_leaf x σ' = Some (y, σ1') ∧ sim s σ1 σ1'.
Proof.
  intros _ H. destruct x as [a|v]; simpl.
  - intros [= <- <-]. eauto.
  - intros [= <- <-]. rewrite <- (sim_dom s σ σ' H). eexists. split; [done|].
    by apply sim_insert.
Qed.

Lemma sim_to_opt_state_leaf s x (σ σ' : store) r' σ1 :
  x ≠ OVar s → sim s σ σ' → _to_opt_state x σ = Some (r', σ1) →
  ∃ σ1', _to_opt_state x σ' = Some (r', σ1') ∧ sim s σ1 σ1'.
Proof.
  intros Hx H. unfold _to_opt_state, Variable_getitem, get_metadata, Variable_new.
  rewrite <- (sim_dom s σ σ' H).
  destruct x as [a|r]; simpl.
  - intros [= <- <-]. eexists. split; [done|]. by apply sim_insert.
  - rewrite <- (sim_lookup_ne s σ σ' r H) by congruence.
    destruct (σ !! r) as [v|]; simpl; [|done].
    intros [= <- <-]. eexists. split; [done|]. by apply sim_insert.
Qed.

Lemma sim_setitem s r a (σ σ' : store) σ1 :
  sim s σ σ' → Variable_setitem r a σ = Some σ1 →
  ∃ σ1', Variable_setitem r a σ' = Some σ1' ∧ sim s σ1 σ1'.
Proof.
  intros H. unfold Variable_setitem.
  pose proof (H r) as Hr.
  destruct (σ !! r) as [v|] eqn:Hv; simpl; [|done]. intros [= <-].
  destruct (σ' !! r) as [v'|] eqn:Hv'.
  - simpl. eexists. split; [done|]. apply sim_insert_raw; [done| |done].
    intros Hne. rewrite decide_False in Hr by done. congruence.
  - destruct (decide (r = s)); done.
Qed.

Lemma sim_update_variable s param (value : pytree array) (σ σ' : store) (c : unit) σ1 :
  True → sim s σ σ' → PytreeOptimizer._update_variable param value σ = Some (c, σ1) →
  ∃ σ1', PytreeOptimizer._update_variable param value σ' = Some (c, σ1') ∧ sim s σ1 σ1'.
Proof.
  intros _ H. unfold PytreeOptimizer._update_variable.
  destruct value as [a|]; [|done].
  destruct (Variable_setitem param a σ) as [σ2|] eqn:Hs; simpl; [|done].
  intros [= <- <-].
  destruct (sim_setitem _ _ _ _ _ _ H Hs) as (σ2' & -> & ?). simpl. eauto.
Qed.

Lemma sim_write_tree s t st (σ σ' : store) σ1 :
  sim s σ σ' → write_tree t st σ = Some σ1 →
  ∃ σ1', write_tree t st σ' = Some σ1' ∧ sim s σ1 σ1'.
Proof.
  intros H. unfold write_tree.
  destruct (tree_map2M _ t st σ) as [[out σ2]|] eqn:Hw; simpl; [|done].
  intros [= <-].
  destruct (tree_map2M_sim PytreeOptimizer._update_variable (λ _, True) (sim s)
              (sim_update_variable s) t st σ σ' out σ2) as (σ2' & -> & ?);
    [by apply Forall_forall|done|done|].
  simpl. eauto.
Qed.

Lemma sim_step_incr s r (σ σ' : store) σ1 :
  sim s σ σ' → step_incr r σ = Some σ1 →
  ∃ σ1', step_incr r σ' = Some σ1' ∧ sim s σ1 σ1'.
Proof.
  intros H. unfold step_incr, Variable_getitem.
  rewrite <- (sim_raw s σ σ' r H).
  destruct (raw_value <$> σ !! r) as [n|]; simpl; [|done].
  by apply sim_setitem.
Qed.

Lemma new_leaves_fresh xs (σ : store) ys σ' :
  leaves_mapM new_leaf xs σ = Some (ys, σ') →
  Forall (λ y, ∀ r, y = OVar r → r ∉ dom σ) ys.
Proof.
  revert σ ys σ'. induction xs as [|x xs IH]; intros σ ys σ'; simpl.
  - intros [= <- <-]. constructor.
  - destruct (new_leaf x σ) as [[y σ1]|] eqn:Hx; simpl; [|done].
    destruct (leaves_mapM new_leaf xs σ1) as [[ys' σ2]|] eqn:Hxs; simpl; [|done].
    intros [= <- <-].
    assert (σ ⊆ σ1 ∧ ∀ r, y = OVar r → r ∉ dom σ) as [Hsub Hy].
    { destruct x as [a|v]; simpl in Hx; injection Hx as <- <-.
      - split; [done|]. intros r [=].
      - split.
        + apply insert_subseteq, not_elem_of_dom, is_fresh.
        + intros r [= <-]. apply is_fresh. }
    constructor; [done|].
    eapply Forall_impl; [by eapply IH|]. simpl. intros y' Hy' r -> Hin.
    apply (Hy' r eq_refl). by apply (subseteq_dom σ σ1).
Qed.

Lemma write_tree_tuple2 t1 t2 s1 s2 (σ : store) :
  write_tree (tuple2 t1 t2) (tuple2 s1 s2) σ
  = σ1 ← write_tree t1 s1 σ; write_tree t2 s2 σ1.
Proof.
  unfold tuple2. rewrite write_tree_node, decide_True by done.
  rewrite children2M_cons, decide_True by done. unfold write_tree.
  destruct (snd <$> tree_map2M PytreeOptimizer._update_variable t1 s1 σ) as [σ1|];
    cbn [mbind option_bind]; [|done].
  rewrite children2M_cons, decide_True by done.
  destruct (snd <$> tree_map2M PytreeOptimizer._update_variable t2 s2 σ1) as [σ2|];
    simpl; done.
Qed.

Lemma tx_call_eq (c c' : tx_call) :
  call_grads c = call_grads c' → call_opt_state c = call_opt_state c' →
  call_params c = call_params c' → call_kwargs c = call_kwargs c' → c = c'.
Proof. destruct c, c'. simpl. by intros -> -> -> ->. Qed.

Section agree.
Context {Filter : Type} `{!FilterLib Filter VariableState}.

Lemma state_leaves_model (flt : Filter) (σ : store) model r :
  r ∈ tree_leaves (nnx.state model flt σ) → r ∈ tree_leaves model.
Proof.
  destruct (state_sub_or flt σ model) as [Hsub|[_ ->]].
  - intros Hr. eapply elem_of_sublist; [done|]. by apply sub_tree_leaves.
  - simpl. intros Hr. by apply elem_of_nil in Hr.
Qed.

(** C6: an [Optimizer] on a model and a [PytreeOptimizer] on the
    filtered state of that model, built from the same store with the same
    filter and [tx], and updated once with the same gradients and no
    keyword arguments: the two have the same [opt_state] tree, and after
    the update every Variable of the model and every Variable of
    [opt_state] holds the same contents in the two stores, and the two
    counters the same value. *)
Theorem optimizers_agree model tx (wrt : Filter) (σ0 σ1 σ1' σ2 σ2' : store)
    self pself grads u u' :
  closed σ0 model →
  wf_keys model →
  Forall (obj_closed σ0) (tree_leaves grads) →
  Optimizer.__init__ model tx wrt σ0 = Some (self, σ1) →
  PytreeOptimizer.__init__ (nnx.state model wrt σ0) tx σ0 = Some (pself, σ1') →
  wf_keys (Optimizer.opt_state self) →
  Optimizer.update self grads [] σ1 = Some (u, σ2) →
  PytreeOptimizer.update pself (nnx.state model wrt σ0) grads [] σ1' = Some (u', σ2') →
  PytreeOptimizer.opt_state pself = Optimizer.opt_state self
  ∧ (∀ r, r ∈ tree_leaves model → σ2 !! r = σ2' !! r)
  ∧ (∀ r, r ∈ tree_leaves (Optimizer.opt_state self) → σ2 !! r = σ2' !! r)
  ∧ Variable_getitem (Optimizer.step self) σ2
    = Variable_getitem (PytreeOptimizer.step pself) σ2'.
Proof.
  intros Hcl Hwf Hg Hinit Hpinit Hwfo Hup Hpup.
  pose proof (is_fresh (dom σ0)) as Hfresh.
  pose proof (init_wf := Optimizer_init_spec _ _ _ _ _ _ Hinit).
  destruct init_wf as (Hs & Hm & Htx & Hwrt & Hsub & _ & Hfr).
  unfold Optimizer.__init__, Variable_new, nnx.data in Hinit. cbv zeta in Hinit.
  unfold PytreeOptimizer.__init__, Variable_new, nnx.data, nnx.freeze in Hpinit.
  cbv zeta in Hpinit.
  remember (fresh (dom σ0)) as s eqn:Es in *.
  remember (<[s := mkVariable OptState 0 ∅]> σ0) as σa eqn:Ea in *.
  remember (<[s := mkVariable OptArray 0 ∅]> σ0) as σa' eqn:Ea' in *.
  assert (sim s σa σa') as Hsim0.
  { subst σa σa'. apply sim_insert_raw; [done|done|]. intros r.
    by destruct (decide (r = s)). }
  assert (∀ r, r ∈ tree_leaves model → r ≠ s ∧ r ∈ dom σ0) as Hmodel.
  { intros r Hr. pose proof (Hcl r Hr). split; [|done]. by intros ->. }
  assert (σ0 ⊆ σa) as H0a.
  { subst σa. by apply insert_subseteq, not_elem_of_dom. }
  assert (nnx.state model wrt σa = nnx.state model wrt σ0) as HP.
  { apply state_ext. intros r Hr. apply subseteq_lookup_dom; [done|].
    by apply Hmodel. }
  rewrite HP in Hinit.
  assert (view (tree_map OVar (nnx.state model wrt σ0)) σa
          = view (tree_map OVar (nnx.state model wrt σ0)) σa') as Hview.
  { apply view_ext. intros r Hr%elem_of_leaves_OVar%state_leaves_model.
    apply (sim_lookup_ne s); [done|]. by apply Hmodel. }
  rewrite Hview in Hinit.
  destruct (view (tree_map OVar (nnx.state model wrt σ0)) σa') as [pv|];
    simpl in Hinit, Hpinit; [|done].
  destruct (new_tree (optax.init tx pv) σa) as [[st0 σb]|] eqn:En;
    simpl in Hinit; [|done].
  destruct (to_opt_state st0 σb) as [[os σc]|] eqn:Eo; simpl in Hinit; [|done].
  injection Hinit as <- <-.
  destruct (tree_mapM_sim new_leaf (λ _, True) (sim s) (sim_new_leaf s)
              (optax.init tx pv) σa σa' st0 σb) as (σb' & En' & Hsimb);
    [by apply Forall_forall|done|done|].
  unfold new_tree in Hpinit. rewrite En' in Hpinit. simpl in Hpinit.
  assert (s ∈ dom σa) as Hsa.
  { subst σa. rewrite dom_insert_L. set_solver. }
  destruct (tree_mapM_sim _to_opt_state (λ x, x ≠ OVar s) (sim s)
              (sim_to_opt_state_leaf s) st0 σb σb' os σc) as (σc' & Eo' & Hsimc);
    [|done|done|].
  { pose proof (new_leaves_fresh _ _ _ _ (tree_mapM_leaves _ _ _ _ _ En)) as Hfr0.
    eapply Forall_impl; [exact Hfr0|]. simpl. intros y Hy ->.
    by apply (Hy s eq_refl). }
  unfold to_opt_state in Hpinit. rewrite Eo' in Hpinit. simpl in Hpinit.
  injection Hpinit as <- <-. simpl in *.
  split; [done|].
  assert (σ0 ⊆ σc) as H0c.
  { etrans; [exact H0a|]. subst σa. exact Hsub. }
  assert (∀ r, r ∈ tree_leaves os → r ≠ s) as Hos.
  { intros r Hr. by destruct (Hfr r Hr) as (_ & ? & _). }
  clear Es Ea Ea'.
  (* the two updates *)
  apply Optimizer_update_inv in Hup
    as (c & updates & nos & np & σm & σn & Hc & Htxc & Hap & H1 & H2 & H3).
  apply PytreeOptimizer_update_inv in Hpup
    as (c' & updates' & nos' & np' & σw' & Hc' & Htxc' & Hap' & Hw' & H3').
  simpl in *.
  assert (nnx.state model wrt σc = nnx.state model wrt σ0) as HPc.
  { apply state_ext. intros r Hr. apply subseteq_lookup_dom; [done|].
    by apply Hmodel. }
  pose proof (Optimizer_call_params _ _ _ _ _ _ _ Hc Hap) as [_ Hrel].
  simpl in Hrel. rewrite HPc in Hrel.
  assert (c' = c) as ->.
  { apply Optimizer_update_call_inv in Hc as (ka & Hp & Hgr & Hoa & Hka & Hkw).
    apply PytreeOptimizer_update_call_inv in Hc' as (Hp' & Hgr' & Hoa' & Hkw').
    simpl in *. injection Hka as <-. injection Hkw' as Hkw'.
    rewrite HPc in Hp.
    apply tx_call_eq.
    - rewrite (nnx_pure_ext grads σc σc') in Hgr; [congruence|].
      intros r Hr. apply (sim_lookup_ne s); [done|].
      rewrite Forall_forall in Hg. specialize (Hg _ Hr). simpl in Hg.
      intros ->. done.
    - rewrite (nnx_pure_ext _ σc σc') in Hoa; [congruence|].
      intros r Hr%elem_of_leaves_OVar. apply (sim_lookup_ne s); [done|]. by apply Hos.
    - rewrite (nnx_pure_ext _ σc σc') in Hp; [congruence|].
      intros r Hr%elem_of_leaves_OVar%state_leaves_model.
      apply (sim_lookup_ne s); [done|]. by apply Hmodel.
    - by rewrite Hkw, <- Hkw'. }
  rewrite Htxc in Htxc'. injection Htxc' as <- <-.
  rewrite Hap in Hap'. injection Hap' as <-.
  (* the writes *)
  pose proof (write_tree_structure _ _ _ _ Hw') as Hstr.
  inversion Hstr as [|k cs ds Hcs]; subst.
  inversion Hcs as [|x1 y1 l1 l1' [_ Hrel1] Hcs2]; subst.
  inversion Hcs2 as [|x2 y2 l2 l2' [_ Hrel2] _]; subst. simpl in Hrel1, Hrel2.
  destruct (model_update_write_tree _ _ _ _ _ _ Hwf Hrel H1) as [Hwt1 _].
  rewrite (nnx_update_write_tree _ _ _ _ Hwfo (sub_tree_refl _) Hrel2) in H2.
  assert (write_tree (tuple2 (nnx.state model wrt σ0) os) (tuple2 np nos) σc = Some σn)
    as Hwt.
  { rewrite write_tree_tuple2, Hwt1. done. }
  destruct (sim_write_tree s _ _ _ _ _ Hsimc Hwt) as (σn' & Hwt' & Hsimn).
  rewrite Hw' in Hwt'. injection Hwt' as ->.
  destruct (sim_step_incr s s _ _ _ Hsimn H3) as (σ2'' & H3'' & Hsim2).
  rewrite H3' in H3''. injection H3'' as ->.
  split; [|split].
  - intros r Hr. apply (sim_lookup_ne s); [done|]. by apply Hmodel.
  - intros r Hr. apply (sim_lookup_ne s); [done|]. by apply Hos.
  - unfold Variable_getitem. by apply (sim_raw s).
Qed.
End agree.

#[local] Existing Instance type_filter.

Lemma optimizers_agree_witness :
  PytreeOptimizer.opt_state poptT = Optimizer.opt_state optT
  ∧ (∀ r, r ∈ tree_leaves modelS → σT2 !! r = σP2 !! r)
  ∧ (∀ r, r ∈ tree_leaves (Optimizer.opt_state optT) → σT2 !! r = σP2 !! r)
  ∧ Variable_getitem (Optimizer.step optT) σT2
    = Variable_getitem (PytreeOptimizer.step poptT) σP2.
Proof.
  apply (optimizers_agree (FilterLib0 := type_filter)
           modelS trace Param σS σT1 σP1 σT2 σP2 optT poptT gradsS tt tt).
  - exact closed_modelS.
  - exact wf_keys_modelS.
  - repeat constructor.
  - vm_compute. reflexivity.
  - vm_compute. reflexivity.
  - simpl. repeat split; apply (bool_decide_unpack _); vm_compute; exact I.
  - vm_compute. reflexivity.
  - vm_compute. reflexivity.
Defined.

(** * The lifted [jit]: identity across the pure boundary *)

Lemma tree_rel_tuple2 {A B : Type} (R : A → B → Prop) a b t :
  tree_rel R (tuple2 a b) t →
  ∃ a' b', t = tuple2 a' b' ∧ tree_rel R a a' ∧ tree_rel R b b'.
Proof.
  intros H. inversion H as [|k cs ds Hcs]; subst.
  inversion Hcs as [|x1 [k1 a'] l1 l1' [Hk1 Ha] Hcs2]; subst.
  inversion Hcs2 as [|x2 [k2 b'] l2 l2' [Hk2 Hb] Hcs3]; subst.
  inversion Hcs3; subst. simpl in *. subst. by exists a', b'.
Qed.

Lemma tree_rel_tuple3 {A B : Type} (R : A → B → Prop) a b c t :
  tree_rel R (tuple3 a b c) t →
  ∃ a' b' c', t = tuple3 a' b' c' ∧ tree_rel R a a' ∧ tree_rel R b b' ∧ tree_rel R c c'.
Proof.
  intros H. inversion H as [|k cs ds Hcs]; subst.
  inversion Hcs as [|x1 [k1 a'] l1 l1' [Hk1 Ha] Hcs2]; subst.
  inversion Hcs2 as [|x2 [k2 b'] l2 l2' [Hk2 Hb] Hcs3]; subst.
  inversion Hcs3 as [|x3 [k3 c'] l3 l3' [Hk3 Hc] Hcs4]; subst.
  inversion Hcs4; subst. simpl in *. subst. by exists a', b', c'.
Qed.

Lemma with_paths_from_rel {A : Type} path (t : pytree A) :
  tree_rel (λ a x, x.2 = a) t (with_paths_from path t).
Proof.
  revert path. induction t as [a|k cs IH] using pytree_induction; intros path; simpl.
  - by constructor.
  - constructor. induction cs as [|c cs IHl]; simpl; [constructor|].
    apply Forall_cons in IH as [Hc Hcs]. constructor; [|by apply IHl].
    split; [done|]. simpl. apply Hc.
Qed.

Lemma broadcast_prefix_rel {P A : Type} (p : pytree P) (t : pytree A) l :
  broadcast_prefix p t = Some l → tree_rel (λ a x, x.2 = a) t l.
Proof.
  revert t l. induction p as [a|k ps IH] using pytree_induction; intros t l; simpl.
  - intros [= <-]. eapply tree_rel_impl; [|apply tree_rel_map_l].
    by intros x y ->.
  - destruct t as [|k' cs]; [done|].
    destruct (broadcast_children broadcast_prefix ps cs) as [ds|] eqn:Hb; [|done].
    simpl. intros [= <-]. constructor.
    revert cs ds Hb. induction ps as [|[kp p] ps IHl]; intros cs ds; simpl.
    + destruct cs; [|done]. intros [= <-]. constructor.
    + apply Forall_cons in IH as [Hp Hps]. destruct cs as [|[key c] cs]; [done|].
      destruct (broadcast_prefix p c) as [c'|] eqn:Hc; [|done]. simpl.
      destruct (broadcast_children broadcast_prefix ps cs) as [cs'|] eqn:Hcs; [|done].
      simpl. intros [= <-]. constructor; [|by apply IHl].
      split; [done|]. simpl. by apply Hp.
Qed.

Lemma clear_non_graph_nodes_leaves t x :
  JNode x ∈ tree_leaves t → JNode x ∈ tree_leaves (extract.clear_non_graph_nodes t).
Proof.
  induction t as [a|k cs IH] using pytree_induction; simpl.
  - destruct a; [|done]. intros H. apply elem_of_cons in H as [?|H]; [done|].
    by apply elem_of_nil in H.
  - induction cs as [|c cs IHl]; simpl; [done|].
    apply Forall_cons in IH as [Hc Hcs].
    rewrite !elem_of_app. intros [?|?]; [left; by apply Hc|right; by apply IHl].
Qed.

(** Any traversal relates the two trees leaf by leaf. *)
Lemma tree_mapM_rel {A B S : Type} (f : A → S → option (B * S)) t s t' s' :
  tree_mapM f t s = Some (t', s') →
  tree_rel (λ a b, ∃ s1 s2, f a s1 = Some (b, s2)) t t'.
Proof.
  intros H.
  assert (PreOrder (λ _ _ : S, True)) as HP by (split; done).
  destruct (tree_mapM_spec f (λ _, True) (λ _ _, True) (λ _ _ _ _ _ _, I) t s t' s')
    as [_ Hrel]; [by apply Forall_forall|done|].
  eapply tree_rel_impl; [|done]. intros a b (s1 & s2 & _ & ? & _). eauto.
Qed.

Lemma tree_rel_elem_of {A B : Type} (R : A → B → Prop) t t' a :
  tree_rel R t t' → a ∈ tree_leaves t → ∃ b, b ∈ tree_leaves t' ∧ R a b.
Proof.
  intros H%tree_rel_leaves Ha.
  apply list_elem_of_lookup in Ha as [i Hi].
  destruct (Forall2_lookup_l _ _ _ _ _ H Hi) as (b & Hb & HR).
  exists b. split; [|done]. by eapply list_elem_of_lookup_2.
Qed.

Lemma tree_rel_elem_of_r {A B : Type} (R : A → B → Prop) t t' b :
  tree_rel R t t' → b ∈ tree_leaves t' → ∃ a, a ∈ tree_leaves t ∧ R a b.
Proof.
  intros H%tree_rel_leaves Hb.
  apply list_elem_of_lookup in Hb as [i Hi].
  destruct (Forall2_lookup_r _ _ _ _ _ H Hi) as (a & Ha & HR).
  exists a. split; [|done]. by eapply list_elem_of_lookup_2.
Qed.

(** ** Identity maps *)

Lemma RefMap_wf_empty : RefMap_wf graph.RefMap_empty.
Proof. intros r i. simpl. by rewrite !lookup_empty. Qed.

Lemma RefMap_wf_add r i m :
  RefMap_wf m → graph.ref_index m !! r = None → graph.index_ref m !! i = None →
  RefMap_wf (graph.RefMap_add r i m).
Proof.
  intros Hwf Hr Hi r' i'. simpl.
  destruct (decide (r' = r)) as [->|Hne].
  - rewrite lookup_insert_eq. destruct (decide (i' = i)) as [->|Hni].
    + by rewrite lookup_insert_eq.
    + rewrite lookup_insert_ne by done. split; [congruence|].
      intros H%Hwf. congruence.
  - rewrite lookup_insert_ne by done. destruct (decide (i' = i)) as [->|Hni].
    + rewrite lookup_insert_eq. split; [|congruence].
      intros H%Hwf. congruence.
    + rewrite lookup_insert_ne by done. apply Hwf.
Qed.

Lemma RefMap_incl_add r i m :
  graph.ref_index m !! r = None → graph.index_ref m !! i = None →
  RefMap_incl m (graph.RefMap_add r i m).
Proof. intros Hr Hi. split; simpl; by apply insert_subseteq. Qed.

Lemma RefMap_incl_preorder : PreOrder RefMap_incl.
Proof.
  split.
  - intros m. split; done.
  - intros m1 m2 m3 [? ?] [? ?]. split; by etrans.
Qed.
#[local] Existing Instance RefMap_incl_preorder.

Lemma split_step_preorder : PreOrder split_step.
Proof.
  split.
  - intros m Hwf. split; [done|reflexivity].
  - intros m1 m2 m3 H12 H23 Hwf. destruct (H12 Hwf) as [Hwf2 Hi12].
    destruct (H23 Hwf2) as [Hwf3 Hi23]. split; [done|by etrans].
Qed.
#[local] Existing Instance split_step_preorder.

(** ** The state of a node, split by filters and merged *)

Section split.
Context {Filter : Type} `{!FilterLib Filter VariableState}.

Lemma first_match_lt (fs : list Filter) p v i :
  graph.first_match fs p v = Some i → (i < length fs)%nat.
Proof.
  revert i. induction fs as [|f fs IH]; intros i; simpl; [done|].
  destruct (to_predicate f p v).
  - intros [= <-]. lia.
  - destruct (graph.first_match fs p v) as [j|]; [|done]. simpl.
    intros [= <-]. specialize (IH j eq_refl). lia.
Qed.

Lemma union_list_lookup (l : list State) (st m : State) p v :
  Forall (λ m, m ⊆ st) l → m ∈ l → m !! p = Some v → (⋃ l) !! p = Some v.
Proof.
  intros Hl Hm Hp. induction l as [|m0 l IH]; [by apply elem_of_nil in Hm|].
  apply Forall_cons in Hl as [H0 Hl]. simpl.
  assert (st !! p = Some v) as Hst.
  { apply elem_of_cons in Hm as [->|Hm]; [by eapply lookup_weaken|].
    rewrite Forall_forall in Hl. eapply lookup_weaken; [done|]. by apply Hl. }
  destruct (m0 !! p) as [w|] eqn:Hw.
  - assert (w = v) as ->.
    { pose proof (lookup_weaken _ _ _ _ Hw H0). congruence. }
    by apply lookup_union_Some_l.
  - rewrite lookup_union_r by done. apply IH; [done|].
    apply elem_of_cons in Hm as [->|Hm]; [congruence|done].
Qed.

Lemma union_list_subseteq (l : list State) (st : State) :
  Forall (λ m, m ⊆ st) l → ⋃ l ⊆ st.
Proof.
  induction 1 as [|m l Hm Hl IH]; simpl; [apply map_empty_subseteq|].
  by apply map_union_least.
Qed.

Lemma split_state_merge (fs : list Filter) st states :
  graph.split_state fs st = Some states → graph.merge_states states = st.
Proof.
  unfold graph.split_state, graph.merge_states.
  destruct (decide _) as [Hall|]; [|done]. intros [= <-].
  assert (Forall (λ m : State, m ⊆ st)
            (map (λ i, filter (λ pv, graph.first_match fs pv.1 pv.2 = Some i) st)
                 (seq 0 (length fs)))) as Hsub.
  { apply Forall_forall. intros m Hm. apply list_elem_of_In, in_map_iff in Hm
      as (i & <- & _). apply map_filter_subseteq. }
  apply (anti_symm (⊆)); [by apply union_list_subseteq|].
  apply map_subseteq_spec. intros p v Hp.
  destruct (Hall p v Hp) as [i Hi].
  eapply (union_list_lookup _ st
            (filter (λ pv, graph.first_match fs pv.1 pv.2 = Some i) st)); [done| |].
  - apply list_elem_of_In, in_map_iff. exists i. split; [done|].
    apply in_seq. apply first_match_lt in Hi. lia.
  - by apply map_lookup_filter_Some.
Qed.

Lemma flatten_spec ctx (h : heap) x (fs : option (list Filter)) m gd states m' :
  graph.flatten ctx h x fs m = Some (gd, states, m') →
  ∃ node, h !! x = Some node
    ∧ graph.gd_type gd = node_type node
    ∧ graph.merge_states states = node_state node
    ∧ graph.ref_index m' !! x = Some (graph.gd_index gd)
    ∧ graph.gd_outer_index gd = graph.inner_ref_outer_index ctx !! x
    ∧ split_step m m'.
Proof.
  unfold graph.flatten. destruct (h !! x) as [node|]; [|done]. simpl.
  destruct (match fs with Some fs => _ | None => _ end) as [sts|] eqn:Hst; [|done].
  simpl.
  assert (graph.merge_states sts = node_state node) as Hmerge.
  { destruct fs as [fs|].
    - by apply split_state_merge in Hst.
    - injection Hst as <-. unfold graph.merge_states. simpl.
      apply map_eq. intros p. by rewrite lookup_union_l by apply lookup_empty. }
  destruct (graph.ref_index m !! x) as [i|] eqn:Hi.
  - intros [= <- <- <-]. exists node. simpl. do 5 (split; [done|]). reflexivity.
  - intros [= <- <- <-]. exists node. simpl. rewrite lookup_insert_eq.
    do 5 (split; [done|]). intros Hwf.
    assert (graph.index_ref m !! fresh (dom (graph.index_ref m)) = None) as Hf.
    { apply not_elem_of_dom, is_fresh. }
    split; [by apply RefMap_wf_add|by apply RefMap_incl_add].
Qed.
End split.

Lemma extracted_mono {Meta : Type} h oi m m' a (b : extract.pleaf Meta) :
  RefMap_incl m m' → extracted h oi m a b → extracted h oi m' a b.
Proof.
  intros [Hi _]. destruct a as [x|r]; simpl; [done|].
  intros (ns & node & ? & ? & ? & ? & Hr & ?). exists ns, node.
  do 4 (split; [done|]). split; [|done]. by eapply lookup_weaken.
Qed.

(** ** The extraction, [extract.to_tree] with [_jit_split_fn] *)

Section jit.
Context {Filter Sharding : Type} `{!FilterLib Filter VariableState}.
Context `{!Repr PathParts} `{!Repr pytype}.

#[local] Abbreviation prefix := (prefix_leaf Filter Sharding).

Lemma to_tree_leaf_spec sctx (h : heap) (a : prefix * (PathParts * jleaf)) m b m' :
  extract.to_tree_leaf _jit_split_fn sctx h a m = Some (b, m') →
  split_step m m'
  ∧ (RefMap_wf m → extracted h (graph.inner_ref_outer_index sctx) m' a.2.2 b).
Proof.
  unfold extract.to_tree_leaf. destruct a as [pfx [path [x|r]]]; simpl.
  - intros [= <- <-]. split; [reflexivity|done].
  - destruct (_jit_split_fn sctx h path pfx r m) as [[ns m1]|] eqn:Hs; [|done].
    simpl. intros [= <- <-]. unfold _jit_split_fn in Hs.
    assert (∃ gd states meta, ns = extract.from_split gd states meta
              ∧ ∃ fs, graph.flatten sctx h r fs m = Some (gd, states, m1))
      as (gd & sts & meta & -> & fs & Hfl).
    { destruct pfx as [s|s].
      - destruct (graph.flatten sctx h r (Some (filters s)) m)
          as [[[gd sts] m2]|] eqn:Hfl; [|done].
        simpl in Hs. injection Hs as <- <-. eauto 10.
      - destruct (graph.flatten sctx h r None m) as [[[gd sts] m2]|] eqn:Hfl; [|done].
        simpl in Hs. injection Hs as <- <-. eauto 10. }
    apply flatten_spec in Hfl as (node & ? & ? & ? & ? & ? & Hstep).
    split; [done|]. intros _. by exists (extract.from_split gd sts meta), node.
Qed.

Lemma to_tree_spec tree (pfx : pytree prefix) (h : heap) ctx pure ctx' :
  extract.to_tree tree pfx _jit_split_fn h ctx = Some (pure, ctx') →
  ∃ m, RefMap_wf m
    ∧ ctx' = match graph.inner ctx with
             | None => {| graph.outer := Some m; graph.inner := None |}
             | Some _ => ctx
             end
    ∧ tree_rel (extracted h (graph.inner_ref_outer_index (graph.split_context ctx)) m)
        tree pure.
Proof.
  unfold extract.to_tree.
  destruct (broadcast_prefix pfx (with_paths tree)) as [leaves|] eqn:Hb; [|done].
  simpl.
  destruct (tree_mapM _ leaves graph.RefMap_empty) as [[pure' m]|] eqn:Ht; [|done].
  simpl. intros [= <- <-]. exists m.
  eapply (tree_mapM_spec _ (λ _, True) split_step) in Ht as [Hstep Hrel];
    [| |by apply Forall_forall].
  2: { intros a s b s' _ Hf. by apply to_tree_leaf_spec in Hf as [? _]. }
  destruct (Hstep RefMap_wf_empty) as [Hwf _].
  split; [done|]. split; [done|].
  pose proof (tree_rel_compose _ _ _ _ _
                (tree_rel_compose _ _ _ _ _ (with_paths_from_rel [] tree)
                   (broadcast_prefix_rel _ _ _ Hb)) Hrel) as Hall.
  eapply tree_rel_impl; [|exact Hall]. simpl.
  intros a b (x & (y & <- & Hy) & (m1 & m2 & H1 & Hf & H2)).
  apply to_tree_leaf_spec in Hf as [H12 Hex].
  destruct (H1 RefMap_wf_empty) as [Hwf1 _]. destruct (H12 Hwf1) as [Hwf2 _].
  destruct (H2 Hwf2) as [_ Hincl]. rewrite <- Hy.
  eapply extracted_mono; [done|]. by apply Hex.
Qed.

(** ** The reconstruction, [extract.from_tree] with [_jit_merge_fn] *)

Lemma inner_step_preorder h G : PreOrder (inner_step h G).
Proof.
  split.
  - intros s Hinv. split; [done|reflexivity].
  - intros s1 s2 s3 H12 H23 Hinv. destruct (H12 Hinv) as [Hinv2 Hi12].
    destruct (H23 Hinv2) as [Hinv3 Hi23]. split; [done|by etrans].
Qed.
#[local] Existing Instance inner_step_preorder.

Lemma unflatten_inner mctx gd sts (hh : heap) m r s' :
  graph.is_inner mctx = true →
  graph.unflatten mctx gd sts (hh, m) = Some (r, s') →
  (graph.index_ref m !! graph.gd_index gd = Some r ∧ s' = (hh, m))
  ∨ (graph.index_ref m !! graph.gd_index gd = None ∧ r = fresh (dom hh)
     ∧ s' = (<[r := {| node_type := graph.gd_type gd;
                       node_state := graph.merge_states sts |}]> hh,
             graph.RefMap_add r (graph.gd_index gd) m)).
Proof.
  intros Hin. unfold graph.unflatten. rewrite Hin.
  destruct (graph.index_ref m !! graph.gd_index gd) as [x|] eqn:Hx.
  - intros [= <- <-]. by left.
  - intros [= <- <-]. by right.
Qed.

Lemma from_tree_leaf_inv mctx (a : PathParts * extract.pleaf prefix) s b s' :
  extract.from_tree_leaf _jit_merge_fn mctx a s = Some (b, s') →
  match a.2 with
  | extract.PArr x => b = JArr x ∧ s' = s
  | extract.PStates ns =>
      ∃ r, b = JNode r
        ∧ graph.unflatten mctx (extract.graphdef ns) (extract.states ns) s
          = Some (r, s')
  end.
Proof.
  unfold extract.from_tree_leaf. destruct a as [path [x|ns]]; simpl.
  - by intros [= <- <-].
  - destruct (graph.unflatten mctx (extract.graphdef ns) (extract.states ns) s)
      as [[r s1]|]; simpl; [|done].
    intros [= <- <-]. eauto.
Qed.

Lemma from_tree_leaf_inner h G mctx (a : PathParts * extract.pleaf prefix) s b s' :
  graph.is_inner mctx = true →
  describes G a.2 →
  extract.from_tree_leaf _jit_merge_fn mctx a s = Some (b, s') →
  inner_step h G s s' ∧ (inner_inv h G s → rebuilt (graph.index_ref s'.2) a.2 b).
Proof.
  intros Hin HG Hf%from_tree_leaf_inv. destruct a as [path [x|ns]]; simpl in *.
  - destruct Hf as [-> ->]. split; [reflexivity|done].
  - destruct Hf as (r & -> & Hun). destruct s as [hh m].
    apply (unflatten_inner _ _ _ _ _ _ _ Hin) in Hun as [[Hr ->]|(Hr & -> & ->)].
    + split; [reflexivity|]. intros _. simpl. eauto.
    + simpl. rewrite lookup_insert_eq.
      split; [|intros _; eauto].
      intros (Hwf & Hsub & Hobj). simpl in *.
      pose proof (is_fresh (dom hh)) as Hfresh.
      assert (graph.ref_index m !! fresh (dom hh) = None) as Hnew.
      { destruct (graph.ref_index m !! fresh (dom hh)) as [j|] eqn:Hj; [|done].
        apply Hwf, Hobj in Hj as (_ & node & Hn & _).
        by apply elem_of_dom_2 in Hn. }
      split; [|by apply RefMap_incl_add].
      split; [by apply RefMap_wf_add|]. simpl.
      split.
      { etrans; [done|]. by apply insert_subseteq, not_elem_of_dom. }
      intros i x. destruct (decide (i = graph.gd_index (extract.graphdef ns))) as [->|Hne].
      * rewrite lookup_insert_eq. intros [= <-]. rewrite lookup_insert_eq.
        split; [|eauto]. intros Hd. apply Hfresh.
        by apply (subseteq_dom _ _ Hsub).
      * rewrite lookup_insert_ne by done. intros Hx.
        destruct (Hobj i x Hx) as (? & node & Hn & ?). split; [done|].
        exists node. split; [|done]. rewrite lookup_insert_ne; [done|].
        intros <-. by apply elem_of_dom_2 in Hn.
Qed.

Lemma rebuilt_mono m m' (a : extract.pleaf prefix) b :
  RefMap_incl m m' → rebuilt (graph.index_ref m) a b → rebuilt (graph.index_ref m') a b.
Proof.
  intros [_ Hi]. destruct a as [x|ns]; simpl; [done|].
  intros (x & -> & Hx). exists x. split; [done|]. by eapply lookup_weaken.
Qed.

Lemma from_tree_inner_spec (tree : pytree (extract.pleaf prefix)) h ctx out h' ctx' G :
  extract.from_tree tree _jit_merge_fn true h ctx = Some (out, h', ctx') →
  Forall (describes G) (tree_leaves tree) →
  ∃ m, ctx' = {| graph.outer := graph.outer ctx; graph.inner := Some m |}
    ∧ inner_inv h G (h', m)
    ∧ tree_rel (rebuilt (graph.index_ref m)) tree out.
Proof.
  unfold extract.from_tree. intros Hf HG.
  destruct (tree_mapM _ (with_paths tree) (h, graph.RefMap_empty))
    as [[out' [h1 m]]|] eqn:Ht; [|done].
  simpl in Hf. injection Hf as <- <- <-. exists m. split; [done|].
  pose proof (with_paths_from_rel [] tree) as Hp.
  eapply (tree_mapM_spec _ (λ a, describes G a.2) (inner_step h G)) in Ht
    as [Hstep Hrel].
  2: { intros a s b s' Ha Hf. by eapply from_tree_leaf_inner in Hf as [? _]. }
  2: { apply Forall_forall. intros a Ha.
       destruct (tree_rel_elem_of_r _ _ _ _ Hp Ha) as (b & Hb & <-).
       rewrite Forall_forall in HG. by apply HG. }
  assert (inner_inv h G (h, graph.RefMap_empty)) as H0.
  { split; [apply RefMap_wf_empty|]. split; [done|].
    intros i x. simpl. by rewrite lookup_empty. }
  destruct (Hstep H0) as [Hinv _]. split; [done|].
  pose proof (tree_rel_compose _ _ _ _ _ Hp Hrel) as Hall.
  eapply tree_rel_impl_strong; [|exact Hall]. simpl.
  intros a b Ha (x & <- & (s1 & s2 & H1 & Hf & H2)).
  rewrite Forall_forall in HG.
  eapply (from_tree_leaf_inner h G) in Hf as [H12 Hre]; [|done|by apply HG].
  destruct (H1 H0) as [Hinv1 _]. destruct (H12 Hinv1) as [Hinv2 _].
  destruct (H2 Hinv2) as [_ Hincl].
  eapply rebuilt_mono; [done|]. by apply Hre.
Qed.

Lemma outer_step_preorder T : PreOrder (outer_step T).
Proof.
  split.
  - intros s r. by left.
  - intros s1 s2 s3 H12 H23 r.
    destruct (H23 r) as [E23|[N2|(node & Hn & HT)]].
    + rewrite E23. apply H12.
    + destruct (H12 r) as [E12|[N1|(node & Hn & _)]].
      * right; left. congruence.
      * by right; left.
      * congruence.
    + right; right. eauto.
Qed.
#[local] Existing Instance outer_step_preorder.

Lemma unflatten_outer mctx gd sts (hh : heap) m r s' :
  graph.is_inner mctx = false →
  graph.unflatten mctx gd sts (hh, m) = Some (r, s') →
  (∃ oi node, graph.gd_outer_index gd = Some oi
     ∧ graph.outer_index_outer_ref mctx !! oi = Some r
     ∧ hh !! r = Some node
     ∧ s'.1 = <[r := {| node_type := node_type node;
                        node_state := graph.merge_states sts |}]> hh)
  ∨ (graph.gd_outer_index gd = None
     ∧ (s'.1 = hh
        ∨ (r = fresh (dom hh)
           ∧ s'.1 = <[r := {| node_type := graph.gd_type gd;
                              node_state := graph.merge_states sts |}]> hh))).
Proof.
  intros Hin. unfold graph.unflatten. rewrite Hin.
  destruct (graph.gd_outer_index gd) as [oi|].
  - destruct (graph.outer_index_outer_ref mctx !! oi) as [x|] eqn:Hx; [|done]. simpl.
    destruct (hh !! x) as [node|] eqn:Hn; [|done]. simpl.
    intros [= <- <-]. left. by exists oi, node.
  - destruct (graph.index_ref m !! graph.gd_index gd) as [x|].
    + intros [= <- <-]. right. split; [done|]. by left.
    + intros [= <- <-]. right. split; [done|]. by right.
Qed.

Lemma from_tree_leaf_outer T mctx (a : PathParts * extract.pleaf prefix) s b s' :
  graph.is_inner mctx = false →
  allowed T (graph.outer_index_outer_ref mctx) a.2 →
  extract.from_tree_leaf _jit_merge_fn mctx a s = Some (b, s') →
  outer_step T s s' ∧ reconciled T (graph.outer_index_outer_ref mctx) s'.1 a.2 b.
Proof.
  intros Hin HT Hf%from_tree_leaf_inv. destruct a as [path [x|ns]]; simpl in *.
  - destruct Hf as [-> ->]. split; [reflexivity|done].
  - destruct Hf as (r & -> & Hun). destruct s as [hh m].
    apply (unflatten_outer _ _ _ _ _ _ _ Hin) in Hun
      as [(oi & node & Hoi & Hr & Hn & Hs')|[Hoi [Hs'|[-> Hs']]]].
    + specialize (HT oi r Hoi Hr). split.
      * intros r'. rewrite Hs'. simpl. destruct (decide (r' = r)) as [->|Hne].
        -- right; right. eexists. split; [apply lookup_insert_eq|done].
        -- left. by rewrite lookup_insert_ne.
      * intros oi' Hoi'. rewrite Hoi in Hoi'. injection Hoi' as <-.
        rewrite Hs'. eexists r, _. split; [done|]. split; [done|].
        split; [apply lookup_insert_eq|done].
    + split; [|intros oi; by rewrite Hoi].
      intros r'. left. by rewrite Hs'.
    + split; [|intros oi; by rewrite Hoi].
      intros r'. rewrite Hs'. simpl.
      destruct (decide (r' = fresh (dom hh))) as [->|Hne].
      * right; left. apply not_elem_of_dom, is_fresh.
      * left. by rewrite lookup_insert_ne.
Qed.

Lemma reconciled_step T ir (a : extract.pleaf prefix) b s s' :
  outer_step T s s' → reconciled T ir s.1 a b → reconciled T ir s'.1 a b.
Proof.
  intros Hstep. destruct a as [x|ns]; simpl; [done|].
  intros Hre oi Hoi. destruct (Hre oi Hoi) as (r & node & Hr & -> & Hn & HT).
  destruct (Hstep r) as [E|[N|(node' & Hn' & HT')]].
  - exists r, node. by rewrite E.
  - congruence.
  - by exists r, node'.
Qed.

Lemma from_tree_outer_spec (tree : pytree (extract.pleaf prefix)) h ctx out h' ctx' T :
  extract.from_tree tree _jit_merge_fn false h ctx = Some (out, h', ctx') →
  Forall (allowed T (graph.outer_index_outer_ref (graph.merge_context ctx false)))
    (tree_leaves tree) →
  tree_rel (reconciled T (graph.outer_index_outer_ref (graph.merge_context ctx false)) h')
    tree out.
Proof.
  unfold extract.from_tree. intros Hf HT.
  set (mctx := graph.merge_context ctx false) in *.
  destruct (tree_mapM _ (with_paths tree) (h, graph.RefMap_empty))
    as [[out' [h1 m]]|] eqn:Ht; [|done].
  simpl in Hf. injection Hf as <- <- <-.
  pose proof (with_paths_from_rel [] tree) as Hp.
  eapply (tree_mapM_spec _
            (λ a, allowed T (graph.outer_index_outer_ref mctx) a.2) (outer_step T))
    in Ht as [Hstep Hrel].
  2: { intros a s b s' Ha Hf. by eapply from_tree_leaf_outer in Hf as [? _]. }
  2: { apply Forall_forall. intros a Ha.
       destruct (tree_rel_elem_of_r _ _ _ _ Hp Ha) as (b & Hb & <-).
       rewrite Forall_forall in HT. by apply HT. }
  pose proof (tree_rel_compose _ _ _ _ _ Hp Hrel) as Hall.
  eapply tree_rel_impl_strong; [|exact Hall]. simpl.
  intros a b Ha (x & <- & (s1 & s2 & H1 & Hf & H2)).
  rewrite Forall_forall in HT.
  eapply (from_tree_leaf_outer T) in Hf as [H12 Hre]; [|done|by apply HT].
  by apply (reconciled_step T _ _ _ s2 (h1, m)).
Qed.

(** ** The call, [JitWrapped.__call__] *)

End jit.

Section jit_example.
#[local] Existing Instance type_filter.
#[local] Existing Instance path_repr.
#[local] Existing Instance pytype_repr.

End jit_example.

(** * More properties *)

(** ** [StateSharding] *)

Section StateSharding_more.
Context {Filter Var Sharding : Type}.
Context `{!FilterLib Filter Var} `{!Repr PathParts} `{!Repr Var}.

Lemma StateSharding_init_inj (p1 p2 : list (Filter * Sharding)) :
  StateSharding_init p1 = StateSharding_init p2 → p1 = p2.
Proof.
  intros H. rewrite <- (zip_fst_snd p1), <- (zip_fst_snd p2).
  injection H as -> ->. done.
Qed.

(** X1: the filters and the shardings of a [StateSharding] built from a
    sequence of pairs are as many as the pairs, and zipped they are the
    pairs again, in order; building a [StateSharding] from them gives the
    same one. *)
Theorem StateSharding_pairs_round_trip (pairs : list (Filter * Sharding)) :
  length (filters (StateSharding_init pairs)) = length pairs
  ∧ length (shardings (StateSharding_init pairs)) = length pairs
  ∧ zip (filters (StateSharding_init pairs)) (shardings (StateSharding_init pairs))
    = pairs
  ∧ (∀ i flt sh, pairs !! i = Some (flt, sh) ↔
       filters (StateSharding_init pairs) !! i = Some flt
       ∧ shardings (StateSharding_init pairs) !! i = Some sh).
Proof.
  unfold filters, shardings. simpl. rewrite !length_map, zip_fst_snd.
  split; [done|]. split; [done|]. split; [done|].
  intros i flt sh. rewrite !list_lookup_fmap. split.
  - intros ->. done.
  - destruct (pairs !! i) as [[a b]|]; simpl; [|by intros [[=] _]].
    by intros [[= ->] [= ->]].
Qed.

Lemma map_prefix_loop_app (p1 p2 : list (Filter * Sharding)) path (variable : Var) :
  map_prefix_loop (p1 ++ p2) path variable
  = match map_prefix_loop p1 path variable with
    | Ret sh => Ret sh
    | Raise _ => map_prefix_loop p2 path variable
    end.
Proof.
  induction p1 as [|[f s] p1 IH]; simpl; [done|].
  by destruct (to_predicate f path variable).
Qed.

(** X2: pairs that come after do not change what [map_prefix] resolves:
    on the pairs [p1 ++ p2] it returns what it returns on [p1], and only
    when no filter of [p1] accepts the path and the variable what it
    does on [p2]. *)
Theorem map_prefix_app (p1 p2 : list (Filter * Sharding)) path (variable : Var) :
  map_prefix (StateSharding_init (p1 ++ p2)) path variable
  = match map_prefix (StateSharding_init p1) path variable with
    | Ret sh => Ret sh
    | Raise _ => map_prefix (StateSharding_init p2) path variable
    end.
Proof. rewrite !map_prefix_init. apply map_prefix_loop_app. Qed.
End StateSharding_more.

Section StateSharding_dunder_properties.
Context {Filter Sharding : Type}.
Context `{!EqDecision Filter} `{!EqDecision Sharding}.

(** X3: [==] on [StateSharding]s is the equality of the filters and of
    the shardings, in order: two built from sequences of pairs are equal
    exactly when the sequences are the same; nothing that is no
    [StateSharding] is equal to one; and equal ones have the same hash
    and resolve every path and variable alike. *)
Theorem StateSharding_eq_structural {Var Other : Type}
    `{!FilterLib Filter Var} `{!Repr PathParts} `{!Repr Var}
    (hash : list Filter * list Sharding → Z)
    (self other : StateSharding Filter Sharding)
    (p1 p2 : list (Filter * Sharding)) (o : Other) :
  (StateSharding__eq__ (Other := Other) self (IsStateSharding other) = true
   ↔ self = other)
  ∧ (StateSharding__eq__ (Other := Other) (StateSharding_init p1)
       (IsStateSharding (StateSharding_init p2)) = true ↔ p1 = p2)
  ∧ StateSharding__eq__ self (NotStateSharding o) = false
  ∧ (StateSharding__eq__ (Other := Other) self (IsStateSharding other) = true →
     StateSharding__hash__ hash self = StateSharding__hash__ hash other
     ∧ ∀ path (variable : Var),
         map_prefix self path variable = map_prefix other path variable).
Proof.
  assert (∀ a b : StateSharding Filter Sharding,
            StateSharding__eq__ (Other := Other) a (IsStateSharding b) = true ↔ a = b)
    as Heq.
  { intros [fa sa] [fb sb]. unfold StateSharding__eq__, filters, shardings. simpl.
    rewrite andb_true_iff, !bool_decide_eq_true. split.
    - by intros [-> ->].
    - by intros [= -> ->]. }
  split; [apply Heq|]. split.
  { rewrite Heq. split; [apply StateSharding_init_inj|by intros ->]. }
  split; [done|].
  intros ->%Heq. done.
Qed.

Lemma dict_set_keys k v (d : list (Filter * Sharding)) :
  (dict_set k v d).*1 = if decide (k ∈ d.*1) then d.*1 else (d.*1 ++ [k])%list.
Proof.
  induction d as [|[k' v'] d IH].
  - done.
  - simpl. destruct (decide (k = k')) as [->|Hne].
    + rewrite decide_True; [done|]. simpl. by left.
    + rewrite fmap_cons, IH. simpl.
      destruct (decide (k ∈ d.*1)) as [Hin|Hnin].
      * rewrite decide_True; [done|]. by right.
      * rewrite decide_False; [done|]. rewrite elem_of_cons. tauto.
Qed.

Lemma dict_set_NoDup k v (d : list (Filter * Sharding)) :
  NoDup d.*1 → NoDup (dict_set k v d).*1.
Proof.
  intros Hnd. rewrite dict_set_keys. destruct (decide (k ∈ d.*1)); [done|].
  apply NoDup_app. split; [done|]. split.
  - intros x Hx Hk. apply elem_of_cons in Hk as [->|Hk]; [done|].
    by apply elem_of_nil in Hk.
  - apply NoDup_singleton.
Qed.

Lemma dict_set_elem_of k v (d : list (Filter * Sharding)) k0 v0 :
  NoDup d.*1 →
  (k0, v0) ∈ dict_set k v d
  ↔ (k0 = k ∧ v0 = v) ∨ (k0 ≠ k ∧ (k0, v0) ∈ d).
Proof.
  induction d as [|[k' v'] d IH]; simpl; intros Hnd.
  - rewrite elem_of_cons, elem_of_nil. split.
    + intros [[= -> ->]|[]]. by left.
    + intros [[-> ->]|[_ []]]. by left.
  - apply NoDup_cons in Hnd as [Hk' Hnd].
    destruct (decide (k = k')) as [->|Hne].
    + rewrite !elem_of_cons. split.
      * intros [[= -> ->]|Hin]; [by left|]. right. split; [|by right].
        intros ->. apply Hk'. apply list_elem_of_fmap. by exists (k', v0).
      * intros [[-> ->]|[Hne [[= -> ->]|Hin]]]; [by left|done|by right].
    + rewrite !elem_of_cons, (IH Hnd). split.
      * intros [[= -> ->]|[[-> ->]|[? ?]]].
        -- right. split; [done|by left].
        -- by left.
        -- right. split; [done|by right].
      * intros [[-> ->]|[? [[= -> ->]|?]]].
        -- right. by left.
        -- by left.
        -- right. right. done.
Qed.

Lemma dict_snoc (items : list (Filter * Sharding)) k v :
  dict (items ++ [(k, v)])%list = dict_set k v (dict items).
Proof. unfold dict. by rewrite foldl_app. Qed.

Lemma dict_NoDup (items : list (Filter * Sharding)) : NoDup (dict items).*1.
Proof.
  induction items as [|[k v] items IH] using rev_ind; [constructor|].
  rewrite dict_snoc. by apply dict_set_NoDup.
Qed.

(** The value under a key of [dict(items)] is the one of the last item
    with this key. *)
Lemma dict_elem_of (items : list (Filter * Sharding)) k v :
  (k, v) ∈ dict items
  ↔ ∃ i, items !! i = Some (k, v)
         ∧ ∀ j v', (i < j)%nat → items !! j ≠ Some (k, v').
Proof.
  revert k v. induction items as [|[k0 v0] items IH] using rev_ind; intros k v.
  - unfold dict. simpl. rewrite elem_of_nil. split; [done|].
    intros (i & Hi & _). by rewrite lookup_nil in Hi.
  - rewrite dict_snoc, dict_set_elem_of by apply dict_NoDup. rewrite IH. split.
    + intros [[-> ->]|[Hne (i & Hi & Hlast)]].
      * exists (length items). split.
        -- rewrite lookup_app_r by lia. by rewrite Nat.sub_diag.
        -- intros j v' Hj Hl. apply lookup_lt_Some in Hl.
           rewrite length_app in Hl. simpl in Hl. lia.
      * exists i. split; [by apply lookup_app_l_Some|].
        intros j v' Hj Hl. apply lookup_app_Some in Hl as [Hl|[_ Hl]].
        -- by eapply Hlast.
        -- apply list_lookup_singleton_Some in Hl as [_ [= -> ->]]. done.
    + intros (i & Hi & Hlast). apply lookup_app_Some in Hi as [Hi|[Hge Hi]].
      * destruct (decide (k = k0)) as [->|Hne].
        -- exfalso. apply (Hlast (length items) v0).
           ++ by apply lookup_lt_Some in Hi.
           ++ rewrite lookup_app_r by lia. by rewrite Nat.sub_diag.
        -- right. split; [done|]. exists i. split; [done|].
           intros j v' Hj Hl. apply (Hlast j v' Hj). by apply lookup_app_l_Some.
      * apply list_lookup_singleton_Some in Hi as [_ [= -> ->]]. by left.
Qed.

Lemma dict_NoDup_id (items : list (Filter * Sharding)) :
  NoDup items.*1 → dict items = items.
Proof.
  induction items as [|[k v] items IH] using rev_ind; [done|].
  rewrite fmap_app. intros [Hnd [Hk _]]%NoDup_app.
  rewrite dict_snoc, IH by done. clear IH.
  assert (k ∉ items.*1) as Hnin.
  { intros Hin. apply (Hk k Hin). simpl. by left. }
  clear Hk Hnd. induction items as [|[k' v'] items IHl]; simpl; [done|].
  rewrite fmap_cons, not_elem_of_cons in Hnin. destruct Hnin as [Hne Hnin].
  rewrite decide_False by done. by rewrite IHl.
Qed.

(** X4: [repr] of a [StateSharding] built from a sequence of pairs shows
    a dict with every filter once; under a filter it shows the sharding of
    the last pair with this filter (where [map_prefix] takes the first
    pair whose filter accepts); when no filter is repeated it shows the
    pairs as they are. *)
Theorem StateSharding_repr_dict `{!Repr (list (Filter * Sharding))}
    (pairs : list (Filter * Sharding)) :
  ∃ d,
    StateSharding__repr__ (StateSharding_init pairs)
    = "StateSharding(" +:+ repr d +:+ ")"
    ∧ NoDup d.*1
    ∧ (∀ flt sh,
         (flt, sh) ∈ d
         ↔ ∃ i, pairs !! i = Some (flt, sh)
                ∧ ∀ j sh', (i < j)%nat → pairs !! j ≠ Some (flt, sh'))
    ∧ (NoDup pairs.*1 → d = pairs).
Proof.
  exists (dict pairs). unfold StateSharding__repr__, filters, shardings. simpl.
  rewrite zip_fst_snd. split; [done|]. split; [apply dict_NoDup|].
  split; [apply dict_elem_of|apply dict_NoDup_id].
Qed.
End StateSharding_dunder_properties.

(** ** [to_opt_state], twice *)

Lemma Forall2_compose {A B C : Type} (R : A → B → Prop) (R' : B → C → Prop)
    (R'' : A → C → Prop) xs ys zs :
  (∀ x y z, R x y → R' y z → R'' x z) →
  Forall2 R xs ys → Forall2 R' ys zs → Forall2 R'' xs zs.
Proof.
  intros Hc H. revert zs. induction H as [|x y xs ys Hxy _ IH]; intros zs Hz.
  - inversion Hz. constructor.
  - inversion Hz as [|y' z ys' zs' Hyz Hzs]; subst. constructor; [by eapply Hc|by apply IH].
Qed.

(** X5: [to_opt_state] on a tree of Variables (of the store) and arrays
    returns, and so does [to_opt_state] on its result; the second result
    has the structure of the first tree, and every leaf of it is an
    [OptVariable], also where the first tree had a bare array: it holds the
    value of the leaf of the first tree, and its metadata if that was a
    Variable. *)
Theorem to_opt_state_twice (tree : pytree obj) (σ : store) :
  Forall (obj_closed σ) (tree_leaves tree) →
  ∃ t1 σ1 t2 σ2,
    to_opt_state tree σ = Some (t1, σ1)
    ∧ to_opt_state (tree_map OVar t1) σ1 = Some (t2, σ2)
    ∧ tree_shape t2 = tree_shape tree
    ∧ Forall2 (opt_leaf_twice σ σ2) (tree_leaves tree) (tree_leaves t2).
Proof.
  intros Hc.
  destruct (to_opt_state_total tree σ Hc) as [[t1 σ1] Hrun1].
  pose proof (tree_mapM_leaves _ _ _ _ _ Hrun1) as Hl1.
  apply to_opt_state_leaves in Hl1 as (Hsub1 & _ & Hdom1 & _ & Hrel1); [|done].
  assert (Forall (obj_closed σ1) (tree_leaves (tree_map OVar t1))) as Hc1.
  { rewrite tree_leaves_map. apply Forall_forall. intros x Hx.
    apply list_elem_of_In, in_map_iff in Hx as (r & <- & Hr%list_elem_of_In). simpl.
    rewrite Hdom1. set_solver. }
  destruct (to_opt_state_total _ σ1 Hc1) as [[t2 σ2] Hrun2].
  pose proof (tree_mapM_leaves _ _ _ _ _ Hrun2) as Hl2.
  apply to_opt_state_leaves in Hl2 as (Hsub2 & _ & _ & _ & Hrel2); [|done].
  exists t1, σ1, t2, σ2. split; [done|]. split; [done|]. split.
  - rewrite (tree_mapM_shape _ _ _ _ _ Hrun2).
    transitivity (tree_shape t1); [|by eapply tree_mapM_shape].
    symmetry. eapply tree_rel_shape, tree_rel_map_l.
  - rewrite tree_leaves_map in Hrel2.
    change (map OVar (tree_leaves t1)) with (OVar <$> tree_leaves t1) in Hrel2.
    rewrite Forall2_fmap_l in Hrel2.
    eapply Forall2_compose; [|exact Hrel1|exact Hrel2].
    intros x r1 r2 [_ H1] [_ H2]. simpl in H2.
    destruct H2 as (v1 & Hv1 & Hr2). destruct x as [a|r0]; simpl.
    + rewrite H1 in Hv1. injection Hv1 as <-. done.
    + destruct H1 as (v & Hv & Hr1). exists v. split; [done|].
      rewrite Hr1 in Hv1. injection Hv1 as <-. done.
Qed.

Lemma to_opt_state_twice_witness :
  ∃ t1 σ1 t2 σ2,
    to_opt_state stateS σS = Some (t1, σ1)
    ∧ to_opt_state (tree_map OVar t1) σ1 = Some (t2, σ2)
    ∧ tree_shape t2 = tree_shape stateS
    ∧ Forall2 (opt_leaf_twice σS σ2) (tree_leaves stateS) (tree_leaves t2).
Proof.
  apply (to_opt_state_twice stateS σS).
  repeat constructor.
Defined.

(** X14: the values survive [to_opt_state]: on a tree of Variables (of
    the store) and arrays, the plain-value view ([nnx.pure]) of the tree
    that [to_opt_state] returns is the plain-value view of the tree it was
    given. *)
Theorem to_opt_state_pure_round_trip (tree : pytree obj) (σ : store) :
  Forall (obj_closed σ) (tree_leaves tree) →
  ∃ t' σ' arrs,
    to_opt_state tree σ = Some (t', σ')
    ∧ nnx.pure tree σ = Some arrs
    ∧ nnx.pure (tree_map OVar t') σ' = Some arrs.
Proof.
  intros Hc.
  destruct (to_opt_state_total tree σ Hc) as [[t' σ'] Hrun].
  destruct (tree_mapO_is_Some (nnx.pure_leaf σ) tree) as [arrs Harrs].
  { eapply Forall_impl; [exact Hc|]. intros [a|r]; simpl; [by eexists|].
    intros [v Hv]%elem_of_dom. unfold Variable_getitem. rewrite Hv. by eexists. }
  exists t', σ', arrs. split; [done|]. split; [done|].
  apply nnx_pure_refs.
  eapply (tree_mapM_spec _ (λ _, True) (⊆)) in Hrun as [_ Hrel];
    [| |by apply Forall_forall].
  2: { intros a s b s' _ H. by apply _to_opt_state_spec in H as (_ & ? & _). }
  apply tree_mapO_rel in Harrs.
  assert (tree_rel (λ x r', ∃ a, nnx.pure_leaf σ x = Some a ∧ holds σ' r' a) tree t')
    as Hval.
  { eapply tree_rel_impl_strong; [|exact Hrel]. simpl.
    intros x r' Hx (s1 & s2 & H1 & Hf & H2).
    apply _to_opt_state_spec in Hf as (_ & _ & _ & _ & Hleaf).
    rewrite Forall_forall in Hc. specialize (Hc x Hx).
    unfold holds, Variable_getitem. destruct x as [a|r]; simpl in *.
    - exists a. split; [done|]. by rewrite (lookup_weaken _ _ _ _ Hleaf H2).
    - destruct Hleaf as (v & Hv & Hr'). exists (raw_value v). split.
      + unfold Variable_getitem. rewrite (subseteq_lookup_dom σ s1) in Hv by done.
        by rewrite Hv.
      + by rewrite (lookup_weaken _ _ _ _ Hr' H2). }
  eapply tree_rel_impl; [|exact (tree_rel_compose _ _ _ _ _ (tree_rel_flip _ _ _ Hval) Harrs)].
  simpl. intros r' a (x & (a0 & Ha0 & Hh) & Hx). congruence.
Qed.

Lemma to_opt_state_pure_round_trip_witness :
  ∃ t' σ' arrs,
    to_opt_state stateS σS = Some (t', σ')
    ∧ nnx.pure stateS σS = Some arrs
    ∧ nnx.pure (tree_map OVar t') σ' = Some arrs.
Proof.
  apply (to_opt_state_pure_round_trip stateS σS).
  repeat constructor.
Defined.

(** ** The construction of the optimizers *)

Lemma new_leaves_rel xs (σ : store) ys σ' :
  leaves_mapM new_leaf xs σ = Some (ys, σ') →
  Forall2 (λ x y, match x with
                  | VArr a => y = OArr a
                  | VVar v => ∃ r, y = OVar r ∧ σ' !! r = Some v
                  end) xs ys.
Proof.
  revert σ ys σ'. induction xs as [|x xs IH]; intros σ ys σ'; simpl.
  - intros [= <- <-]. constructor.
  - destruct (new_leaf x σ) as [[y σ1]|] eqn:Hx; simpl; [|done].
    destruct (leaves_mapM new_leaf xs σ1) as [[ys' σ2]|] eqn:Hxs; simpl; [|done].
    intros [= <- <-]. constructor; [|by eapply IH].
    apply new_leaves_spec in Hxs as [Hsub _].
    destruct x as [a|v]; simpl in Hx.
    + by injection Hx as <- <-.
    + injection Hx as <- <-. eexists. split; [done|].
      eapply lookup_weaken; [|done]. apply lookup_insert_eq.
Qed.

(** The optimizer state, leaf by leaf of what [tx.init] returned. *)
Lemma init_opt_state_leaves t (σa σb σ1 : store) st0 os :
  new_tree t σa = Some (st0, σb) →
  to_opt_state st0 σb = Some (os, σ1) →
  tree_shape os = tree_shape t
  ∧ Forall2 (init_leaf σ1) (tree_leaves t) (tree_leaves os).
Proof.
  intros Hn Hto. split.
  - rewrite (tree_mapM_shape _ _ _ _ _ Hto). by eapply tree_mapM_shape.
  - pose proof (new_tree_spec _ _ _ _ Hn) as [_ Hcl].
    apply tree_mapM_leaves, new_leaves_rel in Hn.
    apply tree_mapM_leaves, to_opt_state_leaves in Hto as (_ & _ & _ & _ & Hrel); [|done].
    eapply Forall2_compose; [|exact Hn|exact Hrel].
    intros x y r Hxy [_ Hyr]. destruct x as [a|v]; simpl.
    + by subst y.
    + destruct Hxy as (r0 & -> & Hr0). destruct Hyr as (v' & Hv' & Hr).
      rewrite Hr0 in Hv'. by injection Hv' as <-.
Qed.

Section Optimizer_init_more.
Context {Filter : Type} `{!FilterLib Filter VariableState}.

(** X6: [Optimizer.__init__] on a model of the store changes no object
    that was there, so not the model; [step] is a new [OptState] holding
    0; the Variables of [opt_state] are new, different from each other and
    from [step]; and [opt_state] has the structure of what [tx.init]
    returned for the selected state of the model, with an [OptVariable]
    of the same value and metadata for each Variable of it and an
    [OptArray] for each array. *)
Theorem Optimizer_init_builds model tx (wrt : Filter) (σ0 σ1 : store) self :
  closed σ0 model →
  Optimizer.__init__ model tx wrt σ0 = Some (self, σ1) →
  (∀ r, r ∈ dom σ0 → σ1 !! r = σ0 !! r)
  ∧ Optimizer.model self = model ∧ Optimizer.tx self = tx
  ∧ Optimizer.wrt self = wrt
  ∧ (Optimizer.step self ∉ dom σ0)
  ∧ σ1 !! Optimizer.step self = Some (mkVariable OptState 0 ∅)
  ∧ NoDup (Optimizer.step self :: tree_leaves (Optimizer.opt_state self))
  ∧ (∀ r, r ∈ tree_leaves (Optimizer.opt_state self) → r ∉ dom σ0)
  ∧ ∃ params,
      view (tree_map OVar (nnx.state model wrt σ0)) σ0 = Some params
      ∧ tree_shape (Optimizer.opt_state self) = tree_shape (optax.init tx params)
      ∧ Forall2 (init_leaf σ1) (tree_leaves (optax.init tx params))
          (tree_leaves (Optimizer.opt_state self)).
Proof.
  intros Hcl Hinit.
  pose proof (is_fresh (dom σ0)) as Hfresh.
  destruct (Optimizer_init_spec _ _ _ _ _ _ Hinit)
    as (Hs & Hm & Htx & Hwrt & Hsub & Hnd & Hfr).
  assert (σ0 ⊆ σ1) as H01.
  { etrans; [|exact Hsub]. by apply insert_subseteq, not_elem_of_dom. }
  split; [intros r; by apply subseteq_lookup_dom|].
  do 3 (split; [done|]). rewrite Hs. split; [done|].
  split; [eapply lookup_weaken; [apply lookup_insert_eq|done]|].
  split.
  { constructor; [|done]. intros Hin. by destruct (Hfr _ Hin) as (_ & ? & _). }
  split; [intros r Hr; by destruct (Hfr r Hr)|].
  unfold Optimizer.__init__, Variable_new, nnx.data in Hinit. cbv zeta in Hinit.
  remember (<[fresh (dom σ0) := mkVariable OptState 0 ∅]> σ0) as σa eqn:Ea.
  assert (∀ r, r ∈ tree_leaves model → σa !! r = σ0 !! r) as Hsame.
  { intros r Hr. subst σa. rewrite lookup_insert_ne; [done|].
    intros <-. by apply Hfresh, Hcl. }
  rewrite (state_ext wrt σa σ0 model Hsame) in Hinit.
  rewrite (view_ext _ σa σ0) in Hinit.
  2: { intros r Hr%elem_of_leaves_OVar. apply Hsame.
       destruct (state_sub_or wrt σ0 model) as [Hsb|[_ Hst]].
       - eapply elem_of_sublist; [done|]. by apply sub_tree_leaves.
       - rewrite Hst in Hr. simpl in Hr. by apply elem_of_nil in Hr. }
  destruct (view _ σ0) as [pv|] eqn:E1; simpl in Hinit; [|done].
  destruct (new_tree _ _) as [[st0 σb]|] eqn:E2; simpl in Hinit; [|done].
  destruct (to_opt_state st0 σb) as [[os σc]|] eqn:E3; simpl in Hinit; [|done].
  injection Hinit as <- <-. simpl. exists pv. split; [done|].
  by eapply init_opt_state_leaves.
Qed.
End Optimizer_init_more.

(** X7: [PytreeOptimizer.__init__] on parameters of the store changes no
    object that was there; [step] is a new [OptArray] holding 0; the
    Variables of [opt_state] are new, different from each other and from
    [step]; and [opt_state] has the structure of what [tx.init] returned
    for the parameters, with an [OptVariable] of the same value and
    metadata for each Variable of it and an [OptArray] for each array. *)
Theorem PytreeOptimizer_init_builds params tx (σ0 σ1 : store) self :
  closed σ0 params →
  PytreeOptimizer.__init__ params tx σ0 = Some (self, σ1) →
  (∀ r, r ∈ dom σ0 → σ1 !! r = σ0 !! r)
  ∧ PytreeOptimizer.tx self = tx
  ∧ (PytreeOptimizer.step self ∉ dom σ0)
  ∧ σ1 !! PytreeOptimizer.step self = Some (mkVariable OptArray 0 ∅)
  ∧ NoDup (PytreeOptimizer.step self :: tree_leaves (PytreeOptimizer.opt_state self))
  ∧ (∀ r, r ∈ tree_leaves (PytreeOptimizer.opt_state self) → r ∉ dom σ0)
  ∧ ∃ pv,
      view (tree_map OVar params) σ0 = Some pv
      ∧ tree_shape (PytreeOptimizer.opt_state self) = tree_shape (optax.init tx pv)
      ∧ Forall2 (init_leaf σ1) (tree_leaves (optax.init tx pv))
          (tree_leaves (PytreeOptimizer.opt_state self)).
Proof.
  intros Hcl Hinit.
  pose proof (is_fresh (dom σ0)) as Hfresh.
  destruct (PytreeOptimizer_init_spec _ _ _ _ _ Hinit) as (Hs & Htx & Hsub & Hnd & Hfr).
  assert (σ0 ⊆ σ1) as H01.
  { etrans; [|exact Hsub]. by apply insert_subseteq, not_elem_of_dom. }
  split; [intros r; by apply subseteq_lookup_dom|].
  split; [done|]. rewrite Hs. split; [done|].
  split; [eapply lookup_weaken; [apply lookup_insert_eq|done]|].
  split.
  { constructor; [|done]. intros Hin. by destruct (Hfr _ Hin) as (_ & ? & _). }
  split; [intros r Hr; by destruct (Hfr r Hr)|].
  unfold PytreeOptimizer.__init__, Variable_new, nnx.data, nnx.freeze in Hinit.
  cbv zeta in Hinit.
  remember (<[fresh (dom σ0) := mkVariable OptArray 0 ∅]> σ0) as σa eqn:Ea.
  rewrite (view_ext _ σa σ0) in Hinit.
  2: { intros r Hr%elem_of_leaves_OVar. subst σa. rewrite lookup_insert_ne; [done|].
       intros <-. by apply Hfresh, Hcl. }
  destruct (view _ σ0) as [pv|] eqn:E1; simpl in Hinit; [|done].
  destruct (new_tree _ _) as [[st0 σb]|] eqn:E2; simpl in Hinit; [|done].
  destruct (to_opt_state st0 σb) as [[os σc]|] eqn:E3; simpl in Hinit; [|done].
  injection Hinit as <- <-. simpl. exists pv. split; [done|].
  by eapply init_opt_state_leaves.
Qed.

(** ** What an update leaves alone *)

Section update_frame.
Context {Filter : Type} `{!FilterLib Filter VariableState}.
Implicit Types self : Optimizer.t Filter.

(** X8: a successful [Optimizer.update] changes nothing but the
    Variables of the model that [wrt] selects, the Variables of
    [opt_state] and [step]: every other object of the store, so every
    Variable of the model that [wrt] does not select and every Variable of
    the gradients or of the keyword arguments that is none of those, is
    after the call what it was before. *)
Theorem Optimizer_update_frame self grads kwargs (σ σ' : store) u :
  wf_keys (Optimizer.model self) →
  Optimizer.update self grads kwargs σ = Some (u, σ') →
  ∀ r,
    r ∉ tree_leaves (nnx.state (Optimizer.model self) (Optimizer.wrt self) σ) →
    r ∉ tree_leaves (Optimizer.opt_state self) →
    r ≠ Optimizer.step self →
    σ' !! r = σ !! r.
Proof.
  intros Hwf Hup r Hr Hro Hrs.
  apply Optimizer_update_inv in Hup
    as (c & updates & nos & np & σ1 & σ2 & Hc & Htx & Hap & H1 & H2 & H3).
  destruct (Optimizer_call_params _ _ _ _ _ _ _ Hc Hap) as [_ Hrel].
  destruct (model_update_write_tree _ _ _ _ _ _ Hwf Hrel H1) as [Hwt _].
  apply write_tree_writes in Hwt. apply nnx_update_writes in H2.
  apply step_incr_spec in H3 as (_ & _ & _ & H3).
  rewrite (writes_frame _ _ _ r H3), (writes_frame _ _ _ r H2),
    (writes_frame _ _ _ r Hwt); [done|..].
  - unfold refs. by rewrite elem_of_list_to_set.
  - unfold refs. by rewrite elem_of_list_to_set.
  - by rewrite elem_of_singleton.
Qed.
End update_frame.

(** X9: a successful [PytreeOptimizer.update] assigns in place.  Every
    object of the store is the same object after the call, of the same
    class and metadata; only Variables of [params], of [opt_state] and the
    counter can hold another value.  The new parameters and the new
    optimizer state have the structures of [params] and of [opt_state]; the
    Variables of [params] hold the new parameters, those of [opt_state]
    the new state, [step] has gone up by one, and the call returns
    nothing. *)
Theorem PytreeOptimizer_update_in_place self params grads kwargs (σ σ' : store) u :
  NoDup (tree_leaves params ++ tree_leaves (PytreeOptimizer.opt_state self)
         ++ [PytreeOptimizer.step self]) →
  PytreeOptimizer.update self params grads kwargs σ = Some (u, σ') →
  u = tt
  ∧ dom σ' = dom σ
  ∧ writes (refs params ∪ refs (PytreeOptimizer.opt_state self)
              ∪ {[PytreeOptimizer.step self]}) σ σ'
  ∧ ∃ c updates new_opt_state new_params n,
      PytreeOptimizer.update_call self params grads kwargs σ = Some c
      ∧ tx_update (PytreeOptimizer.tx self) c = Some (updates, new_opt_state)
      ∧ optax.apply_updates (call_params c) updates = Some new_params
      ∧ tree_rel (holds σ') params new_params
      ∧ tree_rel (holds σ') (PytreeOptimizer.opt_state self) new_opt_state
      ∧ holds σ (PytreeOptimizer.step self) n
      ∧ holds σ' (PytreeOptimizer.step self) (uint32_add n 1).
Proof.
  intros Hnd Hup.
  assert (NoDup (tree_leaves (tuple2 params (PytreeOptimizer.opt_state self)))) as Hnd2.
  { simpl. rewrite app_nil_r. rewrite app_assoc in Hnd.
    by apply NoDup_app in Hnd as (? & _ & _). }
  assert (PytreeOptimizer.step self
            ∉ refs params ∪ refs (PytreeOptimizer.opt_state self)) as Hstep.
  { unfold refs. rewrite <- list_to_set_app_L, elem_of_list_to_set.
    rewrite app_assoc in Hnd. apply NoDup_app in Hnd as (_ & Hd & _).
    intros Hin. apply (Hd _ Hin). by left. }
  destruct (PytreeOptimizer_update_writes _ _ _ _ _ _ _ Hup) as [Hw Hst].
  destruct (Hst Hstep) as (n & Hn & Hn').
  split; [by destruct u|]. split; [by eapply writes_dom|]. split; [done|].
  apply PytreeOptimizer_update_inv in Hup
    as (c & updates & nos & np & σ2 & Hc & Htx & Hap & Hwt & H3).
  exists c, updates, nos, np, n. do 3 (split; [done|]).
  apply step_incr_spec in H3 as (_ & _ & _ & Hw3).
  apply write_tree_holds in Hwt; [|done].
  assert (tree_rel (holds σ') (tuple2 params (PytreeOptimizer.opt_state self))
            (tuple2 np nos)) as Hall.
  { eapply tree_rel_impl_strong; [|exact Hwt].
    intros r a Hr Hh. unfold holds, Variable_getitem in *.
    rewrite (writes_frame _ _ _ r Hw3); [done|].
    rewrite elem_of_singleton. intros ->. apply Hstep.
    unfold refs. rewrite <- list_to_set_app_L, elem_of_list_to_set.
    simpl in Hr. by rewrite app_nil_r in Hr. }
  destruct (tree_rel_tuple2 _ _ _ _ Hall) as (a' & b' & Heq & Ha & Hb).
  injection Heq as <- <-. done.
Qed.

(** ** The same, on the example model *)

Section optimizer_examples.
#[local] Existing Instance type_filter.

Lemma closed_paramsS : closed σS paramsS.
Proof.
  intros r Hr. apply elem_of_dom.
  apply elem_of_cons in Hr as [->|Hr]; [by eexists|].
  by apply elem_of_nil in Hr.
Qed.

Lemma Optimizer_init_builds_witness :
  (∀ r, r ∈ dom σS → σT1 !! r = σS !! r)
  ∧ Optimizer.model optT = modelS ∧ Optimizer.tx optT = trace
  ∧ Optimizer.wrt optT = Param
  ∧ (Optimizer.step optT ∉ dom σS)
  ∧ σT1 !! Optimizer.step optT = Some (mkVariable OptState 0 ∅)
  ∧ NoDup (Optimizer.step optT :: tree_leaves (Optimizer.opt_state optT))
  ∧ (∀ r, r ∈ tree_leaves (Optimizer.opt_state optT) → r ∉ dom σS)
  ∧ ∃ params,
      view (tree_map OVar (nnx.state modelS Param σS)) σS = Some params
      ∧ tree_shape (Optimizer.opt_state optT) = tree_shape (optax.init trace params)
      ∧ Forall2 (init_leaf σT1) (tree_leaves (optax.init trace params))
          (tree_leaves (Optimizer.opt_state optT)).
Proof.
  apply (Optimizer_init_builds modelS trace Param σS σT1 optT).
  - exact closed_modelS.
  - vm_compute. reflexivity.
Defined.

Lemma PytreeOptimizer_init_builds_witness :
  (∀ r, r ∈ dom σS → σP1 !! r = σS !! r)
  ∧ PytreeOptimizer.tx poptT = trace
  ∧ (PytreeOptimizer.step poptT ∉ dom σS)
  ∧ σP1 !! PytreeOptimizer.step poptT = Some (mkVariable OptArray 0 ∅)
  ∧ NoDup (PytreeOptimizer.step poptT :: tree_leaves (PytreeOptimizer.opt_state poptT))
  ∧ (∀ r, r ∈ tree_leaves (PytreeOptimizer.opt_state poptT) → r ∉ dom σS)
  ∧ ∃ pv,
      view (tree_map OVar paramsS) σS = Some pv
      ∧ tree_shape (PytreeOptimizer.opt_state poptT) = tree_shape (optax.init trace pv)
      ∧ Forall2 (init_leaf σP1) (tree_leaves (optax.init trace pv))
          (tree_leaves (PytreeOptimizer.opt_state poptT)).
Proof.
  apply (PytreeOptimizer_init_builds paramsS trace σS σP1 poptT).
  - exact closed_paramsS.
  - vm_compute. reflexivity.
Defined.

Lemma Optimizer_update_frame_witness : σT2 !! 1%nat = σT1 !! 1%nat.
Proof.
  apply (Optimizer_update_frame optT gradsS [] σT1 σT2 tt).
  - exact wf_keys_modelS.
  - vm_compute. reflexivity.
  - apply (bool_decide_unpack _). vm_compute. exact I.
  - apply (bool_decide_unpack _). vm_compute. exact I.
  - simpl. lia.
Defined.

Lemma PytreeOptimizer_update_in_place_witness :
  tt = tt
  ∧ dom σP2 = dom σP1
  ∧ writes (refs paramsS ∪ refs (PytreeOptimizer.opt_state poptT)
              ∪ {[PytreeOptimizer.step poptT]}) σP1 σP2
  ∧ ∃ c updates new_opt_state new_params n,
      PytreeOptimizer.update_call poptT paramsS gradsS [] σP1 = Some c
      ∧ tx_update (PytreeOptimizer.tx poptT) c = Some (updates, new_opt_state)
      ∧ optax.apply_updates (call_params c) updates = Some new_params
      ∧ tree_rel (holds σP2) paramsS new_params
      ∧ tree_rel (holds σP2) (PytreeOptimizer.opt_state poptT) new_opt_state
      ∧ holds σP1 (PytreeOptimizer.step poptT) n
      ∧ holds σP2 (PytreeOptimizer.step poptT) (uint32_add n 1).
Proof.
  apply (PytreeOptimizer_update_in_place poptT paramsS gradsS [] σP1 σP2 tt).
  - apply (bool_decide_unpack _). vm_compute. exact I.
  - vm_compute. reflexivity.
Defined.
End optimizer_examples.

(** ** The extraction under a [StateSharding] *)

Section split_and_map_prefix.
Context {Filter Sharding : Type} `{!FilterLib Filter VariableState}.
Context `{!Repr PathParts} `{!Repr VariableState}.

Lemma first_match_map_prefix (pairs : list (Filter * Sharding)) p v :
  match graph.first_match (map fst pairs) p v with
  | Some i => ∃ flt sh, pairs !! i = Some (flt, sh)
                        ∧ map_prefix_loop pairs p v = Ret sh
  | None => ∃ msg, map_prefix_loop pairs p v = Raise (ValueError msg)
  end.
Proof.
  induction pairs as [|[f s] pairs IH]; simpl; [by eexists|].
  destruct (to_predicate f p v); [by exists f, s|].
  destruct (graph.first_match (map fst pairs) p v) as [i|]; simpl; [|done].
  done.
Qed.

End split_and_map_prefix.

(** ** Extraction, then reconstruction inside *)

Section split_then_merge.
Context {Filter Sharding : Type} `{!FilterLib Filter VariableState}.
Context `{!Repr PathParts} `{!Repr pytype}.

End split_then_merge.

Section split_then_merge_example.
#[local] Existing Instance type_filter.
#[local] Existing Instance path_repr.
#[local] Existing Instance pytype_repr.

End split_then_merge_example.

(** ** [jit] of a function on arrays *)

Lemma tree_map_id_on {A : Type} (g : A → A) (t : pytree A) :
  (∀ a, a ∈ tree_leaves t → g a = a) → tree_map g t = t.
Proof.
  induction t as [a|k cs IH] using pytree_induction; simpl; intros Hg.
  - rewrite Hg; [done|by left].
  - f_equal. induction cs as [|[key c] cs IHl]; simpl; [done|].
    apply Forall_cons in IH as [Hc Hcs]. simpl in *. f_equal.
    + f_equal. apply Hc. intros a Ha. apply Hg. apply elem_of_app. by left.
    + apply IHl; [done|]. intros a Ha. apply Hg. apply elem_of_app. by right.
Qed.

(** A traversal whose function leaves the state alone on every leaf. *)
Lemma tree_mapM_pure_rel {A A' B S : Type} (f : A' → S → option (B * S)) (g : A → B)
    (s : S) t l :
  tree_rel (λ a x, f x s = Some (g a, s)) t l →
  tree_mapM f l s = Some (tree_map g t, s).
Proof.
  revert l. induction t as [a|k cs IH] using pytree_induction; intros l H;
    inversion H as [a0 x Hx|k0 cs0 ds Hcs]; subst; simpl.
  - by rewrite Hx.
  - assert (childrenM (tree_mapM f) ds s
            = Some (map (λ c, (c.1, tree_map g c.2)) cs, s)) as ->; [|done].
    clear H. induction Hcs as [|[key c] [key' d] cs ds [Hk Hcd] _ IHl]; simpl; [done|].
    apply Forall_cons in IH as [Hc Hcs']. simpl in *. subst key'.
    rewrite (Hc d Hcd). simpl. by rewrite (IHl Hcs').
Qed.

Lemma clear_non_graph_nodes_elem_of t x :
  x ∈ tree_leaves (extract.clear_non_graph_nodes t) → x ∈ tree_leaves t ∧ ∃ r, x = JNode r.
Proof.
  induction t as [[a|r]|k cs IH] using pytree_induction; simpl.
  - intros H. by apply elem_of_nil in H.
  - intros H. apply elem_of_cons in H as [->|H]; [|by apply elem_of_nil in H].
    split; [by left|by exists r].
  - induction cs as [|c cs IHl]; simpl; [intros H; by apply elem_of_nil in H|].
    apply Forall_cons in IH as [Hc Hcs].
    rewrite !elem_of_app. intros [H|H].
    + destruct (Hc H) as [? ?]. split; [by left|done].
    + destruct (IHl Hcs H) as [? ?]. split; [by right|done].
Qed.

Section jit_arrays.
Context {Filter Sharding : Type} `{!FilterLib Filter VariableState}.
Context `{!Repr PathParts} `{!Repr pytype}.

#[local] Abbreviation prefix := (prefix_leaf Filter Sharding).

Lemma to_tree_no_nodes tree (pfx : pytree prefix) (h : heap) ctx :
  is_Some (broadcast_prefix pfx (with_paths tree)) →
  no_nodes tree →
  extract.to_tree tree pfx _jit_split_fn h ctx
  = Some (tree_map pure_leaf_of tree,
          match graph.inner ctx with
          | None => {| graph.outer := Some graph.RefMap_empty; graph.inner := None |}
          | Some _ => ctx
          end).
Proof.
  intros [leaves Hb] Hno. unfold extract.to_tree. rewrite Hb. simpl.
  rewrite (tree_mapM_pure_rel _ pure_leaf_of graph.RefMap_empty tree leaves); [done|].
  pose proof (tree_rel_compose _ _ _ _ _ (with_paths_from_rel [] tree)
                (broadcast_prefix_rel _ _ _ Hb)) as Hrel.
  eapply tree_rel_impl_strong; [|exact Hrel]. simpl.
  intros a x Ha (y & <- & Hy). unfold extract.to_tree_leaf. rewrite Hy.
  destruct y.2 as [v|r] eqn:E; [done|]. by destruct (Hno r).
Qed.

Lemma from_tree_no_nodes tree is_inner (h : heap) ctx :
  no_nodes tree →
  extract.from_tree (Meta := prefix) (tree_map pure_leaf_of tree) _jit_merge_fn
    is_inner h ctx
  = Some (tree, h,
          if is_inner
          then {| graph.outer := graph.outer ctx;
                  graph.inner := Some graph.RefMap_empty |}
          else ctx).
Proof.
  intros Hno. unfold extract.from_tree.
  rewrite (tree_mapM_pure_rel _ (λ a, a) (h, graph.RefMap_empty) tree).
  - simpl. rewrite tree_map_id_on; done.
  - pose proof (tree_rel_compose _ _ _ _ _
                  (tree_rel_map_l (pure_leaf_of (Meta := prefix)) tree)
                  (with_paths_from_rel [] (tree_map pure_leaf_of tree))) as Hrel.
    eapply tree_rel_impl_strong; [|exact Hrel]. simpl.
    intros a x Ha (y & -> & Hy). unfold extract.from_tree_leaf. rewrite Hy.
    destruct a as [v|r]; [done|]. by destruct (Hno r).
Qed.

End jit_arrays.

Section jit_arrays_example.
#[local] Existing Instance type_filter.
#[local] Existing Instance path_repr.
#[local] Existing Instance pytype_repr.

End jit_arrays_example.

(** ** What a call through [jit] leaves alone *)

Lemma split_dom_step_preorder X : PreOrder (split_dom_step X).
Proof.
  split.
  - intros m r Hr. by left.
  - intros m1 m2 m3 H12 H23 r Hr. destruct (H23 r Hr) as [H2|HX]; [|by right].
    by apply H12.
Qed.
#[local] Existing Instance split_dom_step_preorder.

Section jit_frame.
Context {Filter Sharding : Type} `{!FilterLib Filter VariableState}.
Context `{!Repr PathParts} `{!Repr pytype}.

#[local] Abbreviation prefix := (prefix_leaf Filter Sharding).
#[local] Existing Instance outer_step_preorder.

Lemma to_tree_leaf_dom sctx (h : heap) (a : prefix * (PathParts * jleaf)) m b m' :
  extract.to_tree_leaf _jit_split_fn sctx h a m = Some (b, m') →
  ∀ r, is_Some (graph.ref_index m' !! r) →
       is_Some (graph.ref_index m !! r) ∨ a.2.2 = JNode r.
Proof.
  unfold extract.to_tree_leaf. destruct a as [pfx [path [x|r0]]]; simpl.
  - intros [= <- <-] r Hr. by left.
  - destruct (_jit_split_fn sctx h path pfx r0 m) as [[ns m1]|] eqn:Hs; [|done].
    simpl. intros [= <- <-] r Hr. unfold _jit_split_fn in Hs.
    assert (∃ gd states fs, graph.flatten sctx h r0 fs m = Some (gd, states, m1))
      as (gd & sts & fs & Hfl).
    { destruct pfx as [s|s].
      - destruct (graph.flatten sctx h r0 (Some (filters s)) m)
          as [[[gd sts] m2]|] eqn:Hfl; [|done].
        simpl in Hs. injection Hs as <- <-. eauto.
      - destruct (graph.flatten sctx h r0 None m) as [[[gd sts] m2]|] eqn:Hfl; [|done].
        simpl in Hs. injection Hs as <- <-. eauto. }
    unfold graph.flatten in Hfl.
    destruct (h !! r0) as [node|]; simpl in Hfl; [|done].
    destruct (match fs with Some fs => _ | None => _ end) as [sts'|]; simpl in Hfl; [|done].
    destruct (graph.ref_index m !! r0) as [i|] eqn:Hi.
    + injection Hfl as <- <- <-. by left.
    + injection Hfl as <- <- <-. simpl in Hr.
      destruct (decide (r = r0)) as [->|Hne]; [by right|].
      rewrite lookup_insert_ne in Hr by done. by left.
Qed.

(** The nodes that the extraction of the calling scope knows are nodes
    of the tree. *)
Lemma to_tree_dom tree (pfx : pytree prefix) (h : heap) ctx pure m :
  graph.inner ctx = None →
  extract.to_tree tree pfx _jit_split_fn h ctx
  = Some (pure, {| graph.outer := Some m; graph.inner := None |}) →
  ∀ r i, graph.ref_index m !! r = Some i → JNode r ∈ tree_leaves tree.
Proof.
  unfold extract.to_tree. intros Hin.
  destruct (broadcast_prefix pfx (with_paths tree)) as [leaves|] eqn:Hb; [|done].
  simpl.
  destruct (tree_mapM _ leaves graph.RefMap_empty) as [[pure' m']|] eqn:Ht; [|done].
  simpl. rewrite Hin. intros [= <- <-].
  pose proof (tree_rel_compose _ _ _ _ _ (with_paths_from_rel [] tree)
                (broadcast_prefix_rel _ _ _ Hb)) as Hrel.
  eapply (tree_mapM_spec _ (λ a, a.2.2 ∈ tree_leaves tree)
            (split_dom_step (λ r, JNode r ∈ tree_leaves tree))) in Ht as [Hstep _].
  - intros r i Hr. destruct (Hstep r) as [H0|HX]; [by eexists| |done].
    simpl in H0. rewrite lookup_empty in H0. by destruct H0.
  - intros a s b s' Ha Hf r Hr.
    destruct (to_tree_leaf_dom _ _ _ _ _ _ Hf r Hr) as [?|Heq]; [by left|].
    right. by rewrite <- Heq.
  - apply Forall_forall. intros a Ha.
    destruct (tree_rel_elem_of_r _ _ _ _ Hrel Ha) as (x & Hx & y & <- & Hy).
    by rewrite Hy.
Qed.

(** The reconstruction in the calling scope, on the heap. *)
Lemma from_tree_outer_step (tree : pytree (extract.pleaf prefix)) h ctx out h' ctx' T :
  extract.from_tree tree _jit_merge_fn false h ctx = Some (out, h', ctx') →
  Forall (allowed T (graph.outer_index_outer_ref (graph.merge_context ctx false)))
    (tree_leaves tree) →
  ∀ r, h' !! r = h !! r ∨ h !! r = None
       ∨ ∃ node, h' !! r = Some node ∧ T r (node_state node).
Proof.
  unfold extract.from_tree. intros Hf HT.
  set (mctx := graph.merge_context ctx false) in *.
  destruct (tree_mapM _ (with_paths tree) (h, graph.RefMap_empty))
    as [[out' [h1 m]]|] eqn:Ht; [|done].
  simpl in Hf. injection Hf as <- <- <-.
  pose proof (with_paths_from_rel [] tree) as Hp.
  eapply (tree_mapM_spec _
            (λ a, allowed T (graph.outer_index_outer_ref mctx) a.2) (outer_step T))
    in Ht as [Hstep _].
  - exact Hstep.
  - intros a s b s' Ha Hf. by eapply from_tree_leaf_outer in Hf as [? _].
  - apply Forall_forall. intros a Ha.
    destruct (tree_rel_elem_of_r _ _ _ _ Hp Ha) as (b & Hb & <-).
    rewrite Forall_forall in HT. by apply HT.
Qed.

(** The stages of a call. *)
Lemma JitWrapped_call_stages (jw : JitWrapped Filter Sharding) args kwargs
    (h : heap) out h' :
  JitWrapped__call__ jw args kwargs h = Some (out, h') →
  ∃ (pfx : pytree prefix) pa pk mo iargs ikwargs hi mi iout ho pao pko po ao ko c4,
    extract.to_tree (tuple2 args kwargs) pfx _jit_split_fn h graph.update_context
    = Some (tuple2 pa pk, {| graph.outer := Some mo; graph.inner := None |})
    ∧ extract.from_tree (tuple2 pa pk) _jit_merge_fn true h
        {| graph.outer := Some mo; graph.inner := None |}
      = Some (tuple2 iargs ikwargs, hi,
              {| graph.outer := Some mo; graph.inner := Some mi |})
    ∧ f (jitted_fn jw) iargs ikwargs hi = Some (iout, ho)
    ∧ extract.to_tree
        (tuple3 (extract.clear_non_graph_nodes iargs)
           (extract.clear_non_graph_nodes ikwargs) iout)
        (tuple3 (jf_in_shardings (jitted_fn jw)) (jf_kwarg_shardings (jitted_fn jw))
           (jf_out_shardings (jitted_fn jw)))
        _jit_split_fn ho {| graph.outer := Some mo; graph.inner := Some mi |}
      = Some (tuple3 pao pko po, {| graph.outer := Some mo; graph.inner := Some mi |})
    ∧ extract.from_tree (tuple3 pao pko po) _jit_merge_fn false ho
        {| graph.outer := Some mo; graph.inner := Some mi |}
      = Some (tuple3 ao ko out, h', c4).
Proof.
  intros Hcall. unfold JitWrapped__call__ in Hcall. cbv zeta in Hcall.
  destruct (_get_pure_args_kwargs jw args kwargs h graph.update_context)
    as [[[pa pk] ctx1]|] eqn:HA; [|done]. simpl in Hcall.
  destruct (JitFn__call__ (jitted_fn jw) pa pk h ctx1)
    as [[[[[pao pko] po] h2] ctx2]|] eqn:HB; [|done]. simpl in Hcall.
  destruct (_get_non_pure_out jw pao pko po h2 ctx2) as [[out' h3]|] eqn:HE; [|done].
  simpl in Hcall. injection Hcall as -> ->.
  unfold _get_pure_args_kwargs in HA.
  destruct (extract.to_tree (tuple2 args kwargs) _ _jit_split_fn h graph.update_context)
    as [[pure ctx]|] eqn:HtA; [|done]. simpl in HA.
  destruct (to_tree_spec _ _ _ _ _ _ HtA) as (mo & Hwfo & -> & HrelA). simpl in HrelA.
  destruct (tree_rel_tuple2 _ _ _ _ HrelA) as (pa' & pk' & -> & _ & _).
  simpl in HA. injection HA as <- <- <-.
  unfold JitFn__call__ in HB.
  destruct (extract.from_tree (tuple2 pa' pk') _jit_merge_fn true h _)
    as [[[ak hi] ctxb]|] eqn:HtB; [|done]. simpl in HB.
  destruct (from_tree_inner_spec _ _ _ _ _ _ (λ _ _, True) HtB)
    as (mi & -> & _ & HrelB).
  { apply Forall_forall. intros [a|ns] _; done. }
  destruct (tree_rel_tuple2 _ _ _ _ HrelB) as (iargs & ikwargs & -> & _ & _).
  simpl in HB.
  destruct (f (jitted_fn jw) iargs ikwargs hi) as [[iout ho]|] eqn:Hbody; [|done].
  simpl in HB.
  destruct (extract.to_tree _ _ _jit_split_fn ho _) as [[pure3 ctxd]|] eqn:HtD; [|done].
  simpl in HB.
  destruct (to_tree_spec _ _ _ _ _ _ HtD) as (md & Hwfd & -> & HrelD). simpl in HrelD.
  destruct (tree_rel_tuple3 _ _ _ _ _ HrelD) as (pao' & pko' & po' & -> & _ & _ & _).
  simpl in HB. injection HB as <- <- <- <- <-.
  unfold _get_non_pure_out in HE.
  destruct (extract.from_tree (tuple3 pao' pko' po') _jit_merge_fn false ho _)
    as [[[outs h4] c4]|] eqn:HtE; [|done]. simpl in HE.
  pose proof (from_tree_outer_spec _ _ _ _ _ _ (λ _ _, True) HtE) as HrelE.
  destruct (tree_rel_tuple3 _ _ _ _ _ (HrelE ltac:(apply Forall_forall; by intros [a|ns] _)))
    as (ao & ko & o & -> & _ & _ & _).
  simpl in HE. injection HE as <- <-.
  exists (if negb (is_None (in_shardings jw)) || negb (is_None (kwarg_shardings jw))
          then tuple2 (in_shardings jw) (kwarg_shardings jw) else py_None).
  by exists pa', pk', mo, iargs, ikwargs, hi, mi, iout, ho, pao', pko', po', ao, ko, c4.
Qed.

End jit_frame.

Section jit_frame_example.
#[local] Existing Instance type_filter.
#[local] Existing Instance path_repr.
#[local] Existing Instance pytype_repr.

Lemma bodyJ_only_touches_arguments : only_touches_arguments bodyJ.
Proof.
  intros args kwargs h out h' Hrun r Hr Hnot. unfold bodyJ in Hrun.
  destruct args as [|k [|[key [[a|r0]|]] cs]]; try done.
  destruct (h !! r0) as [n|] eqn:Hn; simpl in Hrun; [|done].
  injection Hrun as <- <-.
  rewrite lookup_insert_ne.
  - rewrite lookup_insert_ne; [done|]. intros <-. apply Hnot. simpl. by left.
  - intros Heq. apply (is_fresh (dom (<[r0 := bump n]> h))).
    rewrite Heq, dom_insert_L. apply elem_of_union. by right.
Qed.

End jit_frame_example.

(** ** New graph nodes returned through [jit] *)

Lemma outer_new_step_preorder mi md ho : PreOrder (outer_new_step mi md ho).
Proof.
  split.
  - intros s Hinv. split; [done|]. by intros i x r _ ?.
  - intros s1 s2 s3 H12 H23 Hinv. destruct (H12 Hinv) as [Hinv2 Hm12].
    destruct (H23 Hinv2) as [Hinv3 Hm23]. split; [done|].
    intros i x r Hn Hr. eapply Hm23; [done|]. by eapply Hm12.
Qed.
#[local] Existing Instance outer_new_step_preorder.

Lemma unflatten_outer_cases mctx gd sts (hh : heap) m r s' :
  graph.is_inner mctx = false →
  graph.unflatten mctx gd sts (hh, m) = Some (r, s') →
  (∃ oi node, graph.gd_outer_index gd = Some oi
     ∧ graph.outer_index_outer_ref mctx !! oi = Some r
     ∧ hh !! r = Some node
     ∧ s' = (<[r := {| node_type := node_type node;
                       node_state := graph.merge_states sts |}]> hh,
             graph.RefMap_add r (graph.gd_index gd) m))
  ∨ (graph.gd_outer_index gd = None
     ∧ graph.index_ref m !! graph.gd_index gd = Some r ∧ s' = (hh, m))
  ∨ (graph.gd_outer_index gd = None
     ∧ graph.index_ref m !! graph.gd_index gd = None
     ∧ r = fresh (dom hh)
     ∧ s' = (<[r := {| node_type := graph.gd_type gd;
                       node_state := graph.merge_states sts |}]> hh,
             graph.RefMap_add r (graph.gd_index gd) m)).
Proof.
  intros Hin. unfold graph.unflatten. rewrite Hin.
  destruct (graph.gd_outer_index gd) as [oi|].
  - destruct (graph.outer_index_outer_ref mctx !! oi) as [x|] eqn:Hx; [|done]. simpl.
    destruct (hh !! x) as [node|] eqn:Hn; [|done]. simpl.
    intros [= <- <-]. left. by exists oi, node.
  - destruct (graph.index_ref m !! graph.gd_index gd) as [x|] eqn:Hx.
    + intros [= <- <-]. right. by left.
    + intros [= <- <-]. right. by right.
Qed.

Section jit_new_nodes.
Context {Filter Sharding : Type} `{!FilterLib Filter VariableState}.
Context `{!Repr PathParts} `{!Repr pytype}.

#[local] Abbreviation prefix := (prefix_leaf Filter Sharding).

Lemma new_index_inj mi md i x x' :
  RefMap_wf md → new_index mi md i x → new_index mi md i x' → x = x'.
Proof.
  intros Hwf [Hx _] [Hx' _]. apply Hwf in Hx, Hx'. congruence.
Qed.

Lemma from_tree_leaf_outer_new mi md ho mctx
    (a : PathParts * extract.pleaf prefix) s b s' :
  RefMap_wf md →
  (∀ oi r, graph.outer_index_outer_ref mctx !! oi = Some r → r ∈ dom ho) →
  graph.is_inner mctx = false →
  extracted_from mi md ho a.2 →
  extract.from_tree_leaf _jit_merge_fn mctx a s = Some (b, s') →
  outer_new_step mi md ho s s'
  ∧ (outer_new_inv mi md ho s → rebuilt_new (graph.index_ref s'.2) a.2 b).
Proof.
  intros Hwf Hargs Hin HQ Hf%from_tree_leaf_inv.
  destruct a as [path [v|ns]]; simpl in *.
  - destruct Hf as [-> ->]. split; [reflexivity|done].
  - destruct Hf as (r & -> & Hun). destruct s as [hh m].
    destruct HQ as (x & Hx & Hmd & Hgo).
    apply (unflatten_outer_cases _ _ _ _ _ _ _ Hin) in Hun
      as [(oi & node & Hoi & Hr & Hn & ->)|[(Hoi & Hr & ->)|(Hoi & Hr & -> & ->)]].
    + split; [|intros _ Hnone; congruence].
      intros (Hd & Hran & Hnew & Hinj). simpl in *.
      assert (r ∈ dom ho) as Hrho by by eapply Hargs.
      assert (∀ i x0, new_index mi md i x0 → i ≠ graph.gd_index (extract.graphdef ns))
        as Hne.
      { intros i x0 [Hx0 Hx0'] ->. apply Hwf in Hx0, Hmd.
        assert (x0 = x) as -> by congruence. congruence. }
      split; [split; [|split; [|split]]|]; simpl.
      * rewrite dom_insert_L. set_solver.
      * intros i r0. rewrite dom_insert_L.
        destruct (decide (i = graph.gd_index (extract.graphdef ns))) as [->|Hni].
        -- rewrite lookup_insert_eq. intros [= <-]. set_solver.
        -- rewrite lookup_insert_ne by done. intros Hr0%Hran. set_solver.
      * intros i x0 r0 Hn0. rewrite lookup_insert_ne by (symmetry; by eapply Hne).
        intros Hr0. destruct (Hnew _ _ _ Hn0 Hr0) as [Hr0' Hh0]. split; [done|].
        rewrite lookup_insert_ne; [done|]. by intros <-.
      * intros i x0 i' x0' r0 Hn0 Hn0'.
        rewrite !lookup_insert_ne by (symmetry; by eapply Hne).
        by eapply Hinj.
      * intros i x0 r0 Hn0. by rewrite lookup_insert_ne by (symmetry; by eapply Hne).
    + split; [reflexivity|]. intros _ _. simpl. eauto.
    + simpl. split; [|intros _ _; rewrite lookup_insert_eq; eauto].
      intros (Hd & Hran & Hnew & Hinj). simpl in *.
      pose proof (is_fresh (dom hh)) as Hfresh.
      assert (new_index mi md (graph.gd_index (extract.graphdef ns)) x) as Hnx.
      { split; [done|]. by rewrite <- Hgo. }
      split; [split; [|split; [|split]]|]; simpl.
      * rewrite dom_insert_L. set_solver.
      * intros i r0. rewrite dom_insert_L.
        destruct (decide (i = graph.gd_index (extract.graphdef ns))) as [->|Hni].
        -- rewrite lookup_insert_eq. intros [= <-]. set_solver.
        -- rewrite lookup_insert_ne by done. intros Hr0%Hran. set_solver.
      * intros i x0 r0 Hn0.
        destruct (decide (i = graph.gd_index (extract.graphdef ns))) as [->|Hni].
        -- rewrite lookup_insert_eq. intros [= <-].
           rewrite (new_index_inj _ _ _ _ _ Hwf Hn0 Hnx).
           split; [set_solver|]. by rewrite lookup_insert_eq.
        -- rewrite lookup_insert_ne by done. intros Hr0.
           destruct (Hnew _ _ _ Hn0 Hr0) as [Hr0' Hh0]. split; [done|].
           rewrite lookup_insert_ne; [done|]. intros <-.
           by apply Hfresh, (Hran i).
      * intros i x0 i' x0' r0 Hn0 Hn0'.
        destruct (decide (i = graph.gd_index (extract.graphdef ns))) as [->|Hni];
          destruct (decide (i' = graph.gd_index (extract.graphdef ns))) as [->|Hni'];
          rewrite ?lookup_insert_eq, ?lookup_insert_ne by done.
        -- done.
        -- intros [= <-] Hr0. exfalso. by apply Hfresh, (Hran i').
        -- intros Hr0 [= <-]. exfalso. by apply Hfresh, (Hran i).
        -- by eapply Hinj.
      * intros i x0 r0 Hn0 Hr0.
        rewrite lookup_insert_ne; [done|]. intros <-. congruence.
Qed.

(** The reconstruction in the calling scope, for the nodes that stand
    for no object of this scope. *)
Lemma from_tree_outer_new (tree : pytree (extract.pleaf prefix)) ho ctx out h' ctx'
    mi md :
  RefMap_wf md →
  (∀ oi r, graph.outer_index_outer_ref (graph.merge_context ctx false) !! oi = Some r →
     r ∈ dom ho) →
  extract.from_tree tree _jit_merge_fn false ho ctx = Some (out, h', ctx') →
  Forall (extracted_from mi md ho) (tree_leaves tree) →
  ∃ m, outer_new_inv mi md ho (h', m)
    ∧ tree_rel (rebuilt_new (graph.index_ref m)) tree out.
Proof.
  unfold extract.from_tree. intros Hwf Hargs Hf HQ.
  set (mctx := graph.merge_context ctx false) in *.
  destruct (tree_mapM _ (with_paths tree) (ho, graph.RefMap_empty))
    as [[out' [h1 m]]|] eqn:Ht; [|done].
  simpl in Hf. injection Hf as <- <- <-. exists m.
  pose proof (with_paths_from_rel [] tree) as Hp.
  assert (∀ a s b s', extracted_from mi md ho a.2 →
            extract.from_tree_leaf (Meta := prefix) _jit_merge_fn mctx a s = Some (b, s') →
            outer_new_step mi md ho s s'
            ∧ (outer_new_inv mi md ho s → rebuilt_new (graph.index_ref s'.2) a.2 b))
    as Hleaf.
  { intros a s b s' Ha Hfa. by eapply from_tree_leaf_outer_new. }
  eapply (tree_mapM_spec _ (λ a, extracted_from mi md ho a.2)
            (outer_new_step mi md ho)) in Ht as [Hstep Hrel].
  2: { intros a s b s' Ha Hfa. by destruct (Hleaf a s b s' Ha Hfa). }
  2: { apply Forall_forall. intros a Ha.
       destruct (tree_rel_elem_of_r _ _ _ _ Hp Ha) as (b & Hb & <-).
       rewrite Forall_forall in HQ. by apply HQ. }
  assert (outer_new_inv mi md ho (ho, graph.RefMap_empty)) as H0.
  { split; [done|]. simpl. split; [|split].
    - intros i r. by rewrite lookup_empty.
    - intros i x r _. by rewrite lookup_empty.
    - intros i x i' x' r _ _. by rewrite lookup_empty. }
  destruct (Hstep H0) as [Hinv _]. split; [done|].
  pose proof (tree_rel_compose _ _ _ _ _ Hp Hrel) as Hall.
  eapply tree_rel_impl_strong; [|exact Hall]. simpl.
  intros a b Ha (x & <- & (s1 & s2 & H1 & Hfa & H2)).
  rewrite Forall_forall in HQ. specialize (HQ _ Ha).
  destruct (Hleaf _ _ _ _ HQ Hfa) as [H12 Hre].
  destruct (H1 H0) as [Hinv1 _]. destruct (H12 Hinv1) as [Hinv2 _].
  destruct (H2 Hinv2) as [_ Hmono]. specialize (Hre Hinv1).
  destruct x.2 as [v|ns]; simpl in *; [done|].
  intros Hnone. destruct (Hre Hnone) as (r & -> & Hr). exists r. split; [done|].
  destruct HQ as (x0 & _ & Hmd & Hgo).
  apply (Hmono _ x0); [|done]. split; [done|]. by rewrite <- Hgo.
Qed.

End jit_new_nodes.

Section jit_new_nodes_example.
#[local] Existing Instance type_filter.
#[local] Existing Instance path_repr.
#[local] Existing Instance pytype_repr.

End jit_new_nodes_example.
